(** * tci-lru: a fixed-size LRU cache with a tag index

    A shallow embedding of [lru/lru.go] (the single-threaded engine) and of
    the constructors of [cache.go] (the locked wrapper), followed by the
    properties of the specification that were checked against it.

    Modelling choices.
    - A [*list.Element] is an address ([Element], a natural number).  The
      cache state carries the memory [heap] that maps an address to the
      [entry] stored in the element, and the next free address [next].
      Elements are never freed: a tag bucket may keep the address of an
      element long after it left the list, exactly as the Go maps keep the
      pointer alive.
    - [container/list] is modelled by the list of addresses from front
      (most recent) to back (oldest).  The test [e.list == l] of the Go
      library is membership in that list.  ([Purge] re-initialises the
      list and drops both indices, so the elements it leaves behind can no
      longer be reached.)
    - Go maps are [gmap]s; a bucket [map[*list.Element]bool] only ever
      stores [true], so it is a [gset Element].  Ranging over a map visits
      the keys in the order of [elements] / [map_to_list]; Go leaves that
      order unspecified and the statements below do not depend on it.
    - The eviction callback is user code.  [onEvict] records whether one
      was configured and [evicted] is the trace of its invocations, oldest
      first.
    - [int] is the 64-bit signed integer; the one subtraction of the source
      that may overflow is wrapped with [wrap]. *)

From Stdlib Require Import ZArith Lia.
From stdpp Require Import gmap strings list fin_maps.

Local Open Scope Z_scope.

(** ** Go integers *)

Definition int_min : Z := - 2 ^ 63.
Definition int_max : Z := 2 ^ 63 - 1.

(** Two's complement wrap-around of a 64-bit signed result. *)
Definition wrap (z : Z) : Z := (z + 2 ^ 63) mod 2 ^ 64 - 2 ^ 63.

(** ** Elements and entries *)

Abbreviation Element := nat.

Module Entry.
(** [type entry struct { key, value interface{}; tags []string }] *)
Record entry (K V : Type) := mk {
  key : K;
  value : V;
  tags : list string
}.
Arguments mk {K V} _ _ _.
Arguments key {K V} _.
Arguments value {K V} _.
Arguments tags {K V} _.
End Entry.
Abbreviation entry := Entry.entry.

(** Outcome of a constructor: the Go pair of a pointer and an [error]. *)
Inductive result (A : Type) :=
  | Ok (a : A)
  | Err (msg : string).
Arguments Ok {A} a.
Arguments Err {A} msg.

Definition is_err {A} (r : result A) : bool :=
  match r with Err _ => true | Ok _ => false end.

(** ** container/list, on the list of addresses *)

Definition list_Remove (e : Element) (l : list Element) : list Element :=
  filter (λ x, x ≠ e) l.

Definition list_MoveToFront (e : Element) (l : list Element) : list Element :=
  if decide (e ∈ l) then
    if decide (head l = Some e) then l else e :: list_Remove e l
  else l.

Definition list_Back (l : list Element) : option Element := last l.

(** ** The tag index: [map[string]map[*list.Element]bool] *)

Definition tag1 (el : Element) (m : gmap string (gset Element)) (t : string)
  : gmap string (gset Element) :=
  let m1 := match m !! t with
            | None => <[t := ∅]> m
            | Some _ => m
            end in
  <[t := {[el]} ∪ (m1 !!! t)]> m1.

Definition untag1 (el : Element) (m : gmap string (gset Element)) (t : string)
  : gmap string (gset Element) :=
  (* delete(c.tags[tag], el): a missing bucket reads as the nil map, on
     which delete does nothing *)
  let m1 := match m !! t with
            | Some b => <[t := b ∖ {[el]}]> m
            | None => m
            end in
  if decide (base.size (m1 !!! t) = 0%nat) then delete t m1 else m1.

Section lru.
Context {K V : Type} `{Countable K}.

(** [type LRU struct], with the memory of its elements and the trace of
    callback invocations. *)
Record LRU := mkLRU {
  size : Z;
  evictList : list Element;
  items : gmap K Element;
  tags : gmap string (gset Element);
  onEvict : bool;
  heap : gmap Element (entry K V);
  next : Element;
  evicted : list (K * V)
}.

Definition set_size (s : Z) (c : LRU) : LRU :=
  mkLRU s (evictList c) (items c) (tags c) (onEvict c) (heap c) (next c) (evicted c).
Definition set_evictList (l : list Element) (c : LRU) : LRU :=
  mkLRU (size c) l (items c) (tags c) (onEvict c) (heap c) (next c) (evicted c).
Definition set_items (m : gmap K Element) (c : LRU) : LRU :=
  mkLRU (size c) (evictList c) m (tags c) (onEvict c) (heap c) (next c) (evicted c).
Definition set_tags (m : gmap string (gset Element)) (c : LRU) : LRU :=
  mkLRU (size c) (evictList c) (items c) m (onEvict c) (heap c) (next c) (evicted c).
Definition set_heap (h : gmap Element (entry K V)) (c : LRU) : LRU :=
  mkLRU (size c) (evictList c) (items c) (tags c) (onEvict c) h (next c) (evicted c).
Definition set_evicted (t : list (K * V)) (c : LRU) : LRU :=
  mkLRU (size c) (evictList c) (items c) (tags c) (onEvict c) (heap c) (next c) t.

(** The state built by a successful [NewLRU]. *)
Definition fresh (sz : Z) (cb : bool) : LRU :=
  mkLRU sz [] ∅ ∅ cb ∅ 0%nat [].

Definition NewLRU (sz : Z) (cb : bool) : result LRU :=
  if decide (sz ≤ 0) then Err "Must provide a positive size"
  else Ok (fresh sz cb).

(** [c.onEvict(k, v)] when the callback is not nil. *)
Definition fire (k : K) (v : V) (c : LRU) : LRU :=
  if onEvict c then set_evicted (evicted c ++ [(k, v)]) c else c.

(** [c.evictList.PushFront(ent)]: allocates the element. *)
Definition PushFront (ent : entry K V) (c : LRU) : Element * LRU :=
  let el := next c in
  (el, mkLRU (size c) (el :: evictList c) (items c) (tags c) (onEvict c)
             (<[el := ent]> (heap c)) (S el) (evicted c)).

Definition tag (el : Element) (ts : list string) (c : LRU) : LRU :=
  set_tags (foldl (tag1 el) (tags c) ts) c.

Definition untag (el : Element) (ts : list string) (c : LRU) : LRU :=
  set_tags (foldl (untag1 el) (tags c) ts) c.

Definition removeElement (el : Element) (c : LRU) : LRU :=
  let c1 := set_evictList (list_Remove el (evictList c)) c in
  match heap c1 !! el with
  | Some ent =>
      let c2 := untag el (Entry.tags ent) c1 in
      let c3 := set_items (delete (Entry.key ent) (items c2)) c2 in
      fire (Entry.key ent) (Entry.value ent) c3
  | None => c1 (* no element of the cache is unallocated, see [refs_alloc] *)
  end.

Definition removeOldest (c : LRU) : LRU :=
  match list_Back (evictList c) with
  | Some el => removeElement el c
  | None => c
  end.

Definition Len (c : LRU) : Z := Z.of_nat (length (evictList c)).

Definition Add (key : K) (value : V) (ts : list string) (c : LRU) : LRU * bool :=
  match items c !! key with
  | Some el =>
      let c1 := set_evictList (list_MoveToFront el (evictList c)) c in
      let c2 := untag el ts c1 in
      let c3 := set_heap (alter (λ e, Entry.mk (Entry.key e) value ts) el (heap c2)) c2 in
      (tag el ts c3, false)
  | None =>
      let ent := Entry.mk key value ts in
      let '(el, c1) := PushFront ent c in
      let c2 := tag el ts c1 in
      let c3 := set_items (<[key := el]> (items c2)) c2 in
      let evict := bool_decide (Len c3 > size c3) in
      (if evict then removeOldest c3 else c3, evict)
  end.

Definition Get (key : K) (c : LRU) : LRU * (option V * bool) :=
  match items c !! key with
  | Some el =>
      (set_evictList (list_MoveToFront el (evictList c)) c,
       (Entry.value <$> heap c !! el, true))
  | None => (c, (None, false))
  end.

Definition Contains (key : K) (c : LRU) : bool :=
  bool_decide (is_Some (items c !! key)).

Definition Peek (key : K) (c : LRU) : option V * bool :=
  match items c !! key with
  | Some el => (Entry.value <$> heap c !! el, true)
  | None => (None, false)
  end.

Definition Remove (key : K) (c : LRU) : LRU * bool :=
  match items c !! key with
  | Some el => (removeElement el c, true)
  | None => (c, false)
  end.

Definition RemoveOldest (c : LRU) : LRU * (option K * option V * bool) :=
  match list_Back (evictList c) with
  | Some el =>
      let c' := removeElement el c in
      (c', (Entry.key <$> heap c' !! el, Entry.value <$> heap c' !! el, true))
  | None => (c, (None, None, false))
  end.

Definition GetOldest (c : LRU) : option K * option V * bool :=
  match list_Back (evictList c) with
  | Some el => (Entry.key <$> heap c !! el, Entry.value <$> heap c !! el, true)
  | None => (None, None, false)
  end.

(** [Keys] allocates [len(c.items)] slots and fills them walking the list
    from the back; writing past the last slot is Go's index-out-of-range
    panic, [None] here. *)
Definition Keys (c : LRU) : option (list (option K)) :=
  let ks := (λ el, Entry.key <$> heap c !! el) <$> reverse (evictList c) in
  let n := base.size (items c) in
  if decide (length ks ≤ n)%nat
  then Some (ks ++ replicate (n - length ks) None)
  else None.

Definition Resize (sz : Z) (c : LRU) : LRU * Z :=
  let diff := wrap (Len c - sz) in
  let diff := if decide (diff < 0) then 0 else diff in
  (set_size sz (Nat.iter (Z.to_nat diff) removeOldest c), diff).

(** The inner loop ranges over the bucket while [removeElement] deletes
    from it; only the element being visited is deleted, so the loop
    visits the elements the bucket held when it was read.  [removed] counts
    loop rounds, far fewer than an [int] can hold. *)
Definition Invalidate (ts : list string) (c : LRU) : LRU * Z :=
  foldl (λ '(c, removed) t,
           match tags c !! t with
           | Some els =>
               foldl (λ '(c, removed) el, (removeElement el c, removed + 1))
                     (c, removed) (elements els)
           | None => (c, removed)
           end) (c, 0) ts.

Definition FindByTags (ts : list string) (c : LRU) : list K :=
  foldl (λ keys t,
           match tags c !! t with
           | Some els => keys ++ omap (λ el, Entry.key <$> heap c !! el) (elements els)
           | None => keys
           end) [] ts.

Definition Purge (c : LRU) : LRU :=
  let c1 := foldl (λ c '(k, el),
                     let c' := match heap c !! el with
                               | Some ent => fire k (Entry.value ent) c
                               | None => c
                               end in
                     set_items (delete k (items c')) c')
                  c (map_to_list (items c)) in
  set_tags ∅ (set_evictList [] c1).

(** *** cache.go: the constructors of the locked wrapper

    [Cache] holds the engine and a [sync.RWMutex]; every method takes the
    lock and delegates, so one call at a time reaches the engine and the
    lock itself carries no state of interest here. *)
Record Cache := mkCache { lru : LRU }.

Definition NewWithEvict (sz : Z) (onEvicted : bool) : result Cache :=
  match NewLRU sz onEvicted with
  | Err e => Err e
  | Ok l => Ok (mkCache l)
  end.

Definition New (sz : Z) : result Cache := NewWithEvict sz false.

Definition ContainsOrAdd (key : K) (value : V) (c : Cache) : Cache * (bool * bool) :=
  if Contains key (lru c) then (c, (true, false))
  else let '(l, ev) := Add key value [] (lru c) in (mkCache l, (false, ev)).

(** *** Sequences of calls *)

(** [Add] called on each triple in turn; the results are collected in call
    order. *)
Definition Adds (l : list (K * V * list string)) (c : LRU) : LRU * list bool :=
  foldl (λ '(c, rs) '(k, v, ts), let '(c', r) := Add k v ts c in (c', rs ++ [r]))
        (c, []) l.

(** The state after [Add(k, v1, "a"); Add(k, v2, "b")] on a new cache of
    size 2. *)
Definition retagged (k : K) (v1 v2 : V) (cb : bool) : LRU :=
  (Add k v2 ["b"] (Add k v1 ["a"] (fresh 2 cb)).1).1.

(** ... followed by [Invalidate(["a"]); Add(k, v3); Invalidate(["a"])]. *)
Definition orphaned (k : K) (v1 v2 v3 : V) (cb : bool) : LRU :=
  (Invalidate ["a"]
     (Add k v3 [] (Invalidate ["a"] (retagged k v1 v2 cb)).1).1).1.

(** The key and value the callback receives for an element. *)
Definition kv_of (c : LRU) (el : Element) : option (K * V) :=
  (λ ent, (Entry.key ent, Entry.value ent)) <$> heap c !! el.

Inductive call :=
  | CAdd (key : K) (value : V) (ts : list string)
  | CGet (key : K)
  | CPeek (key : K)
  | CContains (key : K)
  | CRemove (key : K)
  | CRemoveOldest
  | CGetOldest
  | CKeys
  | CLen
  | CResize (sz : Z)
  | CInvalidate (ts : list string)
  | CFindByTags (ts : list string)
  | CPurge.

(** The state a call leaves behind (its results are dropped).  The
    read-only calls leave the state alone, [Keys] also when it panics. *)
Definition step (c : LRU) (o : call) : LRU :=
  match o with
  | CAdd k v ts => (Add k v ts c).1
  | CGet k => (Get k c).1
  | CRemove k => (Remove k c).1
  | CRemoveOldest => (RemoveOldest c).1
  | CResize sz => (Resize sz c).1
  | CInvalidate ts => (Invalidate ts c).1
  | CPurge => Purge c
  | CPeek _ | CContains _ | CGetOldest | CKeys | CLen | CFindByTags _ => c
  end.

Definition run (os : list call) (c : LRU) : LRU := foldl step c os.

(** Calls whose capacities are capacities: [Resize] with a non-negative
    [int]. *)
Definition sized (o : call) : bool :=
  match o with
  | CResize sz => bool_decide (0 ≤ sz ≤ int_max)
  | _ => true
  end.

(** *** Well-formed states *)

(** What the pointers of a cache obey whatever the calls were: the list
    holds each element once, everything the cache refers to has been
    allocated, and the key index points into the list at an element
    carrying that key. *)
Record wf (c : LRU) : Prop := mkWf {
  wf_nodup : NoDup (evictList c);
  wf_list : ∀ el, el ∈ evictList c → (el < next c)%nat;
  wf_heap : ∀ el, (el < next c)%nat → is_Some (heap c !! el);
  wf_items : ∀ k el, items c !! k = Some el →
               el ∈ evictList c ∧ ∃ ent, heap c !! el = Some ent ∧ Entry.key ent = k;
  wf_tags : ∀ t b el, tags c !! t = Some b → el ∈ b → (el < next c)%nat
}.

(** The list is no longer than the capacity, and the capacity is a
    non-negative [int]. *)
Definition within (c : LRU) : Prop := Len c ≤ size c ∧ 0 ≤ size c ≤ int_max.

(** The tag index agrees with the tag sets of the entries (the second
    invariant of the data model); a bucket that is missing holds nothing. *)
Definition tag_index_ok (c : LRU) : Prop :=
  ∀ (t : string) (el : Element),
    el ∈ tags c !!! t ↔
    (el ∈ evictList c ∧ ∃ ent, heap c !! el = Some ent ∧ t ∈ Entry.tags ent).

(** Every element of the list is the one the key index holds for its key. *)
Definition indexed (c : LRU) : Prop :=
  ∀ el, el ∈ evictList c →
    ∃ ent, heap c !! el = Some ent ∧ items c !! Entry.key ent = Some el.

(** The three structures agree with one another. *)
Record consistent (c : LRU) : Prop := mkConsistent {
  cons_wf : wf c;
  cons_tags : tag_index_ok c;
  cons_items : indexed c
}.

(** A call that drops no tag: an [Add] of a present key whose new tags
    include all the tags the entry carries. *)
Definition keeps_tags (c : LRU) (o : call) : bool :=
  match o with
  | CAdd k _ ts =>
      match items c !! k with
      | Some el =>
          match heap c !! el with
          | Some ent => bool_decide (Entry.tags ent ⊆ ts)
          | None => true
          end
      | None => true
      end
  | _ => true
  end.

Fixpoint keeps_tags_run (os : list call) (c : LRU) : bool :=
  match os with
  | [] => true
  | o :: os' => keeps_tags c o && keeps_tags_run os' (step c o)
  end.

(** Elements in the list plus callbacks fired. *)
Definition tally (c : LRU) : nat := (length (evictList c) + length (evicted c))%nat.

(** The pairs of the elements that have left the list: those [PushFront]
    allocated (the addresses below [next]) that the list no longer holds,
    each with the key and the value its entry holds.  The entry of an
    element outside the list is not written again, so this is the pair it
    held when it left. *)
Definition departed (c : LRU) : list (K * V) :=
  omap (kv_of c) (filter (λ el, el ∉ evictList c) (seq 0 (next c))).

End lru.

Arguments LRU K V {_ _}.
Arguments Cache K V {_ _}.
Arguments call K V : clear implicits.

(** *** Concrete runs, with string keys and numeric values *)

Definition three_adds : list (call string nat) :=
  [CAdd "a" 1%nat []; CAdd "b" 2%nat ["t"]; CAdd "c" 3%nat ["t"; "u"]].

Definition mixed_calls : list (call string nat) :=
  three_adds ++ [CGet "a"; CResize 2; CAdd "d" 4%nat ["u"]; CInvalidate ["t"];
                 CAdd "e" 5%nat []; CRemove "zz"; CRemoveOldest; CResize 7].

(** One entry in a cache of capacity 1. *)
Definition one_entry : LRU string nat := (Add "k" 1%nat [] (fresh 1 true)).1.

(** * Facts about the model *)

(** ** Integers *)

Lemma wrap_id (z : Z) : int_min ≤ z ≤ int_max → wrap z = z.
Proof.
  unfold wrap, int_min, int_max. intros Hz.
  rewrite Z.mod_small; lia.
Qed.

(** ** The element list *)

Lemma elem_of_list_Remove (e x : Element) (l : list Element) :
  x ∈ list_Remove e l ↔ x ∈ l ∧ x ≠ e.
Proof. unfold list_Remove. rewrite list_elem_of_filter. tauto. Qed.

Lemma NoDup_list_Remove (e : Element) (l : list Element) :
  NoDup l → NoDup (list_Remove e l).
Proof. apply NoDup_filter. Qed.

Lemma list_Remove_absent (e : Element) (l : list Element) :
  e ∉ l → list_Remove e l = l.
Proof.
  unfold list_Remove. induction l as [|x l IH]; intros Hn; [done|].
  rewrite not_elem_of_cons in Hn. destruct Hn as [Hne Hn].
  rewrite filter_cons_True by congruence. by rewrite IH.
Qed.

Lemma list_Remove_snoc (e : Element) (l : list Element) :
  NoDup (l ++ [e]) → list_Remove e (l ++ [e]) = l.
Proof.
  intros Hnd. apply NoDup_app in Hnd as (_ & Hdis & _).
  unfold list_Remove. rewrite filter_app, filter_cons_False, filter_nil by tauto.
  rewrite app_nil_r. apply list_Remove_absent.
  intros Hin. apply (Hdis e Hin). left.
Qed.

Lemma length_list_Remove (e : Element) (l : list Element) :
  NoDup l → e ∈ l → S (length (list_Remove e l)) = length l.
Proof.
  unfold list_Remove. induction l as [|x l IH]; intros Hnd Hin.
  - by apply elem_of_nil in Hin.
  - apply NoDup_cons in Hnd as [Hx Hnd].
    destruct (decide (x = e)) as [->|Hne].
    + rewrite filter_cons_False by tauto.
      fold (list_Remove e l). by rewrite list_Remove_absent.
    + rewrite filter_cons_True by done. simpl. f_equal.
      apply IH; [done|]. apply elem_of_cons in Hin as [?|?]; congruence.
Qed.

Lemma elem_of_list_MoveToFront (e x : Element) (l : list Element) :
  x ∈ list_MoveToFront e l ↔ x ∈ l.
Proof.
  unfold list_MoveToFront. repeat case_decide; try done.
  rewrite elem_of_cons, elem_of_list_Remove.
  destruct (decide (x = e)) as [->|]; intuition auto.
Qed.

Lemma NoDup_list_MoveToFront (e : Element) (l : list Element) :
  NoDup l → NoDup (list_MoveToFront e l).
Proof.
  intros Hnd. unfold list_MoveToFront. repeat case_decide; try done.
  apply NoDup_cons. split; [|by apply NoDup_list_Remove].
  rewrite elem_of_list_Remove. tauto.
Qed.

Lemma length_list_MoveToFront (e : Element) (l : list Element) :
  NoDup l → length (list_MoveToFront e l) = length l.
Proof.
  intros Hnd. unfold list_MoveToFront. repeat case_decide; try done.
  simpl. by apply length_list_Remove.
Qed.

(** ** The tag index *)

Lemma tag1_elem (el x : Element) (m : gmap string (gset Element)) (t t' : string) b :
  tag1 el m t !! t' = Some b → x ∈ b →
  x = el ∨ ∃ b', m !! t' = Some b' ∧ x ∈ b'.
Proof.
  unfold tag1. destruct (decide (t = t')) as [->|Hne].
  - rewrite lookup_insert_eq. intros [= <-] Hx.
    apply elem_of_union in Hx as [Hx|Hx]; [left; set_solver|].
    destruct (m !! t') as [b'|] eqn:Hm.
    + rewrite lookup_total_alt, Hm in Hx. right. eauto.
    + rewrite lookup_total_insert_eq in Hx. set_solver.
  - rewrite lookup_insert_ne by done.
    destruct (m !! t) eqn:Hm; [|rewrite lookup_insert_ne by done]; eauto.
Qed.

Lemma untag1_elem (el x : Element) (m : gmap string (gset Element)) (t t' : string) b :
  untag1 el m t !! t' = Some b → x ∈ b →
  ∃ b', m !! t' = Some b' ∧ x ∈ b'.
Proof.
  unfold untag1.
  assert (Hm1 : ∀ b1, (match m !! t with
                       | Some b0 => <[t := b0 ∖ {[el]}]> m
                       | None => m end) !! t' = Some b1 → x ∈ b1 →
                      ∃ b', m !! t' = Some b' ∧ x ∈ b').
  { intros b1. destruct (m !! t) as [b0|] eqn:Hm; [|eauto].
    destruct (decide (t = t')) as [->|Hne].
    - rewrite lookup_insert_eq. intros [= <-] Hx.
      apply elem_of_difference in Hx as [Hx _]. eauto.
    - rewrite lookup_insert_ne by done. eauto. }
  case_decide.
  - destruct (decide (t = t')) as [->|Hne].
    + by rewrite lookup_delete_eq.
    + rewrite lookup_delete_ne by done. apply Hm1.
  - apply Hm1.
Qed.

Lemma foldl_tag1_elem (el x : Element) ts (m : gmap string (gset Element)) t' b :
  foldl (tag1 el) m ts !! t' = Some b → x ∈ b →
  x = el ∨ ∃ b', m !! t' = Some b' ∧ x ∈ b'.
Proof.
  revert m b. induction ts as [|t ts IH]; intros m b; simpl; [eauto|].
  intros Hl Hx. destruct (IH _ _ Hl Hx) as [?|(b' & Hb' & Hx')]; [by left|].
  eapply tag1_elem; eauto.
Qed.

Lemma foldl_untag1_elem (el x : Element) ts (m : gmap string (gset Element)) t' b :
  foldl (untag1 el) m ts !! t' = Some b → x ∈ b →
  ∃ b', m !! t' = Some b' ∧ x ∈ b'.
Proof.
  revert m b. induction ts as [|t ts IH]; intros m b; simpl; [eauto|].
  intros Hl Hx. destruct (IH _ _ Hl Hx) as (b' & Hb' & Hx').
  eapply untag1_elem; eauto.
Qed.

(** The contents of a bucket after [tag] and [untag] *)

Lemma tag1_total (el : Element) (m : gmap string (gset Element)) (t0 t : string) :
  tag1 el m t0 !!! t = if decide (t = t0) then {[el]} ∪ m !!! t0 else m !!! t.
Proof.
  unfold tag1. case_decide as Ht.
  - subst t. rewrite lookup_total_insert_eq. f_equal.
    destruct (m !! t0) as [b|] eqn:Hm; [done|].
    by rewrite lookup_total_insert_eq, lookup_total_alt, Hm.
  - rewrite lookup_total_insert_ne by done.
    destruct (m !! t0); [done|]. by rewrite lookup_total_insert_ne.
Qed.

Lemma untag1_total (el : Element) (m : gmap string (gset Element)) (t0 t : string) :
  untag1 el m t0 !!! t = if decide (t = t0) then m !!! t0 ∖ {[el]} else m !!! t.
Proof.
  unfold untag1.
  set (m1 := match m !! t0 with Some b => <[t0:=b ∖ {[el]}]> m | None => m end).
  assert (H0 : m1 !!! t0 = m !!! t0 ∖ {[el]}).
  { unfold m1. destruct (m !! t0) as [b|] eqn:Hm.
    - by rewrite lookup_total_insert_eq, (lookup_total_correct _ _ _ Hm).
    - rewrite lookup_total_alt, Hm. simpl. apply set_eq. intros x.
      rewrite elem_of_difference. split; [|tauto].
      intros Hx. by apply not_elem_of_empty in Hx. }
  assert (Hne : t ≠ t0 → m1 !!! t = m !!! t).
  { intros Ht. unfold m1. destruct (m !! t0); [|done].
    by rewrite lookup_total_insert_ne. }
  case_decide as Hsz; case_decide as Ht; subst.
  - rewrite lookup_total_delete_eq. apply size_empty_inv in Hsz.
    apply leibniz_equiv in Hsz. by rewrite <- H0, Hsz.
  - rewrite lookup_total_delete_ne by done. by apply Hne.
  - done.
  - by apply Hne.
Qed.

Lemma foldl_tag1_total (el : Element) ts (m : gmap string (gset Element)) (t : string) :
  foldl (tag1 el) m ts !!! t = if decide (t ∈ ts) then {[el]} ∪ m !!! t else m !!! t.
Proof.
  revert m. induction ts as [|t0 ts IH]; intros m; [done|].
  cbn [foldl]. rewrite IH, tag1_total.
  destruct (decide (t ∈ ts)) as [Hin|Hnin], (decide (t ∈ t0 :: ts)) as [Hc|Hc],
           (decide (t = t0)) as [->|Hne];
    try done; try (destruct Hc; by (left || right)).
  - apply set_eq. intros x. rewrite !elem_of_union. tauto.
  - apply elem_of_cons in Hc as [?|?]; done.
Qed.

Lemma foldl_untag1_total (el : Element) ts (m : gmap string (gset Element)) (t : string) :
  foldl (untag1 el) m ts !!! t = if decide (t ∈ ts) then m !!! t ∖ {[el]} else m !!! t.
Proof.
  revert m. induction ts as [|t0 ts IH]; intros m; [done|].
  cbn [foldl]. rewrite IH, untag1_total.
  destruct (decide (t ∈ ts)) as [Hin|Hnin], (decide (t ∈ t0 :: ts)) as [Hc|Hc],
           (decide (t = t0)) as [->|Hne];
    try done; try (destruct Hc; by (left || right)).
  - apply set_eq. intros x. rewrite !elem_of_difference. tauto.
  - apply elem_of_cons in Hc as [?|?]; done.
Qed.

(** Buckets of one element *)

Lemma list_Remove_head (e : Element) (l : list Element) :
  e ∉ l → list_Remove e (e :: l) = l.
Proof.
  intros Hn. unfold list_Remove. rewrite filter_cons_False by tauto.
  by apply list_Remove_absent.
Qed.

Lemma tag1_new (el : Element) (m : gmap string (gset Element)) (t : string) :
  m !! t = None → tag1 el m t = <[t := {[el]}]> m.
Proof.
  intros Hm. unfold tag1. rewrite Hm, lookup_total_insert_eq, insert_insert_eq.
  by rewrite (right_id_L ∅ (∪)).
Qed.

Lemma tag1_again (el : Element) (m : gmap string (gset Element)) (t : string) :
  m !! t = Some {[el]} → tag1 el m t = m.
Proof.
  intros Hm. unfold tag1. rewrite Hm, (lookup_total_correct _ _ _ Hm).
  rewrite (idemp_L (∪)). by apply insert_id.
Qed.

Lemma untag1_last (el : Element) (m : gmap string (gset Element)) (t : string) :
  m !! t = Some {[el]} → untag1 el m t = delete t m.
Proof.
  intros Hm. unfold untag1. rewrite Hm, lookup_total_insert_eq.
  rewrite difference_diag_L, size_empty, decide_True by done.
  apply delete_insert_eq.
Qed.

Lemma untag1_missing (el : Element) (m : gmap string (gset Element)) (t : string) :
  m !! t = None → untag1 el m t = m.
Proof.
  intros Hm. unfold untag1. rewrite Hm.
  assert (Hz : m !!! t = (∅ : gset Element)) by by rewrite lookup_total_alt, Hm.
  rewrite Hz, size_empty, decide_True by done. by apply delete_id.
Qed.

(** Tagging a new element with two tags whose buckets do not exist yet
    creates them; untagging it again restores the index. *)
Lemma tag_untag_two (el : Element) (m : gmap string (gset Element)) (t1 t2 : string) :
  m !! t1 = None → m !! t2 = None →
  foldl (tag1 el) m [t1; t2] !! t1 = Some {[el]} ∧
  foldl (untag1 el) (foldl (tag1 el) m [t1; t2]) [t1; t2] = m.
Proof.
  intros H1 H2. simpl. rewrite (tag1_new el m t1) by done.
  destruct (decide (t1 = t2)) as [<-|Hne].
  - rewrite tag1_again by apply lookup_insert_eq.
    rewrite lookup_insert_eq. split; [done|].
    rewrite (untag1_last el (<[t1:={[el]}]> m)) by apply lookup_insert_eq.
    rewrite delete_insert_id by done. by apply untag1_missing.
  - rewrite tag1_new by by rewrite lookup_insert_ne.
    rewrite lookup_insert_ne, lookup_insert_eq by done. split; [done|].
    rewrite (untag1_last el (<[t2:={[el]}]> (<[t1:={[el]}]> m)) t1)
      by by rewrite lookup_insert_ne, lookup_insert_eq.
    rewrite delete_insert_ne, delete_insert_id by done.
    rewrite untag1_last by apply lookup_insert_eq.
    by apply delete_insert_id.
Qed.

(** ** What each operation does to each field *)

Section lru_facts.
Context {K V : Type} `{Countable K}.
Implicit Types (c : LRU K V) (el : Element) (k : K) (v : V) (ts : list string).

Lemma fire_fields k v c :
  size (fire k v c) = size c ∧ evictList (fire k v c) = evictList c ∧
  items (fire k v c) = items c ∧ tags (fire k v c) = tags c ∧
  onEvict (fire k v c) = onEvict c ∧ heap (fire k v c) = heap c ∧
  next (fire k v c) = next c.
Proof. unfold fire. destruct (onEvict c) eqn:Hcb; simpl; by rewrite ?Hcb. Qed.

Lemma removeElement_evictList el c :
  evictList (removeElement el c) = list_Remove el (evictList c).
Proof.
  unfold removeElement; simpl. destruct (heap c !! el); [|done].
  unfold fire; simpl. destruct (onEvict c) eqn:Hcb; simpl; by rewrite ?Hcb.
Qed.

Lemma removeElement_frame el c :
  size (removeElement el c) = size c ∧ onEvict (removeElement el c) = onEvict c ∧
  heap (removeElement el c) = heap c ∧ next (removeElement el c) = next c.
Proof.
  unfold removeElement; simpl. destruct (heap c !! el); [|done].
  unfold fire; simpl. destruct (onEvict c) eqn:Hcb; simpl; by rewrite ?Hcb.
Qed.

Lemma removeElement_items el c :
  items (removeElement el c) =
  match heap c !! el with
  | Some ent => delete (Entry.key ent) (items c)
  | None => items c
  end.
Proof.
  unfold removeElement; simpl. destruct (heap c !! el); [|done].
  unfold fire; simpl. destruct (onEvict c) eqn:Hcb; simpl; by rewrite ?Hcb.
Qed.

Lemma removeElement_tags el c :
  tags (removeElement el c) =
  match heap c !! el with
  | Some ent => foldl (untag1 el) (tags c) (Entry.tags ent)
  | None => tags c
  end.
Proof.
  unfold removeElement; simpl. destruct (heap c !! el); [|done].
  unfold fire; simpl. destruct (onEvict c) eqn:Hcb; simpl; by rewrite ?Hcb.
Qed.

Lemma removeElement_evicted el c :
  evicted (removeElement el c) =
  match heap c !! el with
  | Some ent => if onEvict c then evicted c ++ [(Entry.key ent, Entry.value ent)]
                else evicted c
  | None => evicted c
  end.
Proof.
  unfold removeElement; simpl. destruct (heap c !! el); [|done].
  unfold fire; simpl. destruct (onEvict c) eqn:Hcb; simpl; by rewrite ?Hcb.
Qed.

(** ** Well-formedness is kept by every operation *)

Lemma wf_fresh sz cb : wf (fresh sz cb : LRU K V).
Proof.
  split; simpl.
  - constructor.
  - intros el Hel. by apply elem_of_nil in Hel.
  - intros el Hel. lia.
  - intros k el Hk. by rewrite lookup_empty in Hk.
  - intros t b el Ht. by rewrite lookup_empty in Ht.
Qed.

Lemma wf_removeElement el c : wf c → wf (removeElement el c).
Proof.
  intros [Hnd Hl Hh Hi Ht].
  destruct (removeElement_frame el c) as (_ & _ & Hheap & Hnext).
  split; rewrite ?removeElement_evictList, ?Hheap, ?Hnext.
  - by apply NoDup_list_Remove.
  - intros x Hx. apply elem_of_list_Remove in Hx as [Hx _]. auto.
  - done.
  - intros k x. rewrite removeElement_items.
    destruct (heap c !! el) as [ent|] eqn:Hel.
    + intros Hk. apply lookup_delete_Some in Hk as [Hne Hk].
      destruct (Hi _ _ Hk) as (Hx & ent' & Hent' & Hkey).
      split; [|eauto]. apply elem_of_list_Remove. split; [done|].
      intros ->. congruence.
    + intros Hk. destruct (Hi _ _ Hk) as (Hx & ent' & Hent' & Hkey).
      split; [|eauto]. apply elem_of_list_Remove. split; [done|].
      intros ->. congruence.
  - intros t b x. rewrite removeElement_tags.
    destruct (heap c !! el) as [ent|]; [|by eauto].
    intros Hb Hx. destruct (foldl_untag1_elem _ _ _ _ _ _ Hb Hx) as (b' & Hb' & Hx').
    eauto.
Qed.

Lemma wf_removeOldest c : wf c → wf (removeOldest c).
Proof.
  unfold removeOldest. destruct (list_Back _); [apply wf_removeElement|done].
Qed.

Lemma wf_iter_removeOldest n c : wf c → wf (Nat.iter n removeOldest c).
Proof. induction n; simpl; auto using wf_removeOldest. Qed.

Lemma wf_set_size sz c : wf c → wf (set_size sz c).
Proof. by intros []. Qed.

Lemma wf_move el c :
  wf c → wf (set_evictList (list_MoveToFront el (evictList c)) c).
Proof.
  intros [Hnd Hl Hh Hi Ht]. split; simpl; try done.
  - by apply NoDup_list_MoveToFront.
  - intros x Hx. apply elem_of_list_MoveToFront in Hx. auto.
  - intros k x Hk. rewrite elem_of_list_MoveToFront. auto.
Qed.

Lemma wf_pushed k v ts c :
  wf c →
  wf (mkLRU (size c) (next c :: evictList c) (<[k := next c]> (items c))
            (foldl (tag1 (next c)) (tags c) ts) (onEvict c)
            (<[next c := Entry.mk k v ts]> (heap c)) (S (next c)) (evicted c)).
Proof.
  intros [Hnd Hl Hh Hi Ht]. split; simpl.
  - apply NoDup_cons. split; [|done]. intros Hin. apply Hl in Hin. lia.
  - intros x Hx. apply elem_of_cons in Hx as [->|Hx]; [lia|].
    apply Hl in Hx. lia.
  - intros x Hx. destruct (decide (x = next c)) as [->|Hne].
    + rewrite lookup_insert_eq. eauto.
    + rewrite lookup_insert_ne by done. apply Hh. lia.
  - intros k' x. destruct (decide (k' = k)) as [->|Hne].
    + rewrite lookup_insert_eq. intros [= <-]. split; [left|].
      rewrite lookup_insert_eq. eauto.
    + rewrite lookup_insert_ne by done.
      intros Hk'. destruct (Hi _ _ Hk') as (Hx & ent' & Hent' & Hkey').
      split; [by right|]. apply Hl in Hx.
      rewrite lookup_insert_ne by lia. eauto.
  - intros t b x Hb Hx.
    destruct (foldl_tag1_elem _ _ _ _ _ _ Hb Hx) as [->|(b' & Hb' & Hx')]; [lia|].
    specialize (Ht _ _ _ Hb' Hx'). lia.
Qed.

Lemma wf_Add k v ts c : wf c → wf (Add k v ts c).1.
Proof.
  intros Hwf. unfold Add. destruct (items c !! k) as [el|] eqn:Hk; simpl.
  - destruct Hwf as [Hnd Hl Hh Hi Ht].
    destruct (Hi _ _ Hk) as (Hel & ent & Hent & Hkey).
    split; simpl.
    + by apply NoDup_list_MoveToFront.
    + intros x Hx. apply elem_of_list_MoveToFront in Hx. auto.
    + intros x Hx. rewrite lookup_alter. case_decide; [|by auto].
      apply fmap_is_Some. auto.
    + intros k' x Hk'. rewrite elem_of_list_MoveToFront.
      destruct (Hi _ _ Hk') as (Hx & ent' & Hent' & Hkey'). split; [done|].
      rewrite lookup_alter. case_decide as Hc; [|by eauto].
      subst x. rewrite Hent'. simpl. eauto.
    + intros t b x Hb Hx.
      destruct (foldl_tag1_elem _ _ _ _ _ _ Hb Hx) as [->|(b' & Hb' & Hx')]; [by auto|].
      destruct (foldl_untag1_elem _ _ _ _ _ _ Hb' Hx') as (b'' & Hb'' & Hx'').
      eauto.
  - case_bool_decide; [apply wf_removeOldest|]; exact (wf_pushed k v ts c Hwf).
Qed.

Lemma wf_Get k c : wf c → wf (Get k c).1.
Proof.
  intros Hwf. unfold Get. destruct (items c !! k); simpl; [by apply wf_move|done].
Qed.

Lemma wf_Remove k c : wf c → wf (Remove k c).1.
Proof.
  intros Hwf. unfold Remove.
  destruct (items c !! k); simpl; [by apply wf_removeElement|done].
Qed.

Lemma wf_RemoveOldest c : wf c → wf (RemoveOldest c).1.
Proof.
  intros Hwf. unfold RemoveOldest.
  destruct (list_Back _); simpl; [by apply wf_removeElement|done].
Qed.

Lemma wf_Resize sz c : wf c → wf (Resize sz c).1.
Proof.
  intros Hwf. unfold Resize; simpl.
  by apply wf_set_size, wf_iter_removeOldest.
Qed.

Lemma wf_foldl_removeElement els c (n : Z) :
  wf c →
  wf (foldl (λ '(c, removed) el, (removeElement el c, removed + 1)) (c, n) els).1.
Proof.
  revert c n. induction els as [|el els IH]; intros c n Hwf; simpl; [done|].
  apply IH. by apply wf_removeElement.
Qed.

Lemma wf_Invalidate ts c : wf c → wf (Invalidate ts c).1.
Proof.
  unfold Invalidate. generalize 0. revert c.
  induction ts as [|t ts IH]; intros c n Hwf; simpl; [done|].
  destruct (tags c !! t) as [els|]; [|by apply IH].
  pose proof (wf_foldl_removeElement (elements els) c n Hwf) as Hwf'.
  destruct (foldl _ (c, n) (elements els)) as [c' n']. by apply IH.
Qed.

(** [Purge] empties the key index: its loop deletes every key it ranges
    over. *)
Lemma foldl_delete_lookup (l : list (K * Element)) (m : gmap K Element) k :
  foldl (λ m kv, delete kv.1 m) m l !! k =
  if decide (k ∈ l.*1) then None else m !! k.
Proof.
  revert m. induction l as [|[k' e] l IH]; intros m.
  - done.
  - rewrite fmap_cons. cbn [foldl fst]. rewrite IH.
    destruct (decide (k ∈ l.*1)) as [Hin|Hnin],
             (decide (k ∈ k' :: l.*1)) as [Hin'|Hnin']; try done.
    + destruct Hnin'. by right.
    + apply elem_of_cons in Hin' as [->|?]; [|done]. apply lookup_delete_eq.
    + apply lookup_delete_ne. intros ->. apply Hnin'. left.
Qed.

Lemma Purge_loop_fields (l : list (K * Element)) c :
  let c' := foldl (λ c '(k, el),
                     let c' := match heap c !! el with
                               | Some ent => fire k (Entry.value ent) c
                               | None => c
                               end in
                     set_items (delete k (items c')) c') c l in
  size c' = size c ∧ heap c' = heap c ∧ next c' = next c ∧
  onEvict c' = onEvict c ∧
  items c' = foldl (λ m kv, delete kv.1 m) (items c) l.
Proof.
  revert c. induction l as [|[k el] l IH]; intros c; simpl; [done|].
  match goal with |- context [foldl _ ?c1 l] => specialize (IH c1) end.
  simpl in IH. destruct IH as (-> & -> & -> & -> & ->). simpl.
  destruct (heap c !! el) as [ent|]; [|done].
  by destruct (fire_fields k (Entry.value ent) c) as (-> & _ & -> & _ & -> & -> & ->).
Qed.

Lemma Purge_fields c :
  size (Purge c) = size c ∧ evictList (Purge c) = [] ∧ items (Purge c) = ∅ ∧
  tags (Purge c) = ∅ ∧ onEvict (Purge c) = onEvict c ∧
  heap (Purge c) = heap c ∧ next (Purge c) = next c.
Proof.
  unfold Purge.
  pose proof (Purge_loop_fields (map_to_list (items c)) c) as Hf. cbv zeta in Hf.
  set (c1 := foldl _ c _) in *. destruct Hf as (Hs & Hh & Hn & Hcb & Hi). simpl.
  rewrite Hs, Hh, Hn, Hcb, Hi. clear c1 Hs Hh Hn Hcb Hi.
  repeat split. apply map_eq. intros k.
  rewrite foldl_delete_lookup, lookup_empty. case_decide as Hk; [done|].
  destruct (items c !! k) as [el|] eqn:Hl; [|done].
  destruct Hk. apply list_elem_of_fmap. exists (k, el). split; [done|].
  by apply elem_of_map_to_list.
Qed.

Lemma wf_Purge c : wf c → wf (Purge c).
Proof.
  intros [Hnd Hl Hh Hi Ht].
  destruct (Purge_fields c) as (_ & Hl' & Hi' & Ht' & _ & Hh' & Hn').
  split; rewrite ?Hl', ?Hi', ?Ht', ?Hh', ?Hn'.
  - constructor.
  - intros el Hel. by apply elem_of_nil in Hel.
  - done.
  - intros k el Hk. by rewrite lookup_empty in Hk.
  - intros t b el Hb. by rewrite lookup_empty in Hb.
Qed.

Lemma wf_step c (o : call K V) : wf c → wf (step c o).
Proof.
  intros Hwf. destruct o; simpl; try done.
  - by apply wf_Add.
  - by apply wf_Get.
  - by apply wf_Remove.
  - by apply wf_RemoveOldest.
  - by apply wf_Resize.
  - by apply wf_Invalidate.
  - by apply wf_Purge.
Qed.

Lemma wf_run (os : list (call K V)) c : wf c → wf (run os c).
Proof.
  unfold run. revert c. induction os as [|o os IH]; intros c Hwf; simpl; [done|].
  by apply IH, wf_step.
Qed.

(** Every element the cache can reach is allocated: the [None] branches
    of the model on [heap c !! el] are never taken from a state that a
    fresh cache reaches. *)
Lemma refs_alloc c el :
  wf c →
  el ∈ evictList c ∨ (∃ k, items c !! k = Some el) ∨
    (∃ t b, tags c !! t = Some b ∧ el ∈ b) →
  is_Some (heap c !! el).
Proof.
  intros [Hnd Hl Hh Hi Ht] [Hin|[[k Hk]|(t & b & Hb & Hin)]].
  - auto.
  - destruct (Hi _ _ Hk) as (_ & ent & -> & _). eauto.
  - eauto.
Qed.
(** ** Unfolding equations *)

Lemma Add_miss k v ts c :
  items c !! k = None →
  Add k v ts c =
    let c3 := set_items (<[k := next c]> (items c))
                (tag (next c) ts (PushFront (Entry.mk k v ts) c).2) in
    (if bool_decide (Len c3 > size c3) then removeOldest c3 else c3,
     bool_decide (Len c3 > size c3)).
Proof. intros Hk. unfold Add. by rewrite Hk. Qed.

Lemma Add_hit k v ts c el :
  items c !! k = Some el →
  Add k v ts c =
    (tag el ts
       (set_heap (alter (λ e, Entry.mk (Entry.key e) v ts) el (heap c))
          (untag el ts (set_evictList (list_MoveToFront el (evictList c)) c))),
     false).
Proof. intros Hk. unfold Add. by rewrite Hk. Qed.

Lemma Invalidate_bucket t c els :
  tags c !! t = Some els →
  Invalidate [t] c =
  foldl (λ '(c, removed) el, (removeElement el c, removed + 1)) (c, 0) (elements els).
Proof. intros Ht. unfold Invalidate. simpl. by rewrite Ht. Qed.

Lemma removeElement_eq el c ent :
  heap c !! el = Some ent →
  removeElement el c =
  mkLRU (size c) (list_Remove el (evictList c)) (delete (Entry.key ent) (items c))
        (foldl (untag1 el) (tags c) (Entry.tags ent)) (onEvict c) (heap c) (next c)
        (if onEvict c then evicted c ++ [(Entry.key ent, Entry.value ent)]
         else evicted c).
Proof.
  destruct c as [sz l it tg cb hp nx ev]. simpl. intros Hel.
  unfold removeElement. simpl. rewrite Hel. unfold fire. simpl. by destruct cb.
Qed.

Lemma removeOldest_snoc c l el ent :
  NoDup (evictList c) → evictList c = l ++ [el] → heap c !! el = Some ent →
  removeOldest c =
  mkLRU (size c) l (delete (Entry.key ent) (items c))
        (foldl (untag1 el) (tags c) (Entry.tags ent)) (onEvict c) (heap c) (next c)
        (if onEvict c then evicted c ++ [(Entry.key ent, Entry.value ent)]
         else evicted c).
Proof.
  intros Hnd Hl Hel. unfold removeOldest, list_Back.
  rewrite Hl, last_snoc, (removeElement_eq _ _ ent) by done.
  rewrite Hl in Hnd |- *. by rewrite list_Remove_snoc.
Qed.

Lemma removeOldest_empty c : evictList c = [] → removeOldest c = c.
Proof. intros Hl. unfold removeOldest. by rewrite Hl. Qed.

(** [n] rounds of [removeOldest] drop the [n] back-most elements and fire
    the callback for each, the oldest first. *)
Lemma iter_removeOldest (n : nat) c :
  wf c → (n ≤ length (evictList c))%nat →
  let m := (length (evictList c) - n)%nat in
  let c' := Nat.iter n removeOldest c in
  evictList c' = take m (evictList c) ∧
  evicted c' = evicted c ++
    (if onEvict c then omap (kv_of c) (reverse (drop m (evictList c))) else []) ∧
  size c' = size c ∧ onEvict c' = onEvict c ∧ heap c' = heap c ∧ next c' = next c.
Proof.
  intros Hwf. induction n as [|n IH]; intros Hn; cbv zeta.
  - simpl. rewrite Nat.sub_0_r, firstn_all, drop_all.
    destruct (onEvict c); by rewrite app_nil_r.
  - specialize (IH ltac:(lia)). cbv zeta in IH.
    destruct IH as (Hl & Hev & Hsz & Hcb & Hhp & Hnx).
    pose proof (wf_iter_removeOldest n c Hwf) as Hwf'.
    simpl. set (c1 := Nat.iter n removeOldest c) in *.
    set (L := length (evictList c)) in *.
    destruct (lookup_lt_is_Some_2 (evictList c) (L - S n)) as [x Hx]; [lia|].
    assert (Hl1 : evictList c1 = take (L - S n) (evictList c) ++ [x]).
    { rewrite Hl. replace (L - n)%nat with (S (L - S n)) by lia.
      by apply take_S_r. }
    destruct (wf_heap c Hwf x) as [ent Hent].
    { apply (wf_list c Hwf). by eapply list_elem_of_lookup_2. }
    rewrite (removeOldest_snoc c1 (take (L - S n) (evictList c)) x ent);
      [|apply Hwf'|done|by rewrite Hhp].
    simpl. rewrite Hcb, Hev, Hsz, Hhp, Hnx. repeat split.
    destruct (onEvict c); [|done].
    rewrite <- app_assoc. f_equal.
    replace (L - n)%nat with (S (L - S n)) by lia.
    rewrite (drop_S _ x (L - S n)) by done.
    rewrite reverse_cons, omap_app. f_equal.
    cbn [omap list_omap]. unfold kv_of at 1. by rewrite Hent.
Qed.
(** ** Resize and Add, step by step *)

(** Callbacks are fired for allocated elements only, so none is skipped. *)
Lemma length_kvs c (els : list Element) :
  wf c → (∀ el, el ∈ els → el ∈ evictList c) →
  length (omap (kv_of c) els) = length els.
Proof.
  intros Hwf. induction els as [|el els IH]; intros Hsub; [done|].
  destruct (wf_heap c Hwf el) as [ent Hent].
  { apply (wf_list c Hwf), Hsub. left. }
  cbn [omap list_omap]. unfold kv_of at 1. rewrite Hent. simpl.
  f_equal. apply IH. intros x Hx. apply Hsub. by right.
Qed.

Lemma iter_removeOldest_empty (n : nat) c :
  evictList c = [] → Nat.iter n removeOldest c = c.
Proof.
  intros Hl. induction n as [|n IH]; simpl; [done|].
  rewrite IH. by apply removeOldest_empty.
Qed.

Lemma wf_empty_items c : wf c → evictList c = [] → items c = ∅.
Proof.
  intros Hwf Hl. apply map_eq. intros k. rewrite lookup_empty.
  destruct (items c !! k) as [el|] eqn:Hk; [|done].
  destruct (wf_items c Hwf k el Hk) as [Hin _].
  rewrite Hl in Hin. by apply elem_of_nil in Hin.
Qed.

Lemma Resize_shrink (s : Z) c :
  wf c → 0 ≤ s < Len c → Len c ≤ int_max →
  let r := Resize s c in
  r.2 = Len c - s ∧ size r.1 = s ∧
  evictList r.1 = take (Z.to_nat s) (evictList c) ∧
  evicted r.1 = evicted c ++
    (if onEvict c
     then omap (kv_of c) (reverse (drop (Z.to_nat s) (evictList c))) else []) ∧
  onEvict r.1 = onEvict c ∧ heap r.1 = heap c ∧ next r.1 = next c.
Proof.
  intros Hwf Hs Hmax. unfold Resize, Len in *. cbv zeta.
  rewrite wrap_id by (unfold int_min, int_max in *; lia).
  rewrite decide_False by lia. cbn [fst snd].
  set (L := length (evictList c)) in *.
  destruct (iter_removeOldest (Z.to_nat (Z.of_nat L - s)) c Hwf)
    as (Hl & Hev & Hsz & Hcb & Hhp & Hnx); [fold L; lia|].
  fold L in Hl, Hev.
  replace (L - Z.to_nat (Z.of_nat L - s))%nat with (Z.to_nat s) in * by lia.
  by simpl.
Qed.

Lemma Resize_grow (s : Z) c :
  Len c ≤ s ≤ int_max → Resize s c = (set_size s c, 0).
Proof.
  intros Hs. unfold Resize, Len in *. cbv zeta.
  rewrite wrap_id by (unfold int_min, int_max in *; lia).
  case_decide.
  - done.
  - replace (Z.of_nat (length (evictList c)) - s) with 0 by lia. done.
Qed.

(** Below zero the loop runs more rounds than there are elements: all are
    evicted and the result is the number of rounds. *)
Lemma Resize_nonpos (s : Z) c :
  wf c → s ≤ 0 → Len c - s ≤ int_max →
  let r := Resize s c in
  r.2 = Len c - s ∧ size r.1 = s ∧ evictList r.1 = [] ∧ items r.1 = ∅ ∧
  evicted r.1 = evicted c ++
    (if onEvict c then omap (kv_of c) (reverse (evictList c)) else []) ∧
  onEvict r.1 = onEvict c ∧ wf r.1.
Proof.
  intros Hwf Hs Hmax. pose proof (wf_Resize s c Hwf) as Hwf'. revert Hwf'.
  unfold Resize, Len in *. cbv zeta.
  rewrite wrap_id by (unfold int_min, int_max in *; lia).
  rewrite decide_False by lia. cbn [fst snd].
  set (L := length (evictList c)) in *.
  replace (Z.to_nat (Z.of_nat L - s)) with (Z.to_nat (- s) + L)%nat by lia.
  rewrite Nat.iter_add.
  destruct (iter_removeOldest L c Hwf) as (Hl & Hev & Hsz & Hcb & Hhp & Hnx); [done|].
  fold L in Hl, Hev. rewrite Nat.sub_diag, take_0 in Hl. rewrite Nat.sub_diag, drop_0 in Hev.
  rewrite iter_removeOldest_empty by done. intros Hwf'. simpl.
  split_and!; try done.
  by apply (wf_empty_items _ Hwf').
Qed.

(** The state [Add] builds for a new key before it looks at the size. *)
Lemma Add_miss_fits k v ts c :
  items c !! k = None → Len c + 1 ≤ size c →
  Add k v ts c =
  (mkLRU (size c) (next c :: evictList c) (<[k := next c]> (items c))
         (foldl (tag1 (next c)) (tags c) ts) (onEvict c)
         (<[next c := Entry.mk k v ts]> (heap c)) (S (next c)) (evicted c),
   false).
Proof.
  intros Hk Hfit. rewrite Add_miss by done. cbv zeta.
  rewrite bool_decide_eq_false_2; [done|].
  unfold Len in *. simpl. lia.
Qed.

Lemma Add_miss_evicts k v ts c :
  items c !! k = None → Len c + 1 > size c →
  Add k v ts c =
  (removeOldest
     (mkLRU (size c) (next c :: evictList c) (<[k := next c]> (items c))
            (foldl (tag1 (next c)) (tags c) ts) (onEvict c)
            (<[next c := Entry.mk k v ts]> (heap c)) (S (next c)) (evicted c)),
   true).
Proof.
  intros Hk Hfit. rewrite Add_miss by done. cbv zeta.
  rewrite bool_decide_eq_true_2; [done|].
  unfold Len in *. simpl. lia.
Qed.

Lemma Adds_snoc (l : list (K * V * list string)) k v ts c :
  Adds (l ++ [(k, v, ts)]) c =
  ((Add k v ts (Adds l c).1).1, (Adds l c).2 ++ [(Add k v ts (Adds l c).1).2]).
Proof.
  unfold Adds. rewrite foldl_snoc.
  destruct (foldl _ (c, []) l) as [c' rs]. simpl.
  by destruct (Add k v ts c').
Qed.

(** With the capacity at or below zero and the list empty, an [Add] evicts
    what it has just pushed. *)
Lemma Add_at_nonpos k v ts c :
  wf c → evictList c = [] → size c ≤ 0 →
  let r := Add k v ts c in
  r.2 = true ∧ evictList r.1 = [] ∧ items r.1 = ∅ ∧ size r.1 = size c ∧
  onEvict r.1 = onEvict c ∧
  evicted r.1 = evicted c ++ (if onEvict c then [(k, v)] else []) ∧ wf r.1.
Proof.
  intros Hwf Hl Hsz. pose proof (wf_Add k v ts c Hwf) as Hwf'. revert Hwf'.
  pose proof (wf_empty_items c Hwf Hl) as Hi.
  rewrite Add_miss_evicts; [|by rewrite Hi, lookup_empty|unfold Len; rewrite Hl; simpl; lia].
  rewrite (removeOldest_snoc _ [] (next c) (Entry.mk k v ts)); simpl.
  - intros Hwf'. rewrite Hi, delete_insert_eq, delete_empty in Hwf' |- *.
    split_and!; try done. destruct (onEvict c); [done|by rewrite app_nil_r].
  - rewrite Hl. apply NoDup_singleton.
  - by rewrite Hl.
  - apply lookup_insert_eq.
Qed.

Lemma Adds_at_nonpos (adds : list (K * V * list string)) c :
  wf c → evictList c = [] → size c ≤ 0 →
  let r := Adds adds c in
  r.2 = replicate (length adds) true ∧ evictList r.1 = [] ∧ items r.1 = ∅ ∧
  size r.1 = size c ∧ onEvict r.1 = onEvict c ∧
  evicted r.1 = evicted c ++
    (if onEvict c then (λ a, (a.1.1, a.1.2)) <$> adds else []) ∧
  wf r.1.
Proof.
  intros Hwf Hl Hsz. cbv zeta.
  induction adds as [|[[k v] ts] adds IH] using rev_ind.
  - simpl. split_and!; try done.
    + by apply wf_empty_items.
    + destruct (onEvict c); by rewrite app_nil_r.
  - destruct IH as (Hr & Hl' & Hi' & Hsz' & Hcb' & Hev' & Hwf').
    rewrite Adds_snoc. cbn [fst snd].
    destruct (Add_at_nonpos k v ts (Adds adds c).1 Hwf' Hl') as
      (Hr2 & Hl2 & Hi2 & Hsz2 & Hcb2 & Hev2 & Hwf2); [lia|].
    rewrite Hr2, Hl2, Hi2, Hsz2, Hcb2, Hev2, Hr, Hsz', Hcb', Hev'.
    rewrite length_app, Nat.add_1_r, replicate_S_end. simpl.
    split_and!; try done.
    destruct (onEvict c).
    + by rewrite fmap_app, app_assoc.
    + by rewrite !app_nil_r.
Qed.
(** ** Runs of distinct keys *)

(** Distinct keys that fit: the i-th call allocates element [i] and pushes
    it on the front; nothing is evicted. *)
Lemma Adds_distinct_fill (adds : list (K * V * list string)) (sz : Z) (cb : bool) :
  NoDup adds.*1.*1 → Z.of_nat (length adds) ≤ sz →
  let r := Adds adds (fresh sz cb) in
  r.2 = replicate (length adds) false ∧
  evictList r.1 = reverse (seq 0 (length adds)) ∧ next r.1 = length adds ∧
  evicted r.1 = [] ∧ size r.1 = sz ∧ onEvict r.1 = cb ∧
  (∀ (i : nat) k v ts, adds !! i = Some (k, v, ts) →
     heap r.1 !! i = Some (Entry.mk k v ts) ∧ items r.1 !! k = Some i) ∧
  (∀ k, k ∉ adds.*1.*1 → items r.1 !! k = None).
Proof.
  cbv zeta. induction adds as [|[[k v] ts] adds IH] using rev_ind; intros Hnd Hlen.
  - simpl. by split_and!.
  - rewrite !fmap_app in Hnd. simpl in Hnd.
    apply NoDup_app in Hnd as (Hnd & Hk & _).
    assert (Hk' : k ∉ adds.*1.*1).
    { intros Hin. apply (Hk _ Hin). left. }
    rewrite length_app in Hlen |- *. simpl in Hlen |- *.
    destruct IH as (Hr & Hl & Hnx & Hev & Hsz & Hcb & Hin & Hout); [done|lia|].
    rewrite Adds_snoc. set (c := (Adds adds (fresh sz cb)).1) in *.
    rewrite Add_miss_fits; [|by apply Hout|unfold Len; rewrite Hl, length_reverse, length_seq, Hsz; lia].
    simpl. rewrite Hr, Hl, Hnx, Hev, Hsz, Hcb, Nat.add_1_r.
    split_and!; try done.
    + by rewrite replicate_S_end.
    + by rewrite seq_S, reverse_snoc.
    + intros i k' v' ts' Hi. apply lookup_snoc_Some in Hi as [[Hlt Hi]|[-> [= -> -> ->]]].
      * destruct (Hin _ _ _ _ Hi) as [Hh Hit].
        rewrite !lookup_insert_ne; [done| |lia].
        intros ->. apply Hk'. apply list_elem_of_fmap. exists (k', v'). split; [done|].
        apply list_elem_of_fmap. exists (k', v', ts'). split; [done|].
        by eapply list_elem_of_lookup_2.
      * by rewrite !lookup_insert_eq.
    + intros k' Hk2. rewrite !fmap_app in Hk2. simpl in Hk2.
      apply not_elem_of_app in Hk2 as [Hk2 Hk3].
      rewrite lookup_insert_ne; [by apply Hout|].
      intros ->. apply Hk3. left.
Qed.

Lemma NewLRU_pos (sz : Z) (cb : bool) :
  0 < sz → NewLRU sz cb = Ok (fresh sz cb : LRU K V).
Proof. intros Hsz. unfold NewLRU. by rewrite decide_False by lia. Qed.

(** ** The callback stays configured *)

Lemma removeElement_onEvict el c : onEvict (removeElement el c) = onEvict c.
Proof. apply removeElement_frame. Qed.

Lemma removeOldest_onEvict c : onEvict (removeOldest c) = onEvict c.
Proof.
  unfold removeOldest. destruct (list_Back _); [apply removeElement_onEvict|done].
Qed.

Lemma foldl_removeElement_onEvict (els : list Element) c (n : Z) :
  onEvict (foldl (λ '(c, removed) el, (removeElement el c, removed + 1)) (c, n) els).1
  = onEvict c.
Proof.
  revert c n. induction els as [|el els IH]; intros c n; simpl; [done|].
  by rewrite IH, removeElement_onEvict.
Qed.

Lemma onEvict_step c (o : call K V) : onEvict (step c o) = onEvict c.
Proof.
  destruct o; simpl; try done.
  - unfold Add. destruct (items c !! key); simpl; [done|].
    case_bool_decide; [|done]. by rewrite removeOldest_onEvict.
  - unfold Get. by destruct (items c !! key).
  - unfold Remove. destruct (items c !! key); [|done]. apply removeElement_onEvict.
  - unfold RemoveOldest. destruct (list_Back _); [|done]. apply removeElement_onEvict.
  - unfold Resize. simpl. induction (Z.to_nat _) as [|n IH]; simpl; [done|].
    by rewrite removeOldest_onEvict.
  - unfold Invalidate. generalize 0. revert c.
    induction ts as [|t ts IH]; intros c n; simpl; [done|].
    destruct (tags c !! t) as [els|]; [|apply IH].
    pose proof (foldl_removeElement_onEvict (elements els) c n) as Hf.
    destruct (foldl _ (c, n) (elements els)) as [c' n']. by rewrite IH.
  - apply Purge_fields.
Qed.

Lemma onEvict_run (os : list (call K V)) c : onEvict (run os c) = onEvict c.
Proof.
  unfold run. revert c. induction os as [|o os IH]; intros c; simpl; [done|].
  by rewrite IH, onEvict_step.
Qed.

(** ** The capacity bound *)

Lemma removeElement_size el c : size (removeElement el c) = size c.
Proof. apply removeElement_frame. Qed.

Lemma removeElement_Len el c : Len (removeElement el c) ≤ Len c.
Proof.
  unfold Len. rewrite removeElement_evictList. unfold list_Remove.
  pose proof (length_filter (λ x, x ≠ el) (evictList c)). lia.
Qed.

Lemma removeOldest_size c : size (removeOldest c) = size c.
Proof.
  unfold removeOldest. destruct (list_Back _); [apply removeElement_size|done].
Qed.

Lemma removeOldest_Len c :
  NoDup (evictList c) → evictList c ≠ [] → Len (removeOldest c) = Len c - 1.
Proof.
  intros Hnd Hne. unfold removeOldest, list_Back, Len.
  destruct (last (evictList c)) as [el|] eqn:Hlast.
  - apply last_Some in Hlast as [l Hl].
    rewrite removeElement_evictList, Hl. rewrite Hl in Hnd.
    rewrite list_Remove_snoc, length_app by done. simpl. lia.
  - by apply last_None in Hlast.
Qed.

Lemma within_removeElement el c : within c → within (removeElement el c).
Proof.
  intros [Hl Hs]. unfold within. rewrite removeElement_size.
  pose proof (removeElement_Len el c). lia.
Qed.

Lemma within_foldl_removeElement (els : list Element) c (n : Z) :
  within c →
  within (foldl (λ '(c, removed) el, (removeElement el c, removed + 1)) (c, n) els).1.
Proof.
  revert c n. induction els as [|el els IH]; intros c n Hc; simpl; [done|].
  by apply IH, within_removeElement.
Qed.

Lemma within_step c (o : call K V) :
  wf c → sized o = true → within c → within (step c o).
Proof.
  intros Hwf Ho [Hl Hs]. destruct o; cbn [step]; try done.
  - unfold Add. destruct (items c !! key) as [el|]; simpl.
    + split; [|done]. unfold Len in *. simpl.
      rewrite length_list_MoveToFront; [done|apply Hwf].
    + case_bool_decide as Hev; [|split; [simpl in *; lia|done]].
      split; [|by rewrite removeOldest_size].
      rewrite removeOldest_size, removeOldest_Len; simpl.
      * unfold Len in *. simpl. lia.
      * apply NoDup_cons. split; [|apply Hwf].
        intros Hin. apply (wf_list c Hwf) in Hin. lia.
      * done.
  - unfold Get. destruct (items c !! key) as [el|]; simpl; [|done].
    split; [|done]. unfold Len in *. simpl.
    rewrite length_list_MoveToFront; [done|apply Hwf].
  - unfold Remove. destruct (items c !! key) as [el|]; simpl; [|done].
    by apply within_removeElement.
  - unfold RemoveOldest. destruct (list_Back _); simpl; [|done].
    by apply within_removeElement.
  - simpl in Ho. apply bool_decide_eq_true_1 in Ho.
    destruct (decide (sz < Len c)) as [Hlt|Hge].
    + destruct (Resize_shrink sz c Hwf) as (_ & Hsz & Hlen & _); [lia..|].
      unfold within, Len. rewrite Hsz, Hlen, length_take. lia.
    + rewrite Resize_grow by lia. split; simpl; [|lia]. unfold Len in *. simpl. lia.
  - unfold Invalidate. assert (Hc : within c) by done. revert Hc. generalize 0.
    clear. revert c. induction ts as [|t ts IH]; intros c n Hc; simpl; [done|].
    destruct (tags c !! t) as [els|]; [|by apply IH].
    pose proof (within_foldl_removeElement (elements els) c n Hc) as Hc'.
    destruct (foldl _ (c, n) (elements els)) as [c' n']. by apply IH.
  - destruct (Purge_fields c) as (Hsz & Hlen & _).
    unfold within, Len. rewrite Hsz, Hlen. simpl. lia.
Qed.

Lemma within_run (os : list (call K V)) c :
  wf c → forallb sized os = true → within c → within (run os c).
Proof.
  unfold run. revert c. induction os as [|o os IH]; intros c Hwf Hos Hc; simpl; [done|].
  simpl in Hos. apply andb_true_iff in Hos as [Ho Hos].
  apply IH; [by apply wf_step|done|by apply within_step].
Qed.

(** The key index never holds more keys than the list holds elements. *)
Lemma items_le_list c : wf c → (base.size (items c) ≤ length (evictList c))%nat.
Proof.
  intros Hwf. rewrite <- length_map_to_list.
  rewrite <- (length_fmap snd (map_to_list (items c))).
  apply submseteq_length, NoDup_submseteq.
  - apply NoDup_fmap_2_strong; [|apply NoDup_map_to_list].
    intros [k1 e1] [k2 e2] H1 H2 Heq. simpl in Heq. subst e2.
    apply elem_of_map_to_list in H1, H2.
    destruct (wf_items c Hwf _ _ H1) as (_ & ent1 & Hent1 & <-).
    destruct (wf_items c Hwf _ _ H2) as (_ & ent2 & Hent2 & <-).
    congruence.
  - intros e He. apply list_elem_of_fmap in He as [[k e'] [-> Hk]].
    apply elem_of_map_to_list in Hk. by apply (wf_items c Hwf k).
Qed.

(** ** Constructors *)

Lemma NewLRU_err_iff (sz : Z) (cb : bool) :
  is_err (NewLRU sz cb : result (LRU K V)) = true ↔ sz ≤ 0.
Proof. unfold NewLRU. case_decide; simpl; split; (done || lia). Qed.

Lemma NewWithEvict_err_iff (sz : Z) (cb : bool) :
  is_err (NewWithEvict sz cb : result (Cache K V)) = true ↔ sz ≤ 0.
Proof.
  rewrite <- (NewLRU_err_iff sz cb). unfold NewWithEvict.
  by destruct (NewLRU sz cb).
Qed.

Lemma New_err_iff (sz : Z) :
  is_err (New sz : result (Cache K V)) = true ↔ sz ≤ 0.
Proof. apply NewWithEvict_err_iff. Qed.

(** ** Result flags *)

Lemma Get_ok k c : (Get k c).2.2 = Contains k c.
Proof.
  unfold Get, Contains. by destruct (items c !! k).
Qed.

Lemma Get_miss k c : items c !! k = None → Get k c = (c, (None, false)).
Proof. intros Hk. unfold Get. by rewrite Hk. Qed.

Lemma Peek_ok k c : (Peek k c).2 = Contains k c.
Proof.
  unfold Peek, Contains. by destruct (items c !! k).
Qed.

Lemma Remove_ok k c : (Remove k c).2 = Contains k c.
Proof.
  unfold Remove, Contains. by destruct (items c !! k).
Qed.

Lemma RemoveOldest_ok c :
  (RemoveOldest c).2.2 = bool_decide (evictList c ≠ []).
Proof.
  unfold RemoveOldest, list_Back. destruct (last (evictList c)) eqn:Hl; simpl.
  - symmetry. apply bool_decide_eq_true_2. intros Hnil. by rewrite Hnil in Hl.
  - symmetry. apply bool_decide_eq_false_2. apply last_None in Hl. tauto.
Qed.

(** [Keys] panics exactly when the list is longer than the key index. *)
Lemma Keys_None_iff c :
  Keys c = None ↔ (base.size (items c) < length (evictList c))%nat.
Proof.
  unfold Keys. rewrite length_fmap, length_reverse.
  case_decide; split; intros; (done || lia).
Qed.

(** ** The states of the tag-replacement scenario *)

Lemma retagged_eq k v1 v2 cb :
  retagged k v1 v2 cb =
  mkLRU 2 [0%nat] {[k := 0%nat]} {["a" := {[0%nat]}; "b" := {[0%nat]}]} cb
        {[0%nat := Entry.mk k v2 ["b"]]} 1%nat [].
Proof.
  unfold retagged.
  rewrite (Add_miss k v1) by apply lookup_empty. cbv zeta.
  rewrite bool_decide_eq_false_2 by (unfold Len; simpl; lia). cbn [fst].
  by rewrite (Add_hit k v2 _ _ 0%nat) by apply lookup_insert_eq.
Qed.

Lemma removed_eq k (v1 v2 : V) :
  Remove k (retagged k v1 v2 true) =
  (mkLRU 2 [] ∅ {["a" := {[0%nat]}]} true
         {[0%nat := Entry.mk k v2 ["b"]]} 1%nat [(k, v2)], true).
Proof.
  rewrite retagged_eq. unfold Remove. simpl. rewrite lookup_singleton_eq. simpl.
  rewrite (removeElement_eq _ _ (Entry.mk k v2 ["b"])) by done. simpl.
  by rewrite delete_singleton_eq.
Qed.

Lemma invalidated_eq k v1 v2 cb :
  (Invalidate ["a"] (retagged k v1 v2 cb)).1 =
  mkLRU 2 [] ∅ {["a" := {[0%nat]}]} cb
        {[0%nat := Entry.mk k v2 ["b"]]} 1%nat (if cb then [(k, v2)] else []).
Proof.
  rewrite retagged_eq.
  rewrite (Invalidate_bucket _ _ {[0%nat]}) by done.
  rewrite elements_singleton. simpl.
  rewrite (removeElement_eq _ _ (Entry.mk k v2 ["b"])) by done. simpl.
  by rewrite delete_singleton_eq.
Qed.

Lemma orphaned_eq k v1 v2 v3 cb :
  orphaned k v1 v2 v3 cb =
  mkLRU 2 [1%nat] ∅ {["a" := {[0%nat]}]} cb
        {[0%nat := Entry.mk k v2 ["b"]; 1%nat := Entry.mk k v3 []]} 2%nat
        (if cb then [(k, v2); (k, v2)] else []).
Proof.
  unfold orphaned. rewrite invalidated_eq.
  rewrite (Add_miss k v3) by apply lookup_empty. cbv zeta.
  rewrite bool_decide_eq_false_2 by (unfold Len; simpl; lia). cbn [fst].
  rewrite (Invalidate_bucket _ _ {[0%nat]}) by done.
  rewrite elements_singleton. simpl.
  rewrite (removeElement_eq _ _ (Entry.mk k v2 ["b"])) by done. simpl.
  rewrite delete_insert_eq, delete_empty. by destruct cb.
Qed.

(** ** Consistency is kept by calls that drop no tag *)

Lemma consistent_fresh sz cb : consistent (fresh sz cb : LRU K V).
Proof.
  split; [apply wf_fresh| |].
  - intros t el. simpl. rewrite lookup_total_empty. split.
    + intros Hel. by apply not_elem_of_empty in Hel.
    + intros [Hel _]. by apply elem_of_nil in Hel.
  - intros el Hel. by apply elem_of_nil in Hel.
Qed.

Lemma consistent_removeElement el c :
  consistent c → el ∈ evictList c → consistent (removeElement el c).
Proof.
  intros [Hwf Ht Hi] Hel.
  destruct (Hi el Hel) as (ent & Hent & Hkey).
  split; [by apply wf_removeElement| |].
  - intros t x. rewrite (removeElement_eq _ _ ent) by done. simpl.
    rewrite foldl_untag1_total, elem_of_list_Remove.
    destruct (decide (x = el)) as [->|Hne].
    + split; [|tauto]. case_decide as Hin.
      * rewrite elem_of_difference, elem_of_singleton. tauto.
      * intros Hx. apply Ht in Hx as (_ & ent' & Hent' & Hin'). congruence.
    + pose proof (Ht t x) as Htx. case_decide; [|tauto].
      rewrite elem_of_difference, elem_of_singleton. tauto.
  - intros x. rewrite (removeElement_eq _ _ ent) by done. simpl.
    rewrite elem_of_list_Remove. intros [Hx Hne].
    destruct (Hi x Hx) as (ent' & Hent' & Hkey'). exists ent'. split; [done|].
    rewrite lookup_delete_ne; [done|]. intros Heq. rewrite Heq in Hkey. congruence.
Qed.

Lemma consistent_removeOldest c : consistent c → consistent (removeOldest c).
Proof.
  intros Hc. unfold removeOldest, list_Back.
  destruct (last (evictList c)) as [el|] eqn:Hl; [|done].
  apply consistent_removeElement; [done|]. by eapply last_Some_elem_of.
Qed.

Lemma consistent_iter_removeOldest (n : nat) c :
  consistent c → consistent (Nat.iter n removeOldest c).
Proof. induction n; simpl; auto using consistent_removeOldest. Qed.

Lemma consistent_move el c :
  consistent c → consistent (set_evictList (list_MoveToFront el (evictList c)) c).
Proof.
  intros [Hwf Ht Hi]. split; [by apply wf_move| |].
  - intros t x. simpl. rewrite elem_of_list_MoveToFront. apply Ht.
  - intros x. simpl. rewrite elem_of_list_MoveToFront. apply Hi.
Qed.

Lemma consistent_set_size sz c : consistent c → consistent (set_size sz c).
Proof. intros [Hwf Ht Hi]. split; [by apply wf_set_size|done|done]. Qed.

Lemma consistent_Add k v ts c :
  consistent c → keeps_tags c (CAdd k v ts) = true → consistent (Add k v ts c).1.
Proof.
  intros Hc Hkeep. pose proof (wf_Add k v ts c (cons_wf c Hc)) as Hwf'.
  destruct Hc as [Hwf Ht Hi]. simpl in Hkeep.
  destruct (items c !! k) as [el|] eqn:Hk.
  - destruct (wf_items c Hwf k el Hk) as (Hel & ent & Hent & Hkey).
    rewrite Hent in Hkeep. apply bool_decide_eq_true_1 in Hkeep.
    rewrite (Add_hit _ _ _ _ el) in Hwf' |- * by done. cbn [fst] in *.
    split; [done| |].
    + intros t x. simpl.
      rewrite foldl_tag1_total, foldl_untag1_total, elem_of_list_MoveToFront.
      destruct (decide (x = el)) as [->|Hne].
      * rewrite lookup_alter_eq, Hent. simpl. case_decide as Hin.
        -- rewrite elem_of_union, elem_of_singleton. split; [|tauto]. eauto.
        -- split; [|intros (_ & ? & [= <-] & ?); done].
           intros Hx. apply Ht in Hx as (_ & ent' & Hent' & Hin').
           rewrite Hent in Hent'. injection Hent' as <-. destruct Hin. by apply Hkeep.
      * rewrite lookup_alter_ne by done. pose proof (Ht t x) as Htx.
        case_decide; [|done].
        rewrite elem_of_union, elem_of_difference, !elem_of_singleton. tauto.
    + intros x. simpl. rewrite elem_of_list_MoveToFront. intros Hx.
      destruct (Hi x Hx) as (ent' & Hent' & Hkey').
      rewrite lookup_alter. case_decide as Hc; [|eauto].
      subst x. rewrite Hent'. simpl. eauto.
  - clear Hwf'. rewrite Add_miss by done. cbv zeta. cbn [fst].
    match goal with
    | |- consistent (if ?b then removeOldest ?c3 else _) =>
        assert (Hc3 : consistent c3); [|destruct b; [by apply consistent_removeOldest|done]]
    end.
    assert (Hnew : next c ∉ evictList c).
    { intros Hin. apply (wf_list c Hwf) in Hin. lia. }
    split.
    + exact (wf_pushed k v ts c Hwf).
    + intros t x. simpl. rewrite foldl_tag1_total, elem_of_cons.
      destruct (decide (x = next c)) as [->|Hne].
      * rewrite lookup_insert_eq. case_decide as Hin.
        -- rewrite elem_of_union, elem_of_singleton. split; [|tauto]. eauto.
        -- split; [|intros (_ & ? & [= <-] & ?); done].
           intros Hx. apply Ht in Hx as [Hx _]. done.
      * rewrite lookup_insert_ne by done. pose proof (Ht t x) as Htx.
        case_decide; [|tauto].
        rewrite elem_of_union, elem_of_singleton. tauto.
    + intros x. simpl. rewrite elem_of_cons. intros [->|Hx].
      * exists (Entry.mk k v ts). by rewrite !lookup_insert_eq.
      * destruct (Hi x Hx) as (ent' & Hent' & Hkey'). exists ent'.
        rewrite !lookup_insert_ne; [done| |].
        -- intros Heq. rewrite <- Heq in Hkey'. congruence.
        -- intros Heq. apply Hnew. by rewrite Heq.
Qed.

Lemma consistent_foldl_removeElement (els : list Element) c (n : Z) :
  consistent c → NoDup els → (∀ x, x ∈ els → x ∈ evictList c) →
  consistent (foldl (λ '(c, removed) el, (removeElement el c, removed + 1)) (c, n) els).1.
Proof.
  revert c n. induction els as [|el els IH]; intros c n Hc Hnd Hin; simpl; [done|].
  apply NoDup_cons in Hnd as [Hel Hnd].
  apply IH; [|done|].
  - apply consistent_removeElement; [done|]. apply Hin. left.
  - intros x Hx. rewrite removeElement_evictList, elem_of_list_Remove.
    split; [apply Hin; by right|]. intros ->. done.
Qed.

Lemma consistent_Invalidate ts c : consistent c → consistent (Invalidate ts c).1.
Proof.
  unfold Invalidate. generalize 0. revert c.
  induction ts as [|t ts IH]; intros c n Hc; simpl; [done|].
  destruct (tags c !! t) as [els|] eqn:Ht; [|by apply IH].
  pose proof (consistent_foldl_removeElement (elements els) c n Hc) as Hc'.
  destruct (foldl _ (c, n) (elements els)) as [c' n']. apply IH, Hc'.
  - apply NoDup_elements.
  - intros x Hx. apply elem_of_elements in Hx.
    apply (cons_tags c Hc t x). by rewrite (lookup_total_correct _ _ _ Ht).
Qed.

Lemma consistent_Purge c : consistent c → consistent (Purge c).
Proof.
  intros Hc. destruct (Purge_fields c) as (_ & Hl & Hi & Ht & _ & Hh & Hn).
  split; [apply wf_Purge, Hc| |].
  - intros t x. rewrite Ht, Hl, lookup_total_empty. split.
    + intros Hx. by apply not_elem_of_empty in Hx.
    + intros [Hx _]. by apply elem_of_nil in Hx.
  - intros x. rewrite Hl. intros Hx. by apply elem_of_nil in Hx.
Qed.

Lemma consistent_step c (o : call K V) :
  consistent c → keeps_tags c o = true → consistent (step c o).
Proof.
  intros Hc Hkeep. destruct o; cbn [step]; try done.
  - by apply consistent_Add.
  - unfold Get. destruct (items c !! key); simpl; [by apply consistent_move|done].
  - unfold Remove. destruct (items c !! key) as [el|] eqn:Hk; simpl; [|done].
    apply consistent_removeElement; [done|].
    by apply (wf_items c (cons_wf c Hc) key).
  - unfold RemoveOldest, list_Back.
    destruct (last (evictList c)) as [el|] eqn:Hl; simpl; [|done].
    apply consistent_removeElement; [done|]. by eapply last_Some_elem_of.
  - unfold Resize. simpl. by apply consistent_set_size, consistent_iter_removeOldest.
  - by apply consistent_Invalidate.
  - by apply consistent_Purge.
Qed.

Lemma consistent_run (os : list (call K V)) c :
  consistent c → keeps_tags_run os c = true → consistent (run os c).
Proof.
  unfold run. revert c. induction os as [|o os IH]; intros c Hc Hos; simpl; [done|].
  simpl in Hos. apply andb_true_iff in Hos as [Ho Hos].
  apply IH; [by apply consistent_step|done].
Qed.

(** In a consistent state the key index and the list have the same size. *)
Lemma consistent_sizes c :
  consistent c → base.size (items c) = length (evictList c).
Proof.
  intros [Hwf Ht Hi]. apply Nat.le_antisymm; [by apply items_le_list|].
  rewrite <- length_map_to_list.
  rewrite <- (length_fmap (λ el, Entry.key <$> heap c !! el) (evictList c)).
  rewrite <- (length_fmap (λ kv, Some kv.1) (map_to_list (items c))).
  apply submseteq_length, NoDup_submseteq.
  - apply NoDup_fmap_2_strong; [|apply Hwf].
    intros x y Hx Hy Heq.
    destruct (Hi x Hx) as (ex & Hex & Hkx). destruct (Hi y Hy) as (ey & Hey & Hky).
    rewrite Hex, Hey in Heq. simpl in Heq. injection Heq as Heq.
    rewrite Heq in Hkx. congruence.
  - intros ok Hok. apply list_elem_of_fmap in Hok as (x & -> & Hx).
    destruct (Hi x Hx) as (ex & Hex & Hkx). rewrite Hex. simpl.
    apply list_elem_of_fmap. exists (Entry.key ex, x). split; [done|].
    by apply elem_of_map_to_list.
Qed.

Lemma consistent_Keys c : consistent c → is_Some (Keys c).
Proof.
  intros Hc. destruct (Keys c) eqn:HK; [eauto|].
  apply Keys_None_iff in HK. rewrite consistent_sizes in HK by done. lia.
Qed.

Lemma tally_removeElement el c :
  wf c → onEvict c = true → el ∈ evictList c →
  tally (removeElement el c) = tally c.
Proof.
  intros Hwf Hcb Hel. unfold tally.
  destruct (wf_heap c Hwf el (wf_list c Hwf el Hel)) as [ent Hent].
  rewrite (removeElement_eq _ _ ent) by done. simpl. rewrite Hcb, length_app. simpl.
  pose proof (length_list_Remove el (evictList c) (wf_nodup c Hwf) Hel). lia.
Qed.

Lemma tally_removeOldest c :
  wf c → onEvict c = true → tally (removeOldest c) = tally c.
Proof.
  intros Hwf Hcb. unfold removeOldest, list_Back.
  destruct (last (evictList c)) as [el|] eqn:Hl; [|done].
  apply tally_removeElement; [done..|]. by eapply last_Some_elem_of.
Qed.

Lemma tally_iter_removeOldest (n : nat) c :
  wf c → onEvict c = true → tally (Nat.iter n removeOldest c) = tally c.
Proof.
  intros Hwf Hcb. induction n as [|n IH]; simpl; [done|].
  rewrite tally_removeOldest; [done|by apply wf_iter_removeOldest|].
  clear IH. induction n; simpl; [done|]. by rewrite removeOldest_onEvict.
Qed.

Lemma tally_foldl_removeElement (els : list Element) c (n : Z) :
  wf c → onEvict c = true → NoDup els → (∀ x, x ∈ els → x ∈ evictList c) →
  tally (foldl (λ '(c, removed) el, (removeElement el c, removed + 1)) (c, n) els).1
  = tally c.
Proof.
  revert c n. induction els as [|el els IH]; intros c n Hwf Hcb Hnd Hin; simpl; [done|].
  apply NoDup_cons in Hnd as [Hel Hnd].
  rewrite IH; [|by apply wf_removeElement|by rewrite removeElement_onEvict|done|].
  - apply tally_removeElement; [done..|]. apply Hin. left.
  - intros x Hx. rewrite removeElement_evictList, elem_of_list_Remove.
    split; [apply Hin; by right|]. intros ->. done.
Qed.

Lemma next_foldl_removeElement (els : list Element) c (n : Z) :
  next (foldl (λ '(c, removed) el, (removeElement el c, removed + 1)) (c, n) els).1
  = next c.
Proof.
  revert c n. induction els as [|el els IH]; intros c n; simpl; [done|].
  rewrite IH. apply removeElement_frame.
Qed.

Lemma removeOldest_next c : next (removeOldest c) = next c.
Proof.
  unfold removeOldest. destruct (list_Back _); [apply removeElement_frame|done].
Qed.

(** The callbacks [Purge] fires: one for each key of the index. *)
Lemma Purge_loop_evicted (l : list (K * Element)) c :
  onEvict c = true → (∀ k el, (k, el) ∈ l → is_Some (heap c !! el)) →
  length (evicted (foldl (λ c '(k, el),
                     let c' := match heap c !! el with
                               | Some ent => fire k (Entry.value ent) c
                               | None => c
                               end in
                     set_items (delete k (items c')) c') c l))
  = (length (evicted c) + length l)%nat.
Proof.
  revert c. induction l as [|[k el] l IH]; intros c Hcb Hall; simpl; [lia|].
  destruct (Hall k el ltac:(left)) as [ent Hent]. rewrite Hent.
  rewrite IH.
  - unfold fire. rewrite Hcb. simpl. rewrite length_app. simpl. lia.
  - unfold fire. by rewrite Hcb.
  - intros k' el' Hin. simpl. unfold fire. rewrite Hcb. simpl.
    apply (Hall k' el'). by right.
Qed.

Lemma tally_step c (o : call K V) :
  consistent c → onEvict c = true → keeps_tags c o = true →
  next c = tally c → next (step c o) = tally (step c o).
Proof.
  intros Hc Hcb Hkeep Hn. pose proof (cons_wf c Hc) as Hwf.
  destruct o; cbn [step]; try done.
  - unfold Add. destruct (items c !! key) as [el|] eqn:Hk; cbn [fst].
    + unfold tally in *. simpl. by rewrite length_list_MoveToFront by apply Hwf.
    + simpl. case_bool_decide.
      * rewrite removeOldest_next, tally_removeOldest;
          [|exact (wf_pushed key value ts c Hwf)|done].
        unfold tally in *. simpl. lia.
      * unfold tally in *. simpl. lia.
  - unfold Get. destruct (items c !! key); simpl; [|done].
    unfold tally in *. simpl. by rewrite length_list_MoveToFront by apply Hwf.
  - unfold Remove. destruct (items c !! key) as [el|] eqn:Hk; simpl; [|done].
    rewrite tally_removeElement; [|done..|by apply (wf_items c Hwf key)].
    by destruct (removeElement_frame el c) as (_ & _ & _ & ->).
  - unfold RemoveOldest. fold (removeOldest c).
    destruct (list_Back (evictList c)) as [el|] eqn:Hl; simpl; [|done].
    rewrite tally_removeElement; [|done..|by eapply last_Some_elem_of].
    by destruct (removeElement_frame el c) as (_ & _ & _ & ->).
  - unfold Resize. simpl.
    change (tally (set_size sz (Nat.iter (Z.to_nat
             (if decide (wrap (Len c - sz) < 0) then 0 else wrap (Len c - sz)))
             removeOldest c)))
      with (tally (Nat.iter (Z.to_nat
             (if decide (wrap (Len c - sz) < 0) then 0 else wrap (Len c - sz)))
             removeOldest c)).
    rewrite tally_iter_removeOldest by done.
    induction (Z.to_nat _) as [|n IH]; simpl; [done|]. by rewrite removeOldest_next.
  - unfold Invalidate. revert Hn. generalize 0. clear Hkeep. revert c Hc Hcb Hwf.
    induction ts as [|t ts IH]; intros c Hc Hcb Hwf n Hn; simpl; [done|].
    destruct (tags c !! t) as [els|] eqn:Ht; [|by apply IH].
    assert (Hlive : ∀ x, x ∈ elements els → x ∈ evictList c).
    { intros x Hx. apply elem_of_elements in Hx.
      apply (cons_tags c Hc t x). by rewrite (lookup_total_correct _ _ _ Ht). }
    pose proof (consistent_foldl_removeElement (elements els) c n Hc
                  (NoDup_elements els) Hlive) as Hc'.
    pose proof (tally_foldl_removeElement (elements els) c n Hwf Hcb
                  (NoDup_elements els) Hlive) as Ht'.
    pose proof (next_foldl_removeElement (elements els) c n) as Hn'.
    pose proof (foldl_removeElement_onEvict (elements els) c n) as Hcb'.
    destruct (foldl _ (c, n) (elements els)) as [c' n']. simpl in *.
    apply IH; [done|congruence|apply Hc'|lia].
  - destruct (Purge_fields c) as (_ & Hl & _ & _ & _ & _ & Hnx).
    unfold tally. rewrite Hnx, Hl. simpl. unfold Purge. simpl.
    rewrite Purge_loop_evicted, length_map_to_list, consistent_sizes by
      (done || (intros k el Hin; apply elem_of_map_to_list in Hin;
                destruct (wf_items c Hwf k el Hin) as (_ & ent & -> & _); eauto)).
    unfold tally in Hn. lia.
Qed.

Lemma tally_run (os : list (call K V)) c :
  consistent c → onEvict c = true → keeps_tags_run os c = true →
  next c = tally c → next (run os c) = tally (run os c).
Proof.
  unfold run. revert c.
  induction os as [|o os IH]; intros c Hc Hcb Hos Hn; simpl; [done|].
  simpl in Hos. apply andb_true_iff in Hos as [Ho Hos].
  apply IH; [by apply consistent_step|by rewrite onEvict_step|done|by apply tally_step].
Qed.
(** In the retagged state the tag index no longer agrees with the tag sets
    of the entries. *)
Lemma retagged_not_tag_index_ok k (v1 v2 : V) (cb : bool) :
  ¬ tag_index_ok (retagged k v1 v2 cb).
Proof.
  rewrite retagged_eq. intros Hok.
  destruct (Hok "a" 0%nat) as [Hab _].
  destruct Hab as (_ & ent & Hent & Hin).
  { simpl. by apply elem_of_singleton. }
  simpl in Hent. rewrite lookup_singleton_eq in Hent. injection Hent as <-.
  simpl in Hin. apply list_elem_of_singleton in Hin. discriminate.
Qed.

(** ** What holds as long as no call drops a tag *)

Lemma tag_index_ok_run (sz : Z) (cb : bool) (os : list (call K V)) :
  keeps_tags_run os (fresh sz cb) = true → tag_index_ok (run os (fresh sz cb)).
Proof. intros Hos. by apply cons_tags, consistent_run, Hos; apply consistent_fresh. Qed.

Lemma sizes_agree_run (sz : Z) (cb : bool) (os : list (call K V)) :
  keeps_tags_run os (fresh sz cb) = true →
  base.size (items (run os (fresh sz cb))) = length (evictList (run os (fresh sz cb))).
Proof. intros Hos. by apply consistent_sizes, consistent_run, Hos; apply consistent_fresh. Qed.

Lemma Keys_total_run (sz : Z) (cb : bool) (os : list (call K V)) :
  keeps_tags_run os (fresh sz cb) = true → is_Some (Keys (run os (fresh sz cb))).
Proof. intros Hos. by apply consistent_Keys, consistent_run, Hos; apply consistent_fresh. Qed.

(** With a callback configured, the callback has fired as many times as
    elements were allocated and are no longer in the list. *)
Lemma fired_once_run (sz : Z) (os : list (call K V)) :
  keeps_tags_run os (fresh sz true) = true →
  let c := run os (fresh sz true) in
  next c = (length (evictList c) + length (evicted c))%nat.
Proof.
  intros Hos. by apply (tally_run os (fresh sz true)); [apply consistent_fresh|..].
Qed.
(** ** The key index after [Resize] *)

(** In a consistent state the key index is read off the list. *)
Lemma consistent_lookup c k el :
  consistent c →
  items c !! k = Some el ↔
  el ∈ evictList c ∧ ∃ ent, heap c !! el = Some ent ∧ Entry.key ent = k.
Proof.
  intros [Hwf Ht Hi]. split; [apply (wf_items c Hwf)|].
  intros (Hel & ent & Hent & <-). destruct (Hi el Hel) as (ent' & Hent' & Hk).
  congruence.
Qed.

Lemma elem_of_kv_keys c (els : list Element) k :
  k ∈ (omap (kv_of c) els).*1 ↔
  ∃ el ent, el ∈ els ∧ heap c !! el = Some ent ∧ Entry.key ent = k.
Proof.
  rewrite list_elem_of_fmap. split.
  - intros ([k' v'] & -> & Hin). apply list_elem_of_omap in Hin as (el & Hel & Hkv).
    unfold kv_of in Hkv. destruct (heap c !! el) as [ent|] eqn:Hent; [|done].
    simpl in Hkv. injection Hkv as <- <-. eauto.
  - intros (el & ent & Hel & Hent & <-). exists (Entry.key ent, Entry.value ent).
    split; [done|]. apply list_elem_of_omap. exists el. split; [done|].
    unfold kv_of. by rewrite Hent.
Qed.

(** The key index after a shrinking [Resize]: the keys of the elements
    evicted are gone, the others are where they were. *)
Lemma Resize_shrink_items (s : Z) c k :
  consistent c → 0 ≤ s < Len c → Len c ≤ int_max →
  items (Resize s c).1 !! k =
  if decide (k ∈ (omap (kv_of c) (reverse (drop (Z.to_nat s) (evictList c)))).*1)
  then None else items c !! k.
Proof.
  intros Hc Hs Hmax. pose proof (cons_wf c Hc) as Hwf.
  assert (Hc' : consistent (Resize s c).1) by by apply (consistent_step c (CResize s)).
  destruct (Resize_shrink s c Hwf Hs Hmax) as (_ & _ & Hl & _ & _ & Hh & _).
  pose proof (wf_nodup c Hwf) as Hnd.
  rewrite <- (take_drop (Z.to_nat s) (evictList c)) in Hnd.
  apply NoDup_app in Hnd as (_ & Hdis & _).
  assert (Hsplit : ∀ x, x ∈ evictList c ↔
            x ∈ take (Z.to_nat s) (evictList c) ∨ x ∈ drop (Z.to_nat s) (evictList c)).
  { intros x. by rewrite <- elem_of_app, take_drop. }
  assert (Hnew : ∀ el, items (Resize s c).1 !! k = Some el ↔
            el ∈ take (Z.to_nat s) (evictList c) ∧
            ∃ ent, heap c !! el = Some ent ∧ Entry.key ent = k).
  { intros el. by rewrite (consistent_lookup _ k el Hc'), Hl, Hh. }
  case_decide as Hg.
  - apply elem_of_kv_keys in Hg as (el & ent & Hel & Hent & Hkey).
    rewrite elem_of_reverse in Hel.
    apply eq_None_not_Some. intros [el' Hk']. apply Hnew in Hk' as (Hel' & ent' & Hent' & Hkey').
    assert (items c !! k = Some el) as Hk1.
    { apply consistent_lookup; [done|]. split; [apply Hsplit; by right|eauto]. }
    assert (items c !! k = Some el') as Hk2.
    { apply consistent_lookup; [done|]. split; [apply Hsplit; by left|eauto]. }
    rewrite Hk1 in Hk2. injection Hk2 as <-. by apply (Hdis el).
  - destruct (items c !! k) as [el|] eqn:Hk.
    + apply (consistent_lookup c k el Hc) in Hk as (Hel & ent & Hent & Hkey).
      apply Hnew. split; [|eauto]. apply Hsplit in Hel as [Hel|Hel]; [done|].
      destruct Hg. apply elem_of_kv_keys. exists el, ent.
      by rewrite elem_of_reverse.
    + apply eq_None_not_Some. intros [el' Hk']. apply Hnew in Hk' as (Hel' & ent' & Hent' & Hkey').
      assert (items c !! k = Some el') as Hk2.
      { apply consistent_lookup; [done|]. split; [apply Hsplit; by left|eauto]. }
      congruence.
Qed.
End lru_facts.

(** * The claims of the specification *)

Section claims.
Context {K V : Type} `{Countable K}.
Implicit Types (c : LRU K V) (el : Element) (k : K) (v : V) (ts : list string).

(** C1 (fails on the code).  After [Add(k, v1, "a")] and [Add(k, v2, "b")]
    on a new cache, [FindByTags(["a"])] still returns [k]: [Add] untags the
    tags it was given instead of the tags the entry carried, so the old tag
    "a" is never removed.  [FindByTags(["b"])] returns [k] as expected. *)
Theorem Add_existing_keeps_old_tag k (v1 v2 : V) (cb : bool) :
  FindByTags ["a"] (retagged k v1 v2 cb) = [k] ∧
  FindByTags ["b"] (retagged k v1 v2 cb) = [k].
Proof. rewrite retagged_eq. by split. Qed.

(** C2 (fails on the code).  In the state reached by [Add(k, v1, "a")] and
    [Add(k, v2, "b")], the bucket of tag "a" holds the element of [k] although
    the tag set of that entry is ["b"]: membership in a bucket does not imply
    that the entry carries the tag. *)
Theorem stale_bucket_after_retag k (v1 v2 : V) (cb : bool) :
  let c := retagged k v1 v2 cb in
  evictList c = [0%nat] ∧ items c !! k = Some 0%nat ∧
  tags c !! "a" = Some {[0%nat]} ∧
  heap c !! 0%nat = Some (Entry.mk k v2 ["b"]).
Proof.
  cbv zeta. rewrite retagged_eq. simpl. rewrite lookup_singleton_eq.
  by split_and!.
Qed.

(** C3 (fails on the code).  After [Add(k, v1, "a")] and [Add(k, v2, "b")],
    [Remove(k)] returns true, empties the cache and fires the callback once,
    for [(k, v2)].  [Invalidate(["a"])] then finds the removed element in
    the stale bucket, counts one removal and fires the callback for it a
    second time. *)
Theorem stale_bucket_fires_again k (v1 v2 : V) :
  let r := Remove k (retagged k v1 v2 true) in
  r.2 = true ∧ evictList r.1 = [] ∧ Contains k r.1 = false ∧
  evicted r.1 = [(k, v2)] ∧
  (Invalidate ["a"] r.1).2 = 1 ∧
  evicted (Invalidate ["a"] r.1).1 = [(k, v2); (k, v2)].
Proof.
  cbv zeta. rewrite removed_eq. cbn [fst snd].
  rewrite (Invalidate_bucket _ _ {[0%nat]}) by done.
  rewrite elements_singleton. simpl.
  by rewrite (removeElement_eq _ _ (Entry.mk k v2 ["b"])) by done.
Qed.

(** C4 (amended).  In every state reached from a new cache of capacity
    [sz] (a positive [int]) by calls whose [Resize] arguments are
    non-negative [int]s, the list holds at most [size] elements and the key
    index holds at most as many keys as the list holds elements; when no
    call of the run drops a tag, the key index holds exactly as many keys
    as the list holds elements. *)
Theorem size_within_capacity (sz : Z) (cb : bool) (os : list (call K V)) :
  0 < sz ≤ int_max → forallb sized os = true →
  let c := run os (fresh sz cb) in
  Z.of_nat (base.size (items c)) ≤ Len c ∧ Len c ≤ size c ∧
  (keeps_tags_run os (fresh sz cb) = true →
     Z.of_nat (base.size (items c)) = Len c).
Proof.
  intros Hsz Hos c.
  assert (Hwf : wf c) by apply wf_run, wf_fresh.
  split_and!.
  - unfold Len. pose proof (items_le_list c Hwf). lia.
  - apply (within_run os (fresh sz cb)); [apply wf_fresh|done|].
    unfold within, Len. simpl. lia.
  - intros Hkeep. unfold Len. f_equal.
    apply consistent_sizes, consistent_run; [apply consistent_fresh|done].
Qed.

(** C5.  In any state reached from a new cache with a callback, where [k]
    is absent, there is room for one more entry and the buckets of [t1] and
    [t2] do not exist: after [Add(k, v, t1, t2)], the call
    [Invalidate([t1, t2])] returns 1, fires the callback exactly once, for
    [(k, v)], and removes [k]; list, key index and tag index are back to
    what they were before the [Add]. *)
Theorem double_tag_invalidated_once (os : list (call K V)) (sz : Z) k v (t1 t2 : string) :
  let c := run os (fresh sz true) in
  items c !! k = None → Len c < size c →
  tags c !! t1 = None → tags c !! t2 = None →
  let c1 := (Add k v [t1; t2] c).1 in
  let r := Invalidate [t1; t2] c1 in
  Contains k c1 = true ∧ Len c1 = Len c + 1 ∧
  r.2 = 1 ∧ evicted r.1 = evicted c ++ [(k, v)] ∧
  Contains k r.1 = false ∧ evictList r.1 = evictList c ∧ items r.1 = items c ∧
  tags r.1 = tags c.
Proof.
  intros c Hk Hfit Ht1 Ht2.
  assert (Hwf : wf c) by apply wf_run, wf_fresh.
  assert (Hcb : onEvict c = true) by apply onEvict_run.
  cbv zeta. rewrite Add_miss_fits by (done || lia). cbn [fst].
  destruct (tag_untag_two (next c) (tags c) t1 t2 Ht1 Ht2) as [Hb Hun].
  cbn [foldl] in Hb, Hun.
  assert (Hnew : next c ∉ evictList c).
  { intros Hin. apply (wf_list c Hwf) in Hin. lia. }
  unfold Invalidate. cbn [foldl tags]. rewrite Hb, elements_singleton. cbn [foldl].
  rewrite (removeElement_eq _ _ (Entry.mk k v [t1; t2])) by apply lookup_insert_eq.
  cbn [size evictList items tags onEvict heap next evicted Entry.key Entry.value Entry.tags].
  cbn [foldl]. rewrite Hun, Ht2, Hcb, delete_insert_id by done.
  rewrite !list_Remove_head by done.
  unfold Contains, Len. simpl. rewrite lookup_insert_eq, Hk.
  split_and!; try done; lia.
Qed.

(** C6.  On a new cache of capacity [N > 0], [N + 1] calls of [Add] with
    distinct keys return false [N] times and then true; afterwards the cache
    holds [N] entries, the first key is gone, every other key is present,
    and the callback (if any) has fired exactly once, for the first key and
    its value. *)
Theorem capacity_bound_evicts_first (N : nat) (cb : bool) k0 v0 ts0
    (rest : list (K * V * list string)) :
  (0 < N)%nat → length rest = N → NoDup (k0 :: rest.*1.*1) →
  ∃ c0, NewLRU (Z.of_nat N) cb = Ok c0 ∧
    let r := Adds ((k0, v0, ts0) :: rest) c0 in
    r.2 = replicate N false ++ [true] ∧
    Len r.1 = Z.of_nat N ∧
    evicted r.1 = (if cb then [(k0, v0)] else []) ∧
    Contains k0 r.1 = false ∧
    (∀ a, a ∈ rest → Contains a.1.1 r.1 = true).
Proof.
  intros HN Hlen Hnd. exists (fresh (Z.of_nat N) cb).
  split; [apply NewLRU_pos; lia|]. cbv zeta.
  destruct rest as [|[[k v] ts] pre _] using rev_ind; [simpl in Hlen; lia|].
  rewrite length_app in Hlen. simpl in Hlen.
  rewrite app_comm_cons, Adds_snoc. cbn [fst snd].
  set (adds := (k0, v0, ts0) :: pre) in *.
  assert (Hadds : length adds = N) by (simpl; lia).
  assert (Hnd' : NoDup adds.*1.*1 ∧ k ∉ adds.*1.*1).
  { rewrite !fmap_app in Hnd. simpl in Hnd. rewrite app_comm_cons in Hnd.
    apply NoDup_app in Hnd as (Hnd & Hk & _). split; [done|].
    intros Hin. apply (Hk _ Hin). left. }
  destruct Hnd' as [Hnd' Hk].
  destruct (Adds_distinct_fill adds (Z.of_nat N) cb Hnd' ltac:(lia))
    as (Hr & Hl & Hnx & Hev & Hsz & Hcb & Hin & Hout).
  set (c := (Adds adds (fresh (Z.of_nat N) cb)).1) in *.
  rewrite Hadds in Hr, Hl, Hnx.
  rewrite Add_miss_evicts;
    [|by apply Hout|unfold Len; rewrite Hl, length_reverse, length_seq, Hsz; lia].
  destruct N as [|N']; [lia|].
  destruct (Hin 0%nat k0 v0 ts0 eq_refl) as [Hh0 Hi0].
  rewrite (removeOldest_snoc _ (S N' :: reverse (seq 1 N')) 0%nat (Entry.mk k0 v0 ts0)); simpl.
  - rewrite Hr, Hcb, Hev, Hnx. unfold Len, Contains; simpl.
    split_and!; try done.
    + rewrite length_reverse, length_seq. lia.
    + rewrite lookup_delete_eq. apply bool_decide_eq_false_2. by intros [? ?].
    + intros [[k' v'] ts'] Ha. simpl. apply bool_decide_eq_true_2.
      assert (Hne : k0 ≠ k').
      { apply NoDup_cons in Hnd as [Hk0 _]. intros ->. apply Hk0.
        apply list_elem_of_fmap. exists (k', v'). split; [done|].
        apply list_elem_of_fmap. by exists (k', v', ts'). }
      rewrite lookup_delete_ne by done.
      apply elem_of_app in Ha as [Ha|Ha].
      * apply list_elem_of_lookup in Ha as [i Hi].
        destruct (Hin (S i) k' v' ts' Hi) as [_ Hit].
        rewrite lookup_insert_ne; [by eauto|].
        intros ->. apply Hk. apply list_elem_of_fmap. exists (k', v'). split; [done|].
        apply list_elem_of_fmap. exists (k', v', ts'). split; [done|]. right.
        by eapply list_elem_of_lookup_2.
      * apply list_elem_of_singleton in Ha as [= -> -> ->].
        rewrite lookup_insert_eq. eauto.
  - rewrite Hl, Hnx. apply NoDup_cons. split; [|rewrite reverse_Permutation; apply NoDup_seq].
    rewrite elem_of_reverse, elem_of_seq. lia.
  - rewrite Hl, Hnx. simpl. by rewrite reverse_cons.
  - rewrite Hnx, lookup_insert_ne by lia. done.
Qed.

(** C7.  On a new cache of capacity 2 and for distinct keys [ka], [kb],
    [kc]: after [Add(ka); Add(kb)], [Get(ka)] finds the value of [ka]; the
    following [Add(kc)] reports an eviction, and what it evicted is [kb]:
    [ka] and [kc] are present, [kb] is not, the callback (if any) fired for
    [kb] alone, and the list reads [kc], [ka] from the front. *)
Theorem get_protects_from_eviction (ka kb kc : K) (va vb vc : V)
    (ta tb tc : list string) (cb : bool) :
  ka ≠ kb → ka ≠ kc → kb ≠ kc →
  ∃ c0, NewLRU 2 cb = Ok c0 ∧
    let c2 := (Add kb vb tb (Add ka va ta c0).1).1 in
    let g := Get ka c2 in
    let r := Add kc vc tc g.1 in
    g.2 = (Some va, true) ∧ r.2 = true ∧
    Contains ka r.1 = true ∧ Contains kc r.1 = true ∧ Contains kb r.1 = false ∧
    evicted r.1 = (if cb then [(kb, vb)] else []) ∧
    evictList r.1 = [2%nat; 0%nat] ∧
    kv_of r.1 2%nat = Some (kc, vc) ∧ kv_of r.1 0%nat = Some (ka, va).
Proof.
  intros Hab Hac Hbc. exists (fresh 2 cb). split; [by apply NewLRU_pos|]. cbv zeta.
  rewrite (Add_miss_fits ka); [|apply lookup_empty|by unfold Len]. cbn [fst].
  rewrite (Add_miss_fits kb);
    [|simpl; by rewrite lookup_insert_ne, lookup_empty|by unfold Len]. cbn [fst].
  unfold Get. simpl.
  rewrite lookup_insert_ne, lookup_insert_eq by done.
  rewrite lookup_insert_ne, lookup_insert_eq by done. simpl.
  change (list_MoveToFront 0%nat [1%nat; 0%nat]) with [0%nat; 1%nat].
  rewrite (Add_miss_evicts kc);
    [|simpl; by rewrite !lookup_insert_ne, lookup_empty|by unfold Len]. simpl.
  rewrite (removeOldest_snoc _ [2%nat; 0%nat] 1%nat (Entry.mk kb vb tb)); simpl.
  - unfold Contains, kv_of; simpl. split_and!; try done.
    + apply bool_decide_eq_true_2.
      rewrite lookup_delete_ne, !lookup_insert_ne, lookup_insert_eq by done. eauto.
    + apply bool_decide_eq_true_2.
      rewrite lookup_delete_ne, lookup_insert_eq by done. eauto.
    + apply bool_decide_eq_false_2. rewrite lookup_delete_eq. by intros [? ?].
  - apply (bool_decide_unpack _). by vm_compute.
  - done.
  - rewrite lookup_insert_ne, lookup_insert_eq by done. done.
Qed.

(** C8 (amended).  For a cache reached from a new one and holding [n]
    entries ([n] an [int]) and a capacity [s] that is a non-negative [int]:
    if [s < n], [Resize(s)] returns [n - s], keeps the [s] front-most
    elements, evicts exactly the [n - s] back-most ones (the callback, if
    any, fires once for each, oldest first) and stores [s]; when no call of
    the run dropped a tag, the keys of the elements evicted were contained
    and are contained no more, every other key is contained as before,
    with its value, and the tag index agrees with the entries that stay; if
    [s >= n] it evicts nothing, returns 0 and only stores [s]. *)
Theorem Resize_evicts_oldest (sz : Z) (cb : bool) (os : list (call K V)) (s : Z) :
  let c := run os (fresh sz cb) in
  0 ≤ s ≤ int_max → Len c ≤ int_max →
  let r := Resize s c in
  let gone := reverse (drop (Z.to_nat s) (evictList c)) in
  (s < Len c →
     r.2 = Len c - s ∧ size r.1 = s ∧
     evictList r.1 = take (Z.to_nat s) (evictList c) ∧ Len r.1 = s ∧
     Z.of_nat (length gone) = Len c - s ∧
     length (omap (kv_of c) gone) = length gone ∧
     evicted r.1 = evicted c ++ (if cb then omap (kv_of c) gone else []) ∧
     (keeps_tags_run os (fresh sz cb) = true →
        (∀ k, k ∈ (omap (kv_of c) gone).*1 →
              Contains k c = true ∧ Contains k r.1 = false) ∧
        (∀ k, k ∉ (omap (kv_of c) gone).*1 →
              Contains k r.1 = Contains k c ∧ Peek k r.1 = Peek k c) ∧
        tag_index_ok r.1)) ∧
  (Len c ≤ s → r = (set_size s c, 0)).
Proof.
  intros c Hs Hmax r gone.
  assert (Hwf : wf c) by apply wf_run, wf_fresh.
  assert (Hcb : onEvict c = cb) by apply onEvict_run.
  split.
  - intros Hlt.
    destruct (Resize_shrink s c Hwf) as (Hn & Hsz & Hl & Hev & _ & Hh & _); [lia..|].
    fold r in Hn, Hsz, Hl, Hev, Hh. rewrite Hcb in Hev.
    split_and!; try done.
    + unfold Len in *. rewrite Hl, length_take. lia.
    + unfold gone, Len in *. rewrite length_reverse, length_drop. lia.
    + apply length_kvs; [done|]. intros el Hel. unfold gone in Hel.
      rewrite elem_of_reverse in Hel. by eapply subseteq_drop.
    + intros Hos.
      assert (Hc : consistent c) by (apply consistent_run; [apply consistent_fresh|done]).
      assert (Hi : ∀ k, items r.1 !! k =
                if decide (k ∈ (omap (kv_of c) gone).*1) then None else items c !! k).
      { intros k. apply Resize_shrink_items; [done|lia|done]. }
      split_and!.
      * intros k Hk. pose proof (Hi k) as Hik. rewrite decide_True in Hik by done.
        split; [|unfold Contains; rewrite Hik; apply bool_decide_eq_false; by intros [? ?]].
        apply elem_of_kv_keys in Hk as (el & ent & Hel & Hent & Hkey).
        unfold Contains. apply bool_decide_eq_true. exists el.
        apply consistent_lookup; [done|]. unfold gone in Hel.
        rewrite elem_of_reverse in Hel. split; [by eapply subseteq_drop|eauto].
      * intros k Hk. pose proof (Hi k) as Hik. rewrite decide_False in Hik by done.
        unfold Contains, Peek. by rewrite Hik, Hh.
      * by apply cons_tags, (consistent_step c (CResize s)).
  - intros Hge. apply Resize_grow. lia.
Qed.

(** C9 (fails on the code).  After [Add(k, v1, "a")], [Add(k, v2, "b")],
    [Invalidate(["a"])], [Add(k, v3)] and [Invalidate(["a"])] on a new cache
    of capacity 2, the list holds one element and the key index none;
    [Keys] then writes past the end of its slice and panics. *)
Theorem Keys_panics_on_orphan k (v1 v2 v3 : V) (cb : bool) :
  Len (orphaned k v1 v2 v3 cb) = 1 ∧
  base.size (items (orphaned k v1 v2 v3 cb)) = 0%nat ∧
  Contains k (orphaned k v1 v2 v3 cb) = false ∧
  Keys (orphaned k v1 v2 v3 cb) = None.
Proof. rewrite orphaned_eq. done. Qed.

(** C10 (amended).  For a cache reached from a new one, holding [n]
    entries, and [s <= 0] with [n - s] an [int]: [Resize(s)] returns
    [n - s], evicts every entry (the callback, if any, fires once for each,
    oldest first) and stores [s]; every [Add] that follows returns true and
    evicts the entry it has just added, leaving the cache empty. *)
Theorem Resize_nonpos_empties (sz : Z) (cb : bool) (os : list (call K V)) (s : Z)
    (adds : list (K * V * list string)) :
  let c := run os (fresh sz cb) in
  s ≤ 0 → Len c - s ≤ int_max →
  let r := Resize s c in
  let a := Adds adds r.1 in
  r.2 = Len c - s ∧ size r.1 = s ∧ evictList r.1 = [] ∧ items r.1 = ∅ ∧
  evicted r.1 = evicted c ++ (if cb then omap (kv_of c) (reverse (evictList c)) else []) ∧
  length (omap (kv_of c) (reverse (evictList c))) = length (evictList c) ∧
  a.2 = replicate (length adds) true ∧ size a.1 = s ∧
  evictList a.1 = [] ∧ items a.1 = ∅ ∧
  evicted a.1 = evicted r.1 ++ (if cb then (λ x, (x.1.1, x.1.2)) <$> adds else []).
Proof.
  intros c Hs Hmax r a.
  assert (Hwf : wf c) by apply wf_run, wf_fresh.
  assert (Hcb : onEvict c = cb) by apply onEvict_run.
  destruct (Resize_nonpos s c Hwf Hs Hmax) as (Hn & Hsz & Hl & Hi & Hev & Hcb' & Hwf').
  fold r in Hn, Hsz, Hl, Hi, Hev, Hcb', Hwf'. rewrite Hcb in Hev, Hcb'.
  destruct (Adds_at_nonpos adds r.1 Hwf' Hl) as (Ha & Hal & Hai & Has & _ & Hae & _);
    [lia|].
  fold a in Ha, Hal, Hai, Has, Hae. rewrite Hcb' in Hae.
  split_and!; try done.
  rewrite <- (length_reverse (evictList c)). apply length_kvs; [done|].
  intros el. by rewrite elem_of_reverse.
Qed.

End claims.

(** * Concrete instances and counterexamples *)

(** C4 as stated fails: [Resize(-1)] on a new cache of capacity 1 leaves an
    empty list and a capacity of -1, below the number of elements. *)
Lemma negative_Resize_breaks_capacity_bound :
  let c := run [CResize (-1)] (fresh 1 false : LRU string nat) in
  Len c = 0 ∧ size c = -1 ∧ size c < Len c.
Proof. by vm_compute. Qed.

(** C4 (amended) on [mixed_calls], from a new cache of capacity 3. *)
Lemma size_within_capacity_witness :
  (0 < 3 ≤ int_max) ∧ forallb sized mixed_calls = true ∧
  keeps_tags_run mixed_calls (fresh 3 true) = true ∧
  let c := run mixed_calls (fresh 3 true) in
  Z.of_nat (base.size (items c)) ≤ Len c ∧ Len c ≤ size c ∧
  Z.of_nat (base.size (items c)) = Len c.
Proof.
  split; [by vm_compute|]. split; [reflexivity|]. split; [reflexivity|].
  destruct (size_within_capacity 3 true mixed_calls
              ltac:(by vm_compute) ltac:(by vm_compute)) as (Hle & Hcap & Heq).
  split_and!; [exact Hle|exact Hcap|exact (Heq ltac:(by vm_compute))].
Defined.

(** The equality of C4 needs the run to drop no tag: after the calls of
    C9, all of them within the hypotheses on [Resize], the list holds one
    element and the key index none. *)
Example dropped_tag_breaks_size_equality :
  let os := [CAdd "k" 1%nat ["a"]; CAdd "k" 2%nat ["b"]; CInvalidate ["a"];
             CAdd "k" 3%nat []; CInvalidate ["a"]] in
  let c := run os (fresh 2 true) in
  forallb sized os = true ∧ keeps_tags_run os (fresh 2 true) = false ∧
  Len c = 1 ∧ base.size (items c) = 0%nat.
Proof. by vm_compute. Qed.

(** C5 after [three_adds], with the two tags "x" and "y". *)
Lemma double_tag_invalidated_once_witness :
  let c := run three_adds (fresh 5 true) in
  let c1 := (Add "k" 7%nat ["x"; "y"] c).1 in
  let r := Invalidate ["x"; "y"] c1 in
  Contains "k" c1 = true ∧ Len c1 = Len c + 1 ∧
  r.2 = 1 ∧ evicted r.1 = evicted c ++ [("k", 7%nat)] ∧
  Contains "k" r.1 = false ∧ evictList r.1 = evictList c ∧ items r.1 = items c ∧
  tags r.1 = tags c.
Proof.
  apply (double_tag_invalidated_once three_adds 5 "k" 7%nat "x" "y");
    by vm_compute.
Defined.

(** C6 with capacity 2 and the keys "a", "b", "c". *)
Lemma capacity_bound_evicts_first_witness :
  ∃ c0, NewLRU 2 true = Ok c0 ∧
    let r := Adds [("a", 1%nat, []); ("b", 2%nat, ["t"]); ("c", 3%nat, [])] c0 in
    r.2 = [false; false; true] ∧
    Len r.1 = 2 ∧
    evicted r.1 = [("a", 1%nat)] ∧
    Contains "a" r.1 = false ∧
    (∀ a, a ∈ [("b", 2%nat, ["t"]); ("c", 3%nat, [])] → Contains a.1.1 r.1 = true).
Proof.
  apply (capacity_bound_evicts_first 2 true "a" 1%nat []
           [("b", 2%nat, ["t"]); ("c", 3%nat, [])]).
  - lia.
  - reflexivity.
  - apply (bool_decide_unpack _). by vm_compute.
Defined.

(** C7 with the keys "a", "b", "c". *)
Lemma get_protects_from_eviction_witness :
  ∃ c0, NewLRU 2 true = Ok c0 ∧
    let c2 := (Add "b" 2%nat [] (Add "a" 1%nat ["t"] c0).1).1 in
    let g := Get "a" c2 in
    let r := Add "c" 3%nat [] g.1 in
    g.2 = (Some 1%nat, true) ∧ r.2 = true ∧
    Contains "a" r.1 = true ∧ Contains "c" r.1 = true ∧ Contains "b" r.1 = false ∧
    evicted r.1 = [("b", 2%nat)] ∧
    evictList r.1 = [2%nat; 0%nat] ∧
    kv_of r.1 2%nat = Some ("c", 3%nat) ∧ kv_of r.1 0%nat = Some ("a", 1%nat).
Proof.
  apply (get_protects_from_eviction "a" "b" "c" 1%nat 2%nat 3%nat ["t"] [] [] true);
    by vm_compute.
Defined.

(** C8 as stated fails below zero: with one entry, [Resize(-1)] returns 2
    but can only evict the one entry there is; and [Resize] of the least
    [int] overflows the subtraction, evicts nothing and returns 0. *)
Lemma Resize_negative_miscounts :
  let r := Resize (-1) one_entry in
  let r' := Resize int_min one_entry in
  Len one_entry = 1 ∧ evicted one_entry = [] ∧
  r.2 = 2 ∧ evicted r.1 = [("k", 1%nat)] ∧
  Z.of_nat (length (evicted r.1)) < Len one_entry - (-1) ∧
  int_min < Len one_entry ∧ r'.2 = 0 ∧ evictList r'.1 = evictList one_entry.
Proof. by vm_compute. Qed.

(** C8 (amended): three entries resized to 1, then to 7. *)
Lemma Resize_evicts_oldest_witness :
  let c := run three_adds (fresh 5 true) in
  (Resize 1 c).2 = 2 ∧ evictList (Resize 1 c).1 = [2%nat] ∧
  evicted (Resize 1 c).1 = [("a", 1%nat); ("b", 2%nat)] ∧
  (Contains "a" c = true ∧ Contains "a" (Resize 1 c).1 = false) ∧
  (Contains "c" (Resize 1 c).1 = Contains "c" c ∧
   Peek "c" (Resize 1 c).1 = Peek "c" c) ∧
  Resize 7 c = (set_size 7 c, 0).
Proof.
  pose proof (Resize_evicts_oldest 5 true three_adds 1
                ltac:(by vm_compute) ltac:(by vm_compute)) as [H1 _].
  pose proof (Resize_evicts_oldest 5 true three_adds 7
                ltac:(by vm_compute) ltac:(by vm_compute)) as [_ H7].
  destruct (H1 ltac:(by vm_compute)) as (Hn & _ & Hl & _ & _ & _ & Hev & Hkeys).
  destruct (Hkeys ltac:(by vm_compute)) as (Hgone & Hkept & _).
  split; [exact Hn|]. split; [exact Hl|]. split; [exact Hev|].
  split; [|split; [|exact (H7 ltac:(by vm_compute))]].
  - apply (Hgone "a"). apply (bool_decide_unpack _). by vm_compute.
  - apply (Hkept "c"). apply (bool_decide_unpack _). by vm_compute.
Defined.

(** C10 as stated fails: with one entry, [Resize(-1)] returns 2, not the
    previous length 1; and [Resize] of the least [int] evicts nothing. *)
Lemma Resize_nonpos_not_previous_length :
  let r := Resize (-1) one_entry in
  let r' := Resize int_min one_entry in
  Len one_entry = 1 ∧ r.2 = 2 ∧ Len one_entry < r.2 ∧
  int_min ≤ 0 ∧ r'.2 = 0 ∧ Len r'.1 = 1 ∧ size r'.1 = int_min.
Proof. by vm_compute. Qed.

(** C10 (amended): three entries resized to -2, then two more calls of
    [Add]. *)
Lemma Resize_nonpos_empties_witness :
  let c := run three_adds (fresh 5 true) in
  let r := Resize (-2) c in
  let a := Adds [("z", 9%nat, ["t"]); ("z", 8%nat, [])] r.1 in
  r.2 = 5 ∧ size r.1 = -2 ∧ evictList r.1 = [] ∧ items r.1 = ∅ ∧
  evicted r.1 = [("a", 1%nat); ("b", 2%nat); ("c", 3%nat)] ∧
  a.2 = [true; true] ∧ evictList a.1 = [] ∧
  evicted a.1 = evicted r.1 ++ [("z", 9%nat); ("z", 8%nat)].
Proof.
  destruct (Resize_nonpos_empties 5 true three_adds (-2)
              [("z", 9%nat, ["t"]); ("z", 8%nat, [])]
              ltac:(by vm_compute) ltac:(by vm_compute))
    as (Hn & Hs & Hl & Hi & Hev & _ & Ha & _ & Hal & _ & Hae).
  split_and!; [exact Hn|exact Hs|exact Hl|exact Hi|exact Hev|exact Ha|exact Hal|exact Hae].
Defined.

(** The runs above drop no tag; re-adding a key under another tag does. *)
Example mixed_calls_keep_tags : keeps_tags_run mixed_calls (fresh 3 true) = true.
Proof. reflexivity. Qed.

Example retag_drops_a_tag :
  keeps_tags_run [CAdd "k" 1%nat ["a"]; CAdd "k" 2%nat ["b"]]
                 (fresh 2 true : LRU string nat) = false.
Proof. reflexivity. Qed.

Example mixed_calls_state :
  let c := run mixed_calls (fresh 3 true) in
  Keys c = Some [Some "e"] ∧ size c = 7 ∧
  evicted c = [("b", 2%nat); ("c", 3%nat); ("a", 1%nat); ("d", 4%nat)].
Proof. by vm_compute. Qed.

(** * Further properties of the operations *)

(** ** Buckets of the tag index *)

(** No bucket of the tag index is empty. *)
Lemma tag1_no_empty (el : Element) (m : gmap string (gset Element)) (t0 : string) :
  (∀ t b, m !! t = Some b → b ≠ ∅) →
  ∀ t b, tag1 el m t0 !! t = Some b → b ≠ ∅.
Proof.
  intros Hm t b. unfold tag1. destruct (decide (t = t0)) as [->|Hne].
  - rewrite lookup_insert_eq. intros [= <-] Hempty.
    assert (Hin : el ∈ ({[el]} ∪ (match m !! t0 with
                                   | Some _ => m | None => <[t0:=∅]> m end) !!! t0 : gset Element)).
    { apply elem_of_union. left. by apply elem_of_singleton. }
    rewrite Hempty in Hin. by apply not_elem_of_empty in Hin.
  - rewrite lookup_insert_ne by done.
    destruct (m !! t0); [|rewrite lookup_insert_ne by done]; apply Hm.
Qed.

Lemma untag1_no_empty (el : Element) (m : gmap string (gset Element)) (t0 : string) :
  (∀ t b, m !! t = Some b → b ≠ ∅) →
  ∀ t b, untag1 el m t0 !! t = Some b → b ≠ ∅.
Proof.
  intros Hm t b. unfold untag1.
  set (m1 := match m !! t0 with Some b0 => <[t0:=b0 ∖ {[el]}]> m | None => m end).
  assert (Hne : ∀ t', t' ≠ t0 → m1 !! t' = m !! t').
  { intros t' Ht'. unfold m1. destruct (m !! t0); [|done]. by rewrite lookup_insert_ne. }
  case_decide as Hsz.
  - destruct (decide (t = t0)) as [->|Ht]; [by rewrite lookup_delete_eq|].
    rewrite lookup_delete_ne, Hne by done. apply Hm.
  - destruct (decide (t = t0)) as [->|Ht]; [|rewrite Hne by done; apply Hm].
    intros Hb ->. apply Hsz. by rewrite (lookup_total_correct _ _ _ Hb), size_empty.
Qed.

Lemma foldl_tag1_no_empty (el : Element) ts (m : gmap string (gset Element)) :
  (∀ t b, m !! t = Some b → b ≠ ∅) →
  ∀ t b, foldl (tag1 el) m ts !! t = Some b → b ≠ ∅.
Proof.
  revert m. induction ts as [|t0 ts IH]; intros m Hm; [done|].
  cbn [foldl]. by apply IH, tag1_no_empty.
Qed.

Lemma foldl_untag1_no_empty (el : Element) ts (m : gmap string (gset Element)) :
  (∀ t b, m !! t = Some b → b ≠ ∅) →
  ∀ t b, foldl (untag1 el) m ts !! t = Some b → b ≠ ∅.
Proof.
  revert m. induction ts as [|t0 ts IH]; intros m Hm; [done|].
  cbn [foldl]. by apply IH, untag1_no_empty.
Qed.

(** Two tag indexes without empty buckets that hold the same elements
    under every tag are the same map. *)
Lemma tag_index_eq (m1 m2 : gmap string (gset Element)) :
  (∀ t b, m1 !! t = Some b → b ≠ ∅) → (∀ t b, m2 !! t = Some b → b ≠ ∅) →
  (∀ t, m1 !!! t = m2 !!! t) → m1 = m2.
Proof.
  intros H1 H2 Heq. apply map_eq. intros t. specialize (Heq t).
  rewrite !lookup_total_alt in Heq.
  destruct (m1 !! t) as [b1|] eqn:E1, (m2 !! t) as [b2|] eqn:E2; simpl in Heq.
  - by rewrite Heq.
  - destruct (H1 t b1 E1). done.
  - destruct (H2 t b2 E2). done.
  - done.
Qed.

(** [untag] undoes [tag] for an element that was in no bucket. *)
Lemma tag_untag_id (el : Element) ts (m : gmap string (gset Element)) :
  (∀ t b, m !! t = Some b → b ≠ ∅) → (∀ t, el ∉ m !!! t) →
  foldl (untag1 el) (foldl (tag1 el) m ts) ts = m.
Proof.
  intros Hne Hel. apply tag_index_eq; [|done|].
  - by apply foldl_untag1_no_empty, foldl_tag1_no_empty.
  - intros t. rewrite foldl_untag1_total, foldl_tag1_total.
    case_decide; [|done]. apply set_eq. intros x.
    rewrite elem_of_difference, elem_of_union, elem_of_singleton.
    split; [tauto|]. intros Hx. split; [by right|]. intros ->. by apply (Hel t).
Qed.

(** ** Reachable states *)

Section reach_facts.
Context {K V : Type} `{Countable K}.
Implicit Types (c : LRU K V) (el : Element) (k : K) (v : V) (ts : list string).

Lemma consistent_reach (sz : Z) (cb : bool) (os : list (call K V)) :
  keeps_tags_run os (fresh sz cb) = true → consistent (run os (fresh sz cb)).
Proof. intros Hos. apply consistent_run; [apply consistent_fresh|done]. Qed.

Lemma wf_reach (sz : Z) (cb : bool) (os : list (call K V)) :
  wf (run os (fresh sz cb)).
Proof. apply wf_run, wf_fresh. Qed.

Lemma Contains_true k c : Contains k c = true ↔ is_Some (items c !! k).
Proof. unfold Contains. apply bool_decide_eq_true. Qed.

Lemma Contains_false k c : Contains k c = false ↔ items c !! k = None.
Proof.
  unfold Contains. rewrite bool_decide_eq_false, eq_None_not_Some. done.
Qed.

(** In a well-formed state [Peek] of a present key finds a value. *)
Lemma Peek_hit k c el ent :
  items c !! k = Some el → heap c !! el = Some ent →
  Peek k c = (Some (Entry.value ent), true).
Proof. intros Hk Hel. unfold Peek. by rewrite Hk, Hel. Qed.

(** The state after [Add] of a new key that evicts, when the list was not
    empty: the back-most element goes. *)
Lemma Add_miss_evicts_back k v ts c l x ent :
  wf c → items c !! k = None → Len c + 1 > size c →
  evictList c = l ++ [x] → heap c !! x = Some ent →
  Add k v ts c =
  (mkLRU (size c) (next c :: l)
         (delete (Entry.key ent) (<[k := next c]> (items c)))
         (foldl (untag1 x) (foldl (tag1 (next c)) (tags c) ts) (Entry.tags ent))
         (onEvict c) (<[next c := Entry.mk k v ts]> (heap c)) (S (next c))
         (if onEvict c then evicted c ++ [(Entry.key ent, Entry.value ent)]
          else evicted c), true).
Proof.
  intros Hwf Hk Hfull Hl Hx. rewrite Add_miss_evicts by done.
  pose proof (wf_pushed k v ts c Hwf) as Hwf3.
  assert (Hne : x ≠ next c).
  { intros ->. assert (Hin : next c ∈ evictList c).
    { rewrite Hl. apply elem_of_app. right. left. }
    apply (wf_list c Hwf) in Hin. lia. }
  rewrite (removeOldest_snoc _ (next c :: l) x ent); simpl.
  - done.
  - apply Hwf3.
  - by rewrite Hl.
  - by rewrite lookup_insert_ne.
Qed.

Lemma nonempty_snoc (l : list Element) : l ≠ [] → ∃ l' x, l = l' ++ [x].
Proof.
  intros Hne. destruct (last l) as [x|] eqn:Hl.
  - apply last_Some in Hl as [l' ->]. eauto.
  - by apply last_None in Hl.
Qed.

Lemma Add_then_Peek k v ts c :
  consistent c → 1 ≤ size c →
  Peek k (Add k v ts c).1 = (Some v, true).
Proof.
  intros [Hwf Ht Hi] Hsz. destruct (items c !! k) as [el|] eqn:Hk.
  - destruct (wf_items c Hwf k el Hk) as (Hel & ent & Hent & Hkey).
    rewrite (Add_hit _ _ _ _ el) by done. cbn [fst].
    apply (Peek_hit _ _ el (Entry.mk (Entry.key ent) v ts)); simpl; [done|].
    by rewrite lookup_alter_eq, Hent.
  - destruct (decide (Len c + 1 ≤ size c)) as [Hfit|Hfull].
    + rewrite Add_miss_fits by done. cbn [fst].
      apply (Peek_hit _ _ (next c) (Entry.mk k v ts)); simpl; apply lookup_insert_eq.
    + destruct (nonempty_snoc (evictList c)) as (l & x & Hl).
      { intros Hnil. unfold Len in Hfull. rewrite Hnil in Hfull. simpl in Hfull. lia. }
      destruct (Hi x) as (ent & Hent & Hkey).
      { rewrite Hl. apply elem_of_app. right. left. }
      rewrite (Add_miss_evicts_back k v ts c l x ent) by (done || lia). cbn [fst].
      apply (Peek_hit _ _ (next c) (Entry.mk k v ts)); simpl.
      * rewrite lookup_delete_ne, lookup_insert_eq; [done|]. intros Heq.
        rewrite Heq in Hkey. congruence.
      * apply lookup_insert_eq.
Qed.

Lemma Get_result k c : (Get k c).2 = Peek k c.
Proof. unfold Get, Peek. by destruct (items c !! k). Qed.

Lemma Get_frame k c :
  size (Get k c).1 = size c ∧ items (Get k c).1 = items c ∧
  tags (Get k c).1 = tags c ∧ onEvict (Get k c).1 = onEvict c ∧
  heap (Get k c).1 = heap c ∧ next (Get k c).1 = next c ∧
  evicted (Get k c).1 = evicted c.
Proof. unfold Get. by destruct (items c !! k). Qed.

Lemma Peek_frame k c c' :
  items c' = items c → heap c' = heap c → Peek k c' = Peek k c.
Proof. intros Hi Hh. unfold Peek. by rewrite Hi, Hh. Qed.

(** What [FindByTags] returns, read off the buckets. *)
Lemma elem_of_FindByTags k ts c :
  k ∈ FindByTags ts c ↔
  ∃ t el ent, t ∈ ts ∧ el ∈ tags c !!! t ∧ heap c !! el = Some ent ∧ Entry.key ent = k.
Proof.
  unfold FindByTags.
  assert (Hgen : ∀ acc : list K,
    k ∈ foldl (λ keys t,
                 match tags c !! t with
                 | Some els => keys ++ omap (λ el, Entry.key <$> heap c !! el) (elements els)
                 | None => keys
                 end) acc ts ↔
    k ∈ acc ∨ ∃ t el ent, t ∈ ts ∧ el ∈ tags c !!! t ∧ heap c !! el = Some ent ∧
                          Entry.key ent = k).
  { induction ts as [|t ts IH]; intros acc; cbn [foldl].
    - split; [by left|]. intros [?|(t & el & ent & Ht & _)]; [done|].
      by apply elem_of_nil in Ht.
    - rewrite IH. clear IH. split.
      + intros [Hacc|(t' & el & ent & Ht' & Hrest)].
        * destruct (tags c !! t) as [els|] eqn:Hb; [|by left].
          apply elem_of_app in Hacc as [?|Hin]; [by left|]. right.
          apply list_elem_of_omap in Hin as (el & Hel & Hk).
          apply elem_of_elements in Hel.
          destruct (heap c !! el) as [ent|] eqn:Hent; [|done].
          injection Hk as Hk. exists t, el, ent. split_and!; try done; [left|].
          by rewrite (lookup_total_correct _ _ _ Hb).
        * right. exists t', el, ent. split; [by right|done].
      + intros [Hacc|(t' & el & ent & Ht' & Hel & Hent & Hk)].
        * left. destruct (tags c !! t); [|done]. apply elem_of_app. by left.
        * apply elem_of_cons in Ht' as [->|Ht'].
          -- left. rewrite lookup_total_alt in Hel.
             destruct (tags c !! t) as [els|] eqn:Hb; simpl in Hel;
               [|by apply not_elem_of_empty in Hel].
             apply elem_of_app. right. apply list_elem_of_omap. exists el.
             split; [by apply elem_of_elements|]. by rewrite Hent, <- Hk.
          -- right. exists t', el, ent. done. }
  rewrite Hgen. split; [|by right]. intros [Hnil|?]; [|done].
  by apply elem_of_nil in Hnil.
Qed.

Lemma list_MoveToFront_Permutation (e : Element) (l : list Element) :
  NoDup l → list_MoveToFront e l ≡ₚ l.
Proof.
  intros Hnd. apply NoDup_Permutation; [by apply NoDup_list_MoveToFront|done|].
  intros x. apply elem_of_list_MoveToFront.
Qed.

Lemma list_Remove_MoveToFront (e : Element) (l : list Element) :
  list_Remove e (list_MoveToFront e l) = list_Remove e l.
Proof.
  unfold list_MoveToFront. repeat case_decide; try done.
  unfold list_Remove at 1. rewrite filter_cons_False by tauto.
  apply list_Remove_absent. rewrite elem_of_list_Remove. tauto.
Qed.

Lemma head_list_MoveToFront (e : Element) (l : list Element) :
  e ∈ l → head (list_MoveToFront e l) = Some e.
Proof.
  intros He. unfold list_MoveToFront. rewrite decide_True by done. by case_decide.
Qed.

(** In a well-formed state [Remove] of a present key deletes that key. *)
Lemma Remove_hit k c el ent :
  items c !! k = Some el → heap c !! el = Some ent →
  Remove k c =
  (mkLRU (size c) (list_Remove el (evictList c)) (delete (Entry.key ent) (items c))
         (foldl (untag1 el) (tags c) (Entry.tags ent)) (onEvict c) (heap c) (next c)
         (if onEvict c then evicted c ++ [(Entry.key ent, Entry.value ent)]
          else evicted c), true).
Proof.
  intros Hk Hel. unfold Remove. by rewrite Hk, (removeElement_eq _ _ ent).
Qed.

Lemma fmap_Some_omap {A B} (g : A → option B) (l : list A) :
  (∀ x, x ∈ l → is_Some (g x)) → g <$> l = Some <$> omap g l.
Proof.
  induction l as [|x l IH]; intros Hall; [done|].
  destruct (Hall x ltac:(left)) as [y Hy]. cbn [fmap list_fmap omap list_omap].
  rewrite Hy. simpl. f_equal. apply IH. intros z Hz. apply Hall. by right.
Qed.

(** The keys of a consistent cache, oldest first. *)
Lemma consistent_key_list c :
  consistent c →
  let g := λ el, Entry.key <$> heap c !! el in
  let ks := omap g (reverse (evictList c)) in
  Keys c = Some (Some <$> ks) ∧ length ks = length (evictList c) ∧ NoDup ks ∧
  (∀ k, k ∈ ks ↔ is_Some (items c !! k)).
Proof.
  intros Hc g ks. pose proof Hc as [Hwf Ht Hi].
  assert (Hall : ∀ x, x ∈ reverse (evictList c) → is_Some (g x)).
  { intros x Hx. rewrite elem_of_reverse in Hx.
    destruct (Hi x Hx) as (ent & Hent & _). unfold g. rewrite Hent. eauto. }
  pose proof (fmap_Some_omap g _ Hall) as Hks. fold ks in Hks.
  assert (Hlen : length ks = length (evictList c)).
  { rewrite <- (length_fmap Some ks), <- Hks, length_fmap. apply length_reverse. }
  split_and!.
  - unfold Keys. cbv zeta. fold g. rewrite Hks, length_fmap, Hlen.
    rewrite (consistent_sizes c Hc), decide_True, Nat.sub_diag by done.
    simpl. by rewrite app_nil_r.
  - done.
  - apply (NoDup_fmap_1 Some). rewrite <- Hks.
    apply NoDup_fmap_2_strong; [|rewrite reverse_Permutation; apply Hwf].
    intros x y Hx Hy Heq. rewrite elem_of_reverse in Hx, Hy.
    destruct (Hi x Hx) as (ex & Hex & Hkx). destruct (Hi y Hy) as (ey & Hey & Hky).
    unfold g in Heq. rewrite Hex, Hey in Heq. simpl in Heq. injection Heq as Heq.
    rewrite Heq in Hkx. congruence.
  - intros k. unfold ks. rewrite list_elem_of_omap. split.
    + intros (x & Hx & Hg). rewrite elem_of_reverse in Hx.
      destruct (Hi x Hx) as (ent & Hent & Hkey). unfold g in Hg.
      rewrite Hent in Hg. simpl in Hg. injection Hg as <-. eauto.
    + intros [x Hk]. destruct (wf_items c Hwf k x Hk) as (Hx & ent & Hent & Hkey).
      exists x. split; [by rewrite elem_of_reverse|]. unfold g. by rewrite Hent, <- Hkey.
Qed.

(** The callbacks of the loop of [Purge], in the order it ranges. *)
Lemma Purge_loop_trace (l : list (K * Element)) c :
  let fired := omap (λ '(k, el), (λ ent, (k, Entry.value ent)) <$> heap c !! el) l in
  evicted (foldl (λ c '(k, el),
                    let c' := match heap c !! el with
                              | Some ent => fire k (Entry.value ent) c
                              | None => c
                              end in
                    set_items (delete k (items c')) c') c l)
  = evicted c ++ (if onEvict c then fired else []).
Proof.
  cbv zeta. revert c. induction l as [|[k el] l IH]; intros c.
  - simpl. destruct (onEvict c); by rewrite app_nil_r.
  - cbn [foldl]. rewrite IH. cbn [omap list_omap]. simpl.
    destruct (heap c !! el) as [ent|] eqn:Hent; simpl; [|done].
    unfold fire. destruct (onEvict c) eqn:Hcb; simpl; rewrite ?Hcb, ?Hent; simpl.
    + by rewrite <- app_assoc.
    + done.
Qed.

Lemma Purge_evicted c :
  evicted (Purge c) = evicted c ++
    (if onEvict c
     then omap (λ '(k, el), (λ ent, (k, Entry.value ent)) <$> heap c !! el)
               (map_to_list (items c))
     else []).
Proof. unfold Purge. simpl. apply Purge_loop_trace. Qed.

Lemma consistent_Purge_wf c : wf c → consistent (Purge c).
Proof.
  intros Hwf. destruct (Purge_fields c) as (_ & Hl & Hi & Ht & _ & Hh & Hn).
  split; [by apply wf_Purge| |].
  - intros t x. rewrite Ht, Hl, lookup_total_empty. split.
    + intros Hx. by apply not_elem_of_empty in Hx.
    + intros [Hx _]. by apply elem_of_nil in Hx.
  - intros x. rewrite Hl. intros Hx. by apply elem_of_nil in Hx.
Qed.

Lemma no_elem_nil {A} (l : list A) : (∀ x, x ∉ l) → l = [].
Proof. destruct l as [|x l]; [done|]. intros Hno. destruct (Hno x). left. Qed.

Lemma Invalidate_no_buckets ts c : tags c = ∅ → Invalidate ts c = (c, 0).
Proof.
  intros Ht. unfold Invalidate. generalize 0.
  induction ts as [|t ts IH]; intros n; simpl; [done|].
  by rewrite Ht, lookup_empty, IH.
Qed.

(** In a consistent state, the keys [FindByTags] returns are the present
    keys whose entry carries one of the tags. *)
Lemma consistent_FindByTags k ts c :
  consistent c →
  (k ∈ FindByTags ts c ↔
   ∃ el ent, items c !! k = Some el ∧ heap c !! el = Some ent ∧
             ∃ t, t ∈ ts ∧ t ∈ Entry.tags ent).
Proof.
  intros [Hwf Ht Hi]. rewrite elem_of_FindByTags. split.
  - intros (t & el & ent & Hts & Hb & Hent & Hk).
    apply Ht in Hb as (Hel & ent' & Hent' & Htag).
    rewrite Hent in Hent'. injection Hent' as <-.
    destruct (Hi el Hel) as (ent' & Hent' & Hkey).
    rewrite Hent in Hent'. injection Hent' as <-. rewrite Hk in Hkey. eauto 10.
  - intros (el & ent & Hk & Hent & t & Hts & Htag).
    destruct (wf_items c Hwf k el Hk) as (Hel & ent' & Hent' & Hkey).
    rewrite Hent in Hent'. injection Hent' as <-.
    exists t, el, ent. split_and!; try done. apply Ht. eauto.
Qed.

Lemma removeElement_no_empty el c :
  (∀ t b, tags c !! t = Some b → b ≠ ∅) →
  ∀ t b, tags (removeElement el c) !! t = Some b → b ≠ ∅.
Proof.
  intros Hm. rewrite removeElement_tags.
  destruct (heap c !! el); [by apply foldl_untag1_no_empty|done].
Qed.

Lemma removeOldest_no_empty c :
  (∀ t b, tags c !! t = Some b → b ≠ ∅) →
  ∀ t b, tags (removeOldest c) !! t = Some b → b ≠ ∅.
Proof.
  intros Hm. unfold removeOldest.
  destruct (list_Back _); [by apply removeElement_no_empty|done].
Qed.

Lemma step_no_empty c (o : call K V) :
  (∀ t b, tags c !! t = Some b → b ≠ ∅) →
  ∀ t b, tags (step c o) !! t = Some b → b ≠ ∅.
Proof.
  intros Hm. destruct o; cbn [step]; try done.
  - unfold Add. destruct (items c !! key); cbn [fst].
    + simpl. by apply foldl_tag1_no_empty, foldl_untag1_no_empty.
    + simpl. case_bool_decide; [apply removeOldest_no_empty|];
        simpl; by apply foldl_tag1_no_empty.
  - unfold Get. by destruct (items c !! key).
  - unfold Remove. destruct (items c !! key); [|done].
    by apply removeElement_no_empty.
  - unfold RemoveOldest. destruct (list_Back _); [|done].
    by apply removeElement_no_empty.
  - unfold Resize. simpl. induction (Z.to_nat _) as [|n IH]; simpl; [done|].
    by apply removeOldest_no_empty.
  - unfold Invalidate. generalize 0. revert c Hm.
    induction ts as [|t0 ts IH]; intros c Hm n; simpl; [done|].
    destruct (tags c !! t0) as [els|]; [|by apply IH].
    assert (Hf : ∀ t b,
      tags (foldl (λ '(c, removed) el, (removeElement el c, removed + 1))
                  (c, n) (elements els)).1 !! t = Some b → b ≠ ∅).
    { clear IH. generalize (elements els). intros l. revert c Hm n.
      induction l as [|x l IHl]; intros c Hm n; simpl; [done|].
      by apply IHl, removeElement_no_empty. }
    destruct (foldl _ (c, n) (elements els)) as [c' n']. by apply IH.
Qed.

(** One pass of [Invalidate] over a bucket of live elements. *)
Lemma Invalidate_bucket_pass (els : list Element) c (n : Z) :
  consistent c → NoDup els → (∀ x, x ∈ els → x ∈ evictList c) →
  let r := foldl (λ '(c, removed) el, (removeElement el c, removed + 1)) (c, n) els in
  consistent r.1 ∧ heap r.1 = heap c ∧ size r.1 = size c ∧
  r.2 = n + Z.of_nat (length els) ∧
  (∀ x, x ∈ evictList r.1 ↔ x ∈ evictList c ∧ x ∉ els) ∧
  (length (evictList r.1) + length els = length (evictList c))%nat ∧
  length (evicted r.1) =
    (length (evicted c) + if onEvict c then length els else 0)%nat.
Proof.
  cbv zeta. revert c n.
  induction els as [|el els IH]; intros c n Hc Hnd Hin.
  - simpl. split_and!; try done; try lia.
    + intros x. split; [|tauto]. intros Hx. split; [done|apply not_elem_of_nil].
    + destruct (onEvict c); lia.
  - apply NoDup_cons in Hnd as [Hel Hnd].
    assert (Hlive : el ∈ evictList c) by (apply Hin; left).
    destruct (cons_items c Hc el Hlive) as (ent & Hent & _).
    cbn [foldl]. destruct (IH (removeElement el c) (n + 1)) as
      (Hc' & Hh & Hs & Hn & Hl & Hlen & Hev).
    + by apply consistent_removeElement.
    + done.
    + intros x Hx. rewrite removeElement_evictList, elem_of_list_Remove.
      split; [apply Hin; by right|]. intros ->. done.
    + rewrite removeElement_evictList in Hl, Hlen.
      rewrite removeElement_evicted, Hent, removeElement_onEvict in Hev.
      destruct (removeElement_frame el c) as (Hs1 & _ & Hh1 & _).
      pose proof (length_list_Remove el _ (wf_nodup c (cons_wf c Hc)) Hlive) as Hrm.
      split_and!; try done; try congruence.
      * rewrite Hn. simpl. lia.
      * intros x. rewrite Hl, elem_of_list_Remove, not_elem_of_cons. tauto.
      * simpl. lia.
      * rewrite Hev. destruct (onEvict c); [rewrite length_app|]; simpl; lia.
Qed.

(** [Invalidate] removes the live elements that carry one of the tags. *)
Lemma Invalidate_pass ts c (n : Z) :
  consistent c →
  let r := foldl (λ '(c, removed) t,
                    match tags c !! t with
                    | Some els =>
                        foldl (λ '(c, removed) el, (removeElement el c, removed + 1))
                              (c, removed) (elements els)
                    | None => (c, removed)
                    end) (c, n) ts in
  consistent r.1 ∧ heap r.1 = heap c ∧ size r.1 = size c ∧
  (∀ x, x ∈ evictList r.1 ↔
        x ∈ evictList c ∧ ∀ ent t, heap c !! x = Some ent → t ∈ ts → t ∉ Entry.tags ent) ∧
  r.2 = n + (Z.of_nat (length (evictList c)) - Z.of_nat (length (evictList r.1))) ∧
  Z.of_nat (length (evicted r.1)) =
    Z.of_nat (length (evicted c)) + (if onEvict c then r.2 - n else 0).
Proof.
  cbv zeta. revert c n. induction ts as [|t ts IH]; intros c n Hc.
  - simpl. split_and!; try done; try lia.
    + intros x. split; [|tauto]. intros Hx. split; [done|].
      intros ent t _ Ht. by apply elem_of_nil in Ht.
    + destruct (onEvict c); lia.
  - cbn [foldl]. destruct (tags c !! t) as [els|] eqn:Hb.
    + assert (Hlive : ∀ x, x ∈ elements els → x ∈ evictList c).
      { intros x Hx. apply elem_of_elements in Hx.
        apply (cons_tags c Hc t x). by rewrite (lookup_total_correct _ _ _ Hb). }
      destruct (Invalidate_bucket_pass (elements els) c n Hc (NoDup_elements els) Hlive)
        as (Hc1 & Hh1 & Hs1 & Hn1 & Hl1 & Hlen1 & Hev1).
      pose proof (foldl_removeElement_onEvict (elements els) c n) as Hcb1.
      destruct (foldl _ (c, n) (elements els)) as [c1 n1]. cbn [fst snd] in *.
      destruct (IH c1 n1 Hc1) as (Hc2 & Hh2 & Hs2 & Hl2 & Hn2 & Hev2).
      rewrite Hcb1 in Hev2.
      split_and!; try done; try congruence.
      * intros x. rewrite Hl2, Hl1, Hh1. split.
        -- intros [[Hx Hnot] Hts]. split; [done|].
           intros ent t' Hent Ht'. apply elem_of_cons in Ht' as [->|Ht']; [|by eapply Hts].
           intros Htag. apply Hnot. apply elem_of_elements.
           rewrite <- (lookup_total_correct _ _ _ Hb). apply (cons_tags c Hc). eauto.
        -- intros [Hx Hts]. split; [split; [done|]|].
           ++ intros Hel. apply elem_of_elements in Hel.
              rewrite <- (lookup_total_correct _ _ _ Hb) in Hel.
              apply (cons_tags c Hc) in Hel as (_ & ent & Hent & Htag).
              apply (Hts ent t Hent); [left|done].
           ++ intros ent t' Hent Ht'. apply (Hts ent t' Hent). by right.
      * lia.
      * rewrite Hev2, Hev1. destruct (onEvict c); lia.
    + destruct (IH c n Hc) as (Hc2 & Hh2 & Hs2 & Hl2 & Hn2 & Hev2).
      split_and!; try done.
      intros x. rewrite Hl2. split.
      * intros [Hx Hts]. split; [done|].
        intros ent t' Hent Ht'. apply elem_of_cons in Ht' as [->|Ht']; [|by eapply Hts].
        intros Htag. assert (Hin : x ∈ tags c !!! t) by (apply (cons_tags c Hc); eauto).
        rewrite lookup_total_alt, Hb in Hin. by apply not_elem_of_empty in Hin.
      * intros [Hx Hts]. split; [done|].
        intros ent t' Hent Ht'. apply (Hts ent t' Hent). by right.
Qed.

Lemma foldl_removeElement_size (els : list Element) c (n : Z) :
  size (foldl (λ '(c, removed) el, (removeElement el c, removed + 1)) (c, n) els).1
  = size c.
Proof.
  revert c n. induction els as [|el els IH]; intros c n; simpl; [done|].
  by rewrite IH, removeElement_size.
Qed.

Lemma step_size c (o : call K V) :
  size (step c o) = match o with CResize s => s | _ => size c end.
Proof.
  destruct o; cbn [step]; try done.
  - unfold Add. destruct (items c !! key); cbn [fst]; [done|].
    simpl. case_bool_decide; [by rewrite removeOldest_size|done].
  - apply Get_frame.
  - unfold Remove. destruct (items c !! key); [apply removeElement_size|done].
  - unfold RemoveOldest. destruct (list_Back _); [apply removeElement_size|done].
  - unfold Invalidate. generalize 0. revert c.
    induction ts as [|t ts IH]; intros c n; simpl; [done|].
    destruct (tags c !! t) as [els|]; [|apply IH].
    pose proof (foldl_removeElement_size (elements els) c n) as Hs.
    destruct (foldl _ (c, n) (elements els)) as [c' n']. by rewrite IH.
  - apply Purge_fields.
Qed.

Lemma run_no_empty (os : list (call K V)) c :
  (∀ (t : string) (b : gset Element), tags c !! t = Some b → b ≠ ∅) →
  ∀ (t : string) (b : gset Element), tags (run os c) !! t = Some b → b ≠ ∅.
Proof.
  unfold run. revert c. induction os as [|o os IH]; intros c Hm; simpl; [done|].
  by apply IH, step_no_empty.
Qed.

(** [Keys] and the order of the list *)

Lemma list_MoveToFront_cons (e : Element) (l : list Element) :
  NoDup l → e ∈ l → list_MoveToFront e l = e :: list_Remove e l.
Proof.
  intros Hnd He. unfold list_MoveToFront. rewrite decide_True by done.
  case_decide as Hh; [|done].
  destruct l as [|x l']; [done|]. simpl in Hh. injection Hh as ->.
  apply NoDup_cons in Hnd as [Hn _]. by rewrite list_Remove_head.
Qed.

Lemma Keys_of_list c :
  base.size (items c) = length (evictList c) →
  (∀ el, el ∈ evictList c → is_Some (heap c !! el)) →
  Keys c = Some (Some <$> omap (λ el, Entry.key <$> heap c !! el) (reverse (evictList c))).
Proof.
  intros Hsz Hall. unfold Keys. cbv zeta.
  rewrite length_fmap, length_reverse, Hsz, decide_True, Nat.sub_diag by done.
  simpl. rewrite app_nil_r. f_equal. apply fmap_Some_omap.
  intros x Hx. rewrite elem_of_reverse in Hx. destruct (Hall x Hx) as [ent ->].
  simpl. eauto.
Qed.

Lemma omap_key_ext (h1 h2 : gmap Element (entry K V)) (l : list Element) :
  (∀ x, x ∈ l → Entry.key <$> h1 !! x = Entry.key <$> h2 !! x) →
  omap (λ el, Entry.key <$> h1 !! el) l = omap (λ el, Entry.key <$> h2 !! el) l.
Proof.
  induction l as [|x l IH]; intros Hx; [done|]. cbn [omap list_omap].
  rewrite (Hx x) by left. rewrite IH; [done|]. intros y Hy. apply Hx. by right.
Qed.

Lemma omap_key_Remove c el k (l : list Element) :
  consistent c → (∀ x, x ∈ l → x ∈ evictList c) → items c !! k = Some el →
  omap (λ x, Entry.key <$> heap c !! x) (list_Remove el l) =
  filter (λ k', k' ≠ k) (omap (λ x, Entry.key <$> heap c !! x) l).
Proof.
  intros Hc Hl Hk.
  destruct (wf_items c (cons_wf c Hc) k el Hk) as (_ & ent0 & Hent0 & Hkey0).
  induction l as [|x l IH]; [done|].
  assert (IH' := IH (λ y Hy, Hl y (list_elem_of_further _ _ _ Hy))).
  destruct (cons_items c Hc x (Hl x ltac:(left))) as (ent & Hent & Hkx).
  unfold list_Remove in *. cbn [omap list_omap]. rewrite Hent. simpl.
  destruct (decide (x = el)) as [->|Hne].
  - rewrite filter_cons_False by tauto.
    rewrite Hent0 in Hent. injection Hent as <-.
    rewrite filter_cons_False by tauto. done.
  - rewrite filter_cons_True by done. cbn [omap list_omap]. rewrite Hent. simpl.
    rewrite filter_cons_True; [by rewrite IH'|].
    intros Heq. rewrite Heq in Hkx. congruence.
Qed.

(** [Keys] after an element moved to the front. *)
Lemma Keys_moved c c' el k :
  consistent c → items c !! k = Some el →
  evictList c' = list_MoveToFront el (evictList c) → items c' = items c →
  (∀ x, Entry.key <$> heap c' !! x = Entry.key <$> heap c !! x) →
  Keys c' = Some (Some <$> (filter (λ k', k' ≠ k)
                    (omap (λ x, Entry.key <$> heap c !! x) (reverse (evictList c)))
                  ++ [k])).
Proof.
  intros Hc Hk Hl Hi Hh. pose proof (cons_wf c Hc) as Hwf.
  destruct (wf_items c Hwf k el Hk) as (Hel & ent & Hent & Hkey).
  rewrite Keys_of_list.
  - rewrite (omap_key_ext (heap c') (heap c)) by done.
    rewrite Hl, list_MoveToFront_cons, reverse_cons, omap_app by (done || apply Hwf).
    unfold list_Remove. rewrite <- filter_reverse. fold (list_Remove el (reverse (evictList c))).
    rewrite (omap_key_Remove c el k); [|done|by intros x; rewrite elem_of_reverse|done].
    cbn [omap list_omap]. rewrite Hent. simpl. by rewrite Hkey.
  - rewrite Hi, Hl, length_list_MoveToFront by apply Hwf. by apply consistent_sizes.
  - intros x Hx. rewrite Hl, elem_of_list_MoveToFront in Hx.
    destruct (cons_items c Hc x Hx) as (e & He & _).
    specialize (Hh x). rewrite He in Hh. destruct (heap c' !! x); [eauto|done].
Qed.

(** ** The callbacks and the elements that left *)

Lemma omap_ext_in {A B} (f g : A → option B) (l : list A) :
  (∀ x, x ∈ l → f x = g x) → omap f l = omap g l.
Proof.
  induction l as [|x l IH]; intros Hx; [done|]. cbn [omap list_omap].
  rewrite (Hx x) by left. rewrite IH; [done|]. intros y Hy. apply Hx. by right.
Qed.

(** The elements that have left the list since [c], and their pairs. *)
Lemma departed_grow c c' (gone : list Element) :
  NoDup gone →
  (∀ x, (x < next c')%nat ∧ x ∉ evictList c' ↔
        ((x < next c)%nat ∧ x ∉ evictList c) ∨ x ∈ gone) →
  (∀ x, x ∈ gone → x ∈ evictList c) →
  (∀ x, (x < next c)%nat → x ∉ evictList c → kv_of c' x = kv_of c x) →
  departed c' ≡ₚ departed c ++ omap (kv_of c') gone.
Proof.
  intros Hnd Hiff Hdis Hkv. unfold departed.
  rewrite <- (omap_ext_in (kv_of c') (kv_of c) (filter _ (seq 0 (next c)))).
  2:{ intros x Hx. apply list_elem_of_filter in Hx as [Hx1 Hx2].
      apply elem_of_seq in Hx2. apply Hkv; [lia|done]. }
  rewrite <- omap_app. f_equiv. apply NoDup_Permutation.
  - apply NoDup_filter, NoDup_seq.
  - apply NoDup_app. split_and!; [apply NoDup_filter, NoDup_seq| |done].
    intros x Hx Hg. apply list_elem_of_filter in Hx as [Hx _]. by apply Hx, Hdis.
  - intros x. rewrite elem_of_app, !list_elem_of_filter, !elem_of_seq.
    specialize (Hiff x). split.
    + intros [Hx1 Hx2]. destruct Hiff as [[[? ?]|?] _]; [split; [lia|done]| |by right].
      left. split; [done|lia].
    + intros Hx. destruct Hiff as [_ [? ?]]; [|split; [done|lia]].
      destruct Hx as [[? ?]|?]; [left; split; [lia|done]|by right].
Qed.

Lemma paid_removeElement el c :
  wf c → onEvict c = true → el ∈ evictList c →
  evicted c ≡ₚ departed c →
  evicted (removeElement el c) ≡ₚ departed (removeElement el c).
Proof.
  intros Hwf Hcb Hel Hp.
  destruct (wf_heap c Hwf el (wf_list c Hwf el Hel)) as [ent Hent].
  rewrite (departed_grow c (removeElement el c) [el]).
  - rewrite (removeElement_eq _ _ ent) by done. unfold kv_of. simpl.
    rewrite Hcb, Hent. simpl. by rewrite Hp.
  - apply NoDup_singleton.
  - intros x. destruct (removeElement_frame el c) as (_ & _ & _ & ->).
    rewrite removeElement_evictList, elem_of_list_Remove, list_elem_of_singleton.
    split.
    + intros [Hx Hno]. destruct (decide (x = el)) as [->|Hne]; [by right|].
      left. split; [done|]. intros Hin. by apply Hno.
    + intros [[Hx Hno]| ->].
      * split; [done|]. by intros [? _].
      * split; [by apply (wf_list c Hwf)|]. by intros [_ ?].
  - intros x Hx. apply list_elem_of_singleton in Hx. by subst.
  - intros x _ _. unfold kv_of.
    by destruct (removeElement_frame el c) as (_ & _ & -> & _).
Qed.

Lemma paid_removeOldest c :
  wf c → onEvict c = true → evicted c ≡ₚ departed c →
  evicted (removeOldest c) ≡ₚ departed (removeOldest c).
Proof.
  intros Hwf Hcb Hp. unfold removeOldest, list_Back.
  destruct (last (evictList c)) as [el|] eqn:Hl; [|done].
  apply paid_removeElement; [done..| |done]. by eapply last_Some_elem_of.
Qed.

Lemma iter_removeOldest_onEvict (n : nat) c :
  onEvict (Nat.iter n removeOldest c) = onEvict c.
Proof. induction n; simpl; [done|]. by rewrite removeOldest_onEvict. Qed.

Lemma paid_iter_removeOldest (n : nat) c :
  wf c → onEvict c = true → evicted c ≡ₚ departed c →
  evicted (Nat.iter n removeOldest c) ≡ₚ departed (Nat.iter n removeOldest c).
Proof.
  intros Hwf Hcb Hp. induction n as [|n IH]; simpl; [done|].
  apply paid_removeOldest; [by apply wf_iter_removeOldest| |done].
  by rewrite iter_removeOldest_onEvict.
Qed.

Lemma paid_foldl_removeElement (els : list Element) c (n : Z) :
  wf c → onEvict c = true → NoDup els → (∀ x, x ∈ els → x ∈ evictList c) →
  evicted c ≡ₚ departed c →
  let r := foldl (λ '(c, removed) el, (removeElement el c, removed + 1)) (c, n) els in
  evicted r.1 ≡ₚ departed r.1.
Proof.
  revert c n. induction els as [|el els IH]; intros c n Hwf Hcb Hnd Hin Hp; simpl; [done|].
  apply NoDup_cons in Hnd as [Hel Hnd].
  apply IH; [by apply wf_removeElement|by rewrite removeElement_onEvict|done| |].
  - intros x Hx. rewrite removeElement_evictList, elem_of_list_Remove.
    split; [apply Hin; by right|]. intros ->. done.
  - apply paid_removeElement; [done..| |done]. apply Hin. left.
Qed.

(** A change that keeps the elements of the list and the entries of the
    others leaves the departed pairs as they are. *)
Lemma departed_same c c' :
  next c' = next c → (∀ x, x ∈ evictList c' ↔ x ∈ evictList c) →
  (∀ x, (x < next c)%nat → x ∉ evictList c → kv_of c' x = kv_of c x) →
  departed c' ≡ₚ departed c.
Proof.
  intros Hn Hl Hkv. rewrite (departed_grow c c' []); [by rewrite app_nil_r|..].
  - apply NoDup_nil_2.
  - intros x. rewrite Hn, Hl, elem_of_nil. tauto.
  - intros x Hx. by apply elem_of_nil in Hx.
  - done.
Qed.

Lemma departed_pushed k v ts c :
  wf c →
  departed (mkLRU (size c) (next c :: evictList c) (<[k := next c]> (items c))
            (foldl (tag1 (next c)) (tags c) ts) (onEvict c)
            (<[next c := Entry.mk k v ts]> (heap c)) (S (next c)) (evicted c))
  ≡ₚ departed c.
Proof.
  intros Hwf. rewrite (departed_grow c _ []); [by rewrite app_nil_r|..].
  - apply NoDup_nil_2.
  - intros x. simpl. rewrite elem_of_nil, not_elem_of_cons. split.
    + intros [Hx [Hne Hno]]. left. split; [lia|done].
    + intros [[Hx Hno]|[]]. split_and!; [lia|lia|done].
  - intros x Hx. by apply elem_of_nil in Hx.
  - intros x Hx _. unfold kv_of. simpl. rewrite lookup_insert_ne; [done|lia].
Qed.

(** The elements the key index points to are those of the list. *)
Lemma consistent_index_list c :
  consistent c → (map_to_list (items c)).*2 ≡ₚ evictList c.
Proof.
  intros [Hwf Ht Hi]. apply NoDup_Permutation.
  - apply NoDup_fmap_2_strong; [|apply NoDup_map_to_list].
    intros [k1 e1] [k2 e2] H1 H2 Heq. simpl in Heq. subst e2.
    apply elem_of_map_to_list in H1, H2.
    destruct (wf_items c Hwf _ _ H1) as (_ & ent1 & Hent1 & <-).
    destruct (wf_items c Hwf _ _ H2) as (_ & ent2 & Hent2 & <-).
    congruence.
  - apply Hwf.
  - intros e. rewrite list_elem_of_fmap. split.
    + intros [[k e'] [-> Hk]]. apply elem_of_map_to_list in Hk.
      by apply (wf_items c Hwf k).
    + intros He. destruct (Hi e He) as (ent & Hent & Hk).
      exists (Entry.key ent, e). split; [done|]. by apply elem_of_map_to_list.
Qed.

Lemma Purge_fired_list c :
  wf c →
  omap (λ '(k, el), (λ ent, (k, Entry.value ent)) <$> heap c !! el)
       (map_to_list (items c))
  = omap (kv_of c) (map_to_list (items c)).*2.
Proof.
  intros Hwf.
  assert (Hall : ∀ k el, (k, el) ∈ map_to_list (items c) → items c !! k = Some el).
  { intros k el. apply elem_of_map_to_list. }
  induction (map_to_list (items c)) as [|[k el] l IH]; [done|].
  destruct (wf_items c Hwf k el (Hall k el ltac:(left))) as (_ & ent & Hent & Hkey).
  cbn [fmap list_fmap omap list_omap]. unfold kv_of at 1. simpl. rewrite Hent. simpl.
  rewrite Hkey. f_equal. apply IH. intros k' el' Hin. apply Hall. by right.
Qed.

Lemma paid_Purge c :
  consistent c → onEvict c = true → evicted c ≡ₚ departed c →
  evicted (Purge c) ≡ₚ departed (Purge c).
Proof.
  intros Hc Hcb Hp. pose proof (cons_wf c Hc) as Hwf.
  destruct (Purge_fields c) as (_ & Hl & _ & _ & _ & Hh & Hn).
  rewrite (departed_grow c (Purge c) (evictList c)).
  - rewrite Purge_evicted, Hcb, Hp. f_equiv.
    rewrite <- (consistent_index_list c Hc).
    rewrite (Purge_fired_list c Hwf). unfold kv_of. by rewrite Hh.
  - apply Hwf.
  - intros x. rewrite Hn, Hl, elem_of_nil. split.
    + intros [Hx _]. destruct (decide (x ∈ evictList c)); [by right|by left].
    + intros [[Hx _]|Hx]; (split; [|tauto]); [done|by apply (wf_list c Hwf)].
  - done.
  - intros x _ _. unfold kv_of. by rewrite Hh.
Qed.

Lemma paid_step c (o : call K V) :
  consistent c → onEvict c = true → keeps_tags c o = true →
  evicted c ≡ₚ departed c → evicted (step c o) ≡ₚ departed (step c o).
Proof.
  intros Hc Hcb Hkeep Hp. pose proof (cons_wf c Hc) as Hwf.
  destruct o; cbn [step]; try done.
  - destruct (items c !! key) as [el|] eqn:Hk.
    + rewrite (Add_hit _ _ _ _ el) by done. cbn [fst].
      rewrite (departed_same c); [done|done|..].
      * intros x. simpl. apply elem_of_list_MoveToFront.
      * intros x _ Hx. unfold kv_of. simpl. rewrite lookup_alter_ne; [done|].
        intros <-. apply Hx. by apply (wf_items c Hwf key).
    + unfold Add. rewrite Hk. cbn [fst]. simpl. case_bool_decide.
      * apply paid_removeOldest; [exact (wf_pushed key value ts c Hwf)|done|].
        etrans; [exact Hp|]. symmetry. exact (departed_pushed key value ts c Hwf).
      * etrans; [exact Hp|]. symmetry. exact (departed_pushed key value ts c Hwf).
  - unfold Get. destruct (items c !! key); simpl; [|done].
    rewrite (departed_same c); [done|done|..].
    + intros x. simpl. apply elem_of_list_MoveToFront.
    + done.
  - unfold Remove. destruct (items c !! key) as [el|] eqn:Hk; simpl; [|done].
    apply paid_removeElement; [done..| |done]. by apply (wf_items c Hwf key).
  - unfold RemoveOldest, list_Back.
    destruct (last (evictList c)) as [el|] eqn:Hl; simpl; [|done].
    apply paid_removeElement; [done..| |done]. by eapply last_Some_elem_of.
  - unfold Resize. simpl.
    exact (paid_iter_removeOldest _ c Hwf Hcb Hp).
  - unfold Invalidate. generalize 0. clear Hkeep. revert c Hc Hcb Hwf Hp.
    induction ts as [|t ts IH]; intros c Hc Hcb Hwf Hp n; simpl; [done|].
    destruct (tags c !! t) as [els|] eqn:Ht; [|by apply IH].
    assert (Hlive : ∀ x, x ∈ elements els → x ∈ evictList c).
    { intros x Hx. apply elem_of_elements in Hx.
      apply (cons_tags c Hc t x). by rewrite (lookup_total_correct _ _ _ Ht). }
    pose proof (consistent_foldl_removeElement (elements els) c n Hc
                  (NoDup_elements els) Hlive) as Hc'.
    pose proof (paid_foldl_removeElement (elements els) c n Hwf Hcb
                  (NoDup_elements els) Hlive Hp) as Hp'.
    pose proof (foldl_removeElement_onEvict (elements els) c n) as Hcb'.
    destruct (foldl _ (c, n) (elements els)) as [c' n']. simpl in *.
    apply IH; [done|congruence|apply Hc'|done].
  - by apply paid_Purge.
Qed.

Lemma paid_run (os : list (call K V)) c :
  consistent c → onEvict c = true → keeps_tags_run os c = true →
  evicted c ≡ₚ departed c → evicted (run os c) ≡ₚ departed (run os c).
Proof.
  unfold run. revert c.
  induction os as [|o os IH]; intros c Hc Hcb Hos Hp; simpl; [done|].
  simpl in Hos. apply andb_true_iff in Hos as [Ho Hos].
  apply IH; [by apply consistent_step|by rewrite onEvict_step|done|by apply paid_step].
Qed.

End reach_facts.

(** ** The operations, one by one *)

Section properties.
Context {K V : Type} `{Countable K}.
Implicit Types (c : LRU K V) (el : Element) (k : K) (v : V) (ts : list string).

(** X1.  [NewLRU], [NewWithEvict] and [New] fail exactly for a size that is
    not positive.  For a positive size they return an empty cache of that
    capacity: no key is contained, [Get] misses and leaves it unchanged,
    [Keys] is empty, there is no oldest entry, no tag finds or invalidates
    anything; [New] configures no callback. *)
Theorem constructors_reject_nonpositive (sz : Z) (cb : bool) :
  (is_err (NewLRU sz cb : result (LRU K V)) = true ↔ sz ≤ 0) ∧
  (is_err (NewWithEvict sz cb : result (Cache K V)) = true ↔ sz ≤ 0) ∧
  (is_err (New sz : result (Cache K V)) = true ↔ sz ≤ 0) ∧
  (0 < sz →
     ∃ c : LRU K V,
       NewLRU sz cb = Ok c ∧ NewWithEvict sz cb = Ok (mkCache c) ∧
       size c = sz ∧ onEvict c = cb ∧ Len c = 0 ∧ Keys c = Some [] ∧
       GetOldest c = (None, None, false) ∧ evicted c = [] ∧
       (∀ k, Contains k c = false ∧ Get k c = (c, (None, false))) ∧
       (∀ ts, FindByTags ts c = [] ∧ Invalidate ts c = (c, 0)) ∧
       ∃ c' : LRU K V, New sz = Ok (mkCache c') ∧ onEvict c' = false ∧ size c' = sz).
Proof.
  split_and!.
  - apply NewLRU_err_iff.
  - apply NewWithEvict_err_iff.
  - apply New_err_iff.
  - intros Hsz. exists (fresh sz cb).
    unfold New, NewWithEvict. rewrite !NewLRU_pos by done.
    split_and!; try done.
    + intros ts. split; [|by apply Invalidate_no_buckets].
      apply no_elem_nil. intros k Hk.
      apply elem_of_FindByTags in Hk as (t & el & _ & _ & Hb & _).
      simpl in Hb. rewrite lookup_total_empty in Hb. by apply not_elem_of_empty in Hb.
    + by exists (fresh sz false).
Qed.

(** X2.  In a state reached by calls that drop no tag, with a capacity of
    at least 1, a key that was just added is contained, and [Get] and
    [Peek] return the value that was added. *)
Theorem Add_Get_roundtrip (sz : Z) (cb : bool) (os : list (call K V)) k v ts :
  keeps_tags_run os (fresh sz cb) = true →
  let c := run os (fresh sz cb) in
  1 ≤ size c →
  let c' := (Add k v ts c).1 in
  (Get k c').2 = (Some v, true) ∧ Peek k c' = (Some v, true) ∧
  Contains k c' = true.
Proof.
  intros Hos c Hsz c'. pose proof (consistent_reach sz cb os Hos) as Hc.
  pose proof (Add_then_Peek k v ts c Hc Hsz) as Hp. fold c' in Hp.
  rewrite Get_result. split_and!; [done..|].
  rewrite <- Peek_ok, Hp. done.
Qed.

(** X3.  [Add] of a key that is present evicts nothing and fires no
    callback: length, capacity and key index are unchanged, the entry
    moves to the front, [Peek] returns the new value, the other keys keep
    their values, and every tag given finds the key. *)
Theorem Add_present_updates (sz : Z) (cb : bool) (os : list (call K V)) k v ts :
  let c := run os (fresh sz cb) in
  Contains k c = true →
  let r := Add k v ts c in
  r.2 = false ∧ Len r.1 = Len c ∧ size r.1 = size c ∧
  evicted r.1 = evicted c ∧ items r.1 = items c ∧
  head (evictList r.1) = items c !! k ∧
  Peek k r.1 = (Some v, true) ∧
  (∀ k', k' ≠ k → Peek k' r.1 = Peek k' c) ∧
  (∀ t, t ∈ ts → k ∈ FindByTags [t] r.1).
Proof.
  intros c Hk r. pose proof (wf_reach sz cb os) as Hwf. fold c in Hwf.
  apply Contains_true in Hk as [el Hk].
  destruct (wf_items c Hwf k el Hk) as (Hel & ent & Hent & Hkey).
  unfold r. rewrite (Add_hit _ _ _ _ el) by done. cbn [fst snd]. simpl.
  split_and!; try done.
  - unfold Len. simpl. by rewrite length_list_MoveToFront by apply Hwf.
  - rewrite Hk. unfold list_MoveToFront. rewrite decide_True by done.
    by case_decide.
  - apply (Peek_hit _ _ el (Entry.mk (Entry.key ent) v ts)); simpl; [done|].
    by rewrite lookup_alter_eq, Hent.
  - intros k' Hne. unfold Peek. simpl.
    destruct (items c !! k') as [el'|] eqn:Hk'; [|done].
    rewrite lookup_alter_ne; [done|]. intros <-.
    destruct (wf_items c Hwf k' el Hk') as (_ & ent' & Hent' & Hkey'). congruence.
  - intros t Ht. apply elem_of_FindByTags.
    exists t, el, (Entry.mk (Entry.key ent) v ts). simpl. split_and!; try done.
    + left.
    + rewrite foldl_tag1_total, decide_True by done.
      apply elem_of_union. left. by apply elem_of_singleton.
    + by rewrite lookup_alter_eq, Hent.
Qed.

(** X4.  [Add] of an absent key while the cache is below its capacity
    evicts nothing and fires no callback: the length grows by one, [Peek]
    returns the value, the other keys keep their values, the keys contained
    are the old ones and the new one, and every tag given finds the key. *)
Theorem Add_new_with_room (sz : Z) (cb : bool) (os : list (call K V)) k v ts :
  let c := run os (fresh sz cb) in
  Contains k c = false → Len c < size c →
  let r := Add k v ts c in
  r.2 = false ∧ Len r.1 = Len c + 1 ∧ size r.1 = size c ∧
  evicted r.1 = evicted c ∧
  Peek k r.1 = (Some v, true) ∧
  (∀ k', k' ≠ k → Peek k' r.1 = Peek k' c) ∧
  (∀ k', Contains k' r.1 = true ↔ k' = k ∨ Contains k' c = true) ∧
  (∀ t, t ∈ ts → k ∈ FindByTags [t] r.1).
Proof.
  intros c Hk Hroom r. pose proof (wf_reach sz cb os) as Hwf. fold c in Hwf.
  apply Contains_false in Hk.
  unfold r. rewrite Add_miss_fits by (done || lia). cbn [fst snd].
  split_and!; try done.
  - unfold Len. simpl. lia.
  - apply (Peek_hit _ _ (next c) (Entry.mk k v ts)); simpl; apply lookup_insert_eq.
  - intros k' Hne. unfold Peek. simpl. rewrite lookup_insert_ne by done.
    destruct (items c !! k') as [el'|] eqn:Hk'; [|done].
    rewrite lookup_insert_ne; [done|]. intros <-.
    destruct (wf_items c Hwf k' _ Hk') as (Hin & _).
    apply (wf_list c Hwf) in Hin. lia.
  - intros k'. rewrite !Contains_true. simpl.
    destruct (decide (k' = k)) as [->|Hne].
    + rewrite lookup_insert_eq. split; [by left|eauto].
    + rewrite lookup_insert_ne by done. split; [by right|]. by intros [?|?].
  - intros t Ht. apply elem_of_FindByTags.
    exists t, (next c), (Entry.mk k v ts). simpl. split_and!; try done.
    + left.
    + rewrite foldl_tag1_total, decide_True by done.
      apply elem_of_union. left. by apply elem_of_singleton.
    + apply lookup_insert_eq.
Qed.

(** X5.  In a state reached by calls that drop no tag, [Add] of an absent
    key to a cache that is full (capacity at least 1) reports an eviction:
    the entry [GetOldest] showed is gone and, with a callback configured, is
    the one new callback; the length is unchanged, the new key has its
    value, and every other key is contained as before with its value. *)
Theorem Add_new_when_full (sz : Z) (cb : bool) (os : list (call K V)) k v ts :
  keeps_tags_run os (fresh sz cb) = true →
  let c := run os (fresh sz cb) in
  Contains k c = false → 1 ≤ size c ≤ Len c →
  let r := Add k v ts c in
  ∃ ko vo, GetOldest c = (Some ko, Some vo, true) ∧
    r.2 = true ∧ Len r.1 = Len c ∧ size r.1 = size c ∧
    evicted r.1 = evicted c ++ (if cb then [(ko, vo)] else []) ∧
    Peek k r.1 = (Some v, true) ∧ Contains ko r.1 = false ∧
    (∀ k', Contains k' r.1 = true ↔ k' ≠ ko ∧ (k' = k ∨ Contains k' c = true)) ∧
    (∀ k', k' ≠ ko → k' ≠ k → Peek k' r.1 = Peek k' c).
Proof.
  intros Hos c Hk Hfull r. pose proof (consistent_reach sz cb os Hos) as Hc.
  fold c in Hc. destruct Hc as [Hwf Ht Hi].
  assert (Hcb : onEvict c = cb) by apply onEvict_run.
  apply Contains_false in Hk.
  destruct (nonempty_snoc (evictList c)) as (l & x & Hl).
  { intros Hnil. unfold Len in Hfull. rewrite Hnil in Hfull. simpl in Hfull. lia. }
  destruct (Hi x) as (ent & Hent & Hkey).
  { rewrite Hl. apply elem_of_app. right. left. }
  assert (Hne : Entry.key ent ≠ k) by (intros Heq; rewrite Heq in Hkey; congruence).
  exists (Entry.key ent), (Entry.value ent).
  unfold r. rewrite (Add_miss_evicts_back k v ts c l x ent) by (done || lia).
  cbn [fst snd]. split_and!; try done.
  - unfold GetOldest, list_Back. by rewrite Hl, last_snoc, Hent.
  - unfold Len. simpl. rewrite Hl, length_app. simpl. lia.
  - simpl. rewrite Hcb. destruct cb; [done|by rewrite app_nil_r].
  - apply (Peek_hit _ _ (next c) (Entry.mk k v ts)); simpl.
    + by rewrite lookup_delete_ne, lookup_insert_eq.
    + apply lookup_insert_eq.
  - apply Contains_false. simpl. apply lookup_delete_eq.
  - intros k'. rewrite !Contains_true. simpl.
    destruct (decide (k' = Entry.key ent)) as [->|Hne'].
    + rewrite lookup_delete_eq. split; [by intros [? ?]|tauto].
    + rewrite lookup_delete_ne by done.
      destruct (decide (k' = k)) as [->|Hne''].
      * rewrite lookup_insert_eq. split; [by split; [|left]|eauto].
      * rewrite lookup_insert_ne by done. split; [by split; [|right]|].
        by intros [_ [?|?]].
  - intros k' Hko Hk'. unfold Peek. simpl.
    rewrite lookup_delete_ne, lookup_insert_ne by done.
    destruct (items c !! k') as [el'|] eqn:Hel'; [|done].
    rewrite lookup_insert_ne; [done|]. intros <-.
    destruct (wf_items c Hwf k' _ Hel') as (Hin & _).
    apply (wf_list c Hwf) in Hin. lia.
Qed.

(** X6.  Adding an absent key while there is room and removing it again
    restores the list, the key index and the tag index (with no empty bucket
    left behind), whatever tags the entry carried; with a callback
    configured the callback fires once, for the added pair. *)
Theorem Add_Remove_roundtrip (sz : Z) (cb : bool) (os : list (call K V)) k v ts :
  let c := run os (fresh sz cb) in
  Contains k c = false → Len c < size c →
  let r := Remove k (Add k v ts c).1 in
  r.2 = true ∧ size r.1 = size c ∧ evictList r.1 = evictList c ∧
  items r.1 = items c ∧ tags r.1 = tags c ∧
  evicted r.1 = evicted c ++ (if cb then [(k, v)] else []).
Proof.
  intros c Hk Hroom r. pose proof (wf_reach sz cb os) as Hwf. fold c in Hwf.
  assert (Hcb : onEvict c = cb) by apply onEvict_run.
  apply Contains_false in Hk.
  unfold r. rewrite Add_miss_fits by (done || lia). cbn [fst].
  rewrite (Remove_hit k _ (next c) (Entry.mk k v ts)) by (simpl; apply lookup_insert_eq).
  cbn [fst snd]. simpl.
  assert (Hnew : next c ∉ evictList c).
  { intros Hin. apply (wf_list c Hwf) in Hin. lia. }
  split_and!; try done.
  - by apply list_Remove_head.
  - by apply delete_insert_id.
  - apply tag_untag_id.
    + intros t b. apply (run_no_empty os (fresh sz cb)).
      intros t' b'. simpl. by rewrite lookup_empty.
    + intros t Hin. rewrite lookup_total_alt in Hin.
      destruct (tags c !! t) as [b|] eqn:Hb; simpl in Hin;
        [|by apply not_elem_of_empty in Hin].
      apply (wf_tags c Hwf t b) in Hin; [lia|done].
  - rewrite Hcb. destruct cb; [done|by rewrite app_nil_r].
Qed.

(** X7.  [Get] returns what [Peek] returns and reports what [Contains]
    reports.  It changes nothing but the order of the list: the element of a
    key that is present moves to the front and the others keep their
    relative order; on a miss the cache is unchanged. *)
Theorem Get_refreshes_recency (sz : Z) (cb : bool) (os : list (call K V)) k :
  let c := run os (fresh sz cb) in
  let g := Get k c in
  g.2 = Peek k c ∧ g.2.2 = Contains k c ∧
  size g.1 = size c ∧ items g.1 = items c ∧ tags g.1 = tags c ∧
  heap g.1 = heap c ∧ evicted g.1 = evicted c ∧
  evictList g.1 ≡ₚ evictList c ∧
  (Contains k c = false → g.1 = c) ∧
  (∀ el, items c !! k = Some el →
     head (evictList g.1) = Some el ∧
     list_Remove el (evictList g.1) = list_Remove el (evictList c)).
Proof.
  intros c g. pose proof (wf_reach sz cb os) as Hwf. fold c in Hwf.
  destruct (Get_frame k c) as (Hs & Hi & Ht & _ & Hh & _ & He).
  split_and!; try done.
  - apply Get_result.
  - apply Get_ok.
  - unfold g, Get. destruct (items c !! k); simpl; [|done].
    by apply list_MoveToFront_Permutation, Hwf.
  - intros Hno. apply Contains_false in Hno. unfold g. by rewrite Get_miss.
  - intros el Hk. destruct (wf_items c Hwf k el Hk) as (Hel & _).
    unfold g, Get. rewrite Hk. simpl.
    split; [by apply head_list_MoveToFront|apply list_Remove_MoveToFront].
Qed.

(** X8.  [Remove] reports whether the key was contained, and afterwards it
    is not.  The other keys, their values and the capacity are unchanged; a
    miss leaves the cache as it was; a hit shortens the cache by one and,
    with a callback configured, fires it once with the key and its value. *)
Theorem Remove_deletes_key (sz : Z) (cb : bool) (os : list (call K V)) k :
  let c := run os (fresh sz cb) in
  let r := Remove k c in
  r.2 = Contains k c ∧ Contains k r.1 = false ∧ size r.1 = size c ∧
  (∀ k', k' ≠ k → Contains k' r.1 = Contains k' c ∧ Peek k' r.1 = Peek k' c) ∧
  (Contains k c = false → r.1 = c) ∧
  (∀ v, Peek k c = (Some v, true) →
     Len r.1 = Len c - 1 ∧
     evicted r.1 = evicted c ++ (if cb then [(k, v)] else [])).
Proof.
  intros c r. pose proof (wf_reach sz cb os) as Hwf. fold c in Hwf.
  assert (Hcb : onEvict c = cb) by apply onEvict_run.
  split; [apply Remove_ok|].
  destruct (items c !! k) as [el|] eqn:Hk.
  - destruct (wf_items c Hwf k el Hk) as (Hel & ent & Hent & Hkey).
    unfold r. rewrite (Remove_hit k c el ent) by done. cbn [fst]. rewrite Hkey.
    split_and!; try done.
    + apply Contains_false. simpl. apply lookup_delete_eq.
    + intros k' Hne. unfold Contains, Peek. simpl. by rewrite lookup_delete_ne.
    + intros Hno. apply Contains_false in Hno. congruence.
    + intros v Hv. rewrite (Peek_hit k c el ent) in Hv by done. injection Hv as <-.
      unfold Len. simpl. rewrite Hcb. split.
      * pose proof (length_list_Remove el _ (wf_nodup c Hwf) Hel). lia.
      * destruct cb; [done|by rewrite app_nil_r].
  - unfold r, Remove. rewrite Hk. cbn [fst].
    split_and!; try done.
    + by apply Contains_false.
    + intros v Hv. unfold Peek in Hv. by rewrite Hk in Hv.
Qed.

(** X9.  [RemoveOldest] returns what [GetOldest] showed.  On an empty
    cache it changes nothing and reports a miss; otherwise that key is gone,
    the length is one less, the other keys are untouched and, with a
    callback configured, it fires once with the pair returned. *)
Theorem RemoveOldest_returns_oldest (sz : Z) (cb : bool) (os : list (call K V)) :
  let c := run os (fresh sz cb) in
  let r := RemoveOldest c in
  r.2 = GetOldest c ∧ size r.1 = size c ∧
  (Len c = 0 → r = (c, (None, None, false))) ∧
  (0 < Len c → ∃ ko vo,
     GetOldest c = (Some ko, Some vo, true) ∧
     Contains ko r.1 = false ∧ Len r.1 = Len c - 1 ∧
     evicted r.1 = evicted c ++ (if cb then [(ko, vo)] else []) ∧
     (∀ k', k' ≠ ko → Contains k' r.1 = Contains k' c ∧ Peek k' r.1 = Peek k' c)).
Proof.
  intros c r. pose proof (wf_reach sz cb os) as Hwf. fold c in Hwf.
  assert (Hcb : onEvict c = cb) by apply onEvict_run.
  unfold r, RemoveOldest, GetOldest, list_Back.
  destruct (last (evictList c)) as [x|] eqn:Hlast.
  - apply last_Some in Hlast as [l Hl].
    assert (Hx : x ∈ evictList c) by (rewrite Hl; apply elem_of_app; right; left).
    destruct (wf_heap c Hwf x (wf_list c Hwf x Hx)) as [ent Hent].
    rewrite (removeElement_eq _ _ ent) by done. cbn [fst snd heap size].
    rewrite Hent. simpl. split_and!; try done.
    + unfold Len. rewrite Hl, length_app. simpl. lia.
    + intros _. exists (Entry.key ent), (Entry.value ent).
      split_and!; try done.
      * apply Contains_false. simpl. apply lookup_delete_eq.
      * unfold Len. simpl. pose proof (wf_nodup c Hwf) as Hnd.
        rewrite Hl in Hnd |- *.
        rewrite list_Remove_snoc, length_app by done. simpl. lia.
      * rewrite Hcb. destruct cb; [done|by rewrite app_nil_r].
      * intros k' Hne. unfold Contains, Peek. simpl. by rewrite lookup_delete_ne.
  - apply last_None in Hlast. cbn [fst snd]. split_and!; try done.
    unfold Len. rewrite Hlast. simpl. lia.
Qed.


(** X11.  After [Purge] the cache is empty and keeps its capacity: no key
    is contained, [Keys] is empty, no tag finds or invalidates anything.
    With a callback configured it fired once for each key of the key index,
    with the value that key had.  Whatever happened before, the purged cache
    is consistent again and stays so under calls that drop no tag. *)
Theorem Purge_empties (sz : Z) (cb : bool) (os : list (call K V)) :
  let c := run os (fresh sz cb) in
  let p := Purge c in
  Len p = 0 ∧ size p = size c ∧ Keys p = Some [] ∧
  GetOldest p = (None, None, false) ∧
  (∀ k, Contains k p = false) ∧
  (∀ ts, FindByTags ts p = [] ∧ Invalidate ts p = (p, 0)) ∧
  length (evicted p) = (length (evicted c) + if cb then base.size (items c) else 0)%nat ∧
  (∀ k v, cb = true →
     ((k, v) ∈ drop (length (evicted c)) (evicted p) ↔ Peek k c = (Some v, true))) ∧
  (∀ os', keeps_tags_run os' p = true →
     tag_index_ok (run os' p) ∧
     base.size (items (run os' p)) = length (evictList (run os' p))).
Proof.
  intros c p. pose proof (wf_reach sz cb os) as Hwf. fold c in Hwf.
  assert (Hcb : onEvict c = cb) by apply onEvict_run.
  destruct (Purge_fields c) as (Hs & Hl & Hi & Ht & _ & Hh & Hn). fold p in Hs, Hl, Hi, Ht.
  pose proof (Purge_evicted c) as Hev. fold p in Hev. rewrite Hcb in Hev.
  assert (Hall : ∀ kel, kel ∈ map_to_list (items c) →
            is_Some ((λ '(k, el), (λ ent, (k, Entry.value ent)) <$> heap c !! el) kel)).
  { intros [k el] Hin. apply elem_of_map_to_list in Hin.
    destruct (wf_items c Hwf k el Hin) as (_ & ent & -> & _). simpl. eauto. }
  split_and!.
  - unfold Len. by rewrite Hl.
  - done.
  - unfold Keys. by rewrite Hl, Hi.
  - unfold GetOldest. by rewrite Hl.
  - intros k. apply Contains_false. by rewrite Hi, lookup_empty.
  - intros ts. split; [|by apply Invalidate_no_buckets].
    apply no_elem_nil. intros k Hk.
    apply elem_of_FindByTags in Hk as (t & el & _ & _ & Hb & _).
    rewrite Ht, lookup_total_empty in Hb. by apply not_elem_of_empty in Hb.
  - rewrite Hev, length_app. destruct cb; [|simpl; lia]. f_equal.
    match goal with |- length ?fired = _ =>
      rewrite <- (length_fmap Some fired) end.
    by rewrite <- (fmap_Some_omap _ _ Hall), length_fmap, length_map_to_list.
  - intros k v ->. rewrite Hev, drop_app_length, list_elem_of_omap. split.
    + intros ([k' el] & Hin & Hf). apply elem_of_map_to_list in Hin.
      destruct (heap c !! el) as [ent|] eqn:Hent; [|done]. simpl in Hf.
      injection Hf as -> <-. by apply (Peek_hit k c el ent).
    + intros Hp. unfold Peek in Hp.
      destruct (items c !! k) as [el|] eqn:Hk; [|done].
      destruct (heap c !! el) as [ent|] eqn:Hent; [|done]. simpl in Hp.
      injection Hp as <-. exists (k, el). split; [by apply elem_of_map_to_list|].
      by rewrite Hent.
  - intros os' Hos'.
    pose proof (consistent_run os' p (consistent_Purge_wf c Hwf) Hos') as Hc'.
    split; [apply Hc'|by apply consistent_sizes].
Qed.

(** X12.  In a state reached by calls that drop no tag, [Resize] to a
    size from 0 up keeps the newest entries: [Keys] afterwards is [Keys]
    before without its first [Len - size] keys (none when the cache fits the
    new size). *)
Theorem Resize_keeps_newest_keys (sz : Z) (cb : bool) (os : list (call K V))
    (s : Z) (ks : list K) :
  keeps_tags_run os (fresh sz cb) = true →
  let c := run os (fresh sz cb) in
  0 ≤ s ≤ int_max → Len c ≤ int_max →
  Keys c = Some (Some <$> ks) →
  Keys (Resize s c).1 = Some (Some <$> drop (Z.to_nat (Len c - s)) ks).
Proof.
  intros Hos c Hs Hmax HK. pose proof (consistent_reach sz cb os Hos) as Hc.
  fold c in Hc.
  assert (Hc' : consistent (Resize s c).1).
  { by apply (consistent_step c (CResize s)). }
  destruct (consistent_key_list c Hc) as (HK0 & _ & _ & _).
  destruct (consistent_key_list _ Hc') as (HK1 & _ & _ & _).
  rewrite HK in HK0. injection HK0 as HK0. rewrite HK1. f_equal.
  assert (Hall : ∀ (l : list Element), (∀ x, x ∈ l → x ∈ evictList c) →
            (λ el, Entry.key <$> heap c !! el) <$> l =
            Some <$> omap (λ el, Entry.key <$> heap c !! el) l).
  { intros l Hl. apply fmap_Some_omap. intros x Hx.
    destruct (cons_items c Hc x (Hl x Hx)) as (ent & -> & _). simpl. eauto. }
  destruct (decide (s < Len c)) as [Hlt|Hge].
  - destruct (Resize_shrink s c (cons_wf c Hc)) as (_ & _ & Hl & _ & _ & Hh & _);
      [lia..|].
    rewrite Hl, Hh. rewrite <- Hall.
    2:{ intros x Hx. rewrite elem_of_reverse in Hx. by eapply subseteq_take. }
    rewrite reverse_take, fmap_drop, Hall, <- HK0, <- fmap_drop.
    2:{ intros x Hx. by rewrite elem_of_reverse in Hx. }
    unfold Len. do 2 f_equal. unfold Len in Hlt. lia.
  - rewrite Resize_grow by lia. simpl.
    replace (Z.to_nat (Len c - s)) with 0%nat by lia. by rewrite drop_0, HK0.
Qed.

(** X13.  The capacity is the size given to the last [Resize], or the size
    the cache was built with when there was none: no other operation writes
    the capacity. *)
Theorem capacity_is_last_Resize (sz : Z) (cb : bool) (os : list (call K V)) :
  size (run os (fresh sz cb)) =
  foldl (λ s o, match o with CResize s' => s' | _ => s end) sz os.
Proof.
  unfold run. change sz with (size (fresh sz cb : LRU K V)) at 2.
  generalize (fresh sz cb : LRU K V). induction os as [|o os IH]; intros c; [done|].
  cbn [foldl]. rewrite IH, step_size. by destruct o.
Qed.

(** X14.  In a state reached by calls that drop no tag, [FindByTags]
    returns a key if and only if the key is present and its entry carries
    one of the tags asked for. *)
Theorem FindByTags_finds_tagged (sz : Z) (cb : bool) (os : list (call K V)) k ts :
  keeps_tags_run os (fresh sz cb) = true →
  let c := run os (fresh sz cb) in
  k ∈ FindByTags ts c ↔
  ∃ el ent, items c !! k = Some el ∧ heap c !! el = Some ent ∧
            ∃ t, t ∈ ts ∧ t ∈ Entry.tags ent.
Proof. intros Hos c. by apply consistent_FindByTags, consistent_reach. Qed.

(** X15.  [FindByTags] returns a key once for each tag asked for that the
    entry carries: an entry added under two fresh tags is returned twice
    when both are asked for. *)
Theorem FindByTags_repeats_key (sz : Z) (cb : bool) (os : list (call K V)) k v
    (t1 t2 : string) :
  let c := run os (fresh sz cb) in
  Contains k c = false → Len c < size c →
  tags c !! t1 = None → tags c !! t2 = None → t1 ≠ t2 →
  FindByTags [t1; t2] (Add k v [t1; t2] c).1 = [k; k].
Proof.
  intros c Hk Hroom H1 H2 Hne. apply Contains_false in Hk.
  assert (Hne' : t2 ≠ t1) by congruence.
  rewrite Add_miss_fits by (done || lia). cbn [fst]. unfold FindByTags. simpl.
  rewrite (tag1_new _ _ t1) by done.
  rewrite tag1_new by by rewrite lookup_insert_ne.
  rewrite (lookup_insert_ne _ t2 t1), !lookup_insert_eq by done.
  rewrite elements_singleton. simpl. by rewrite lookup_insert_eq.
Qed.

(** X16.  In a state reached by calls that drop no tag, [Invalidate]
    removes exactly the keys [FindByTags] returns for the same tags and
    returns how many entries left the cache; the keys that stay keep their
    values, the capacity is unchanged, with a callback configured it fired
    once per entry removed, and afterwards the tags find nothing. *)
Theorem Invalidate_removes_tagged (sz : Z) (cb : bool) (os : list (call K V)) ts :
  keeps_tags_run os (fresh sz cb) = true →
  let c := run os (fresh sz cb) in
  let r := Invalidate ts c in
  r.2 = Len c - Len r.1 ∧ 0 ≤ r.2 ∧ size r.1 = size c ∧
  Z.of_nat (length (evicted r.1)) =
    Z.of_nat (length (evicted c)) + (if cb then r.2 else 0) ∧
  (∀ k, Contains k r.1 = true ↔ Contains k c = true ∧ k ∉ FindByTags ts c) ∧
  (∀ k, Contains k r.1 = true → Peek k r.1 = Peek k c) ∧
  FindByTags ts r.1 = [] ∧ tag_index_ok r.1.
Proof.
  intros Hos c r. pose proof (consistent_reach sz cb os Hos) as Hc. fold c in Hc.
  assert (Hcb : onEvict c = cb) by apply onEvict_run.
  destruct (Invalidate_pass ts c 0 Hc) as (Hc' & Hh & Hs & Hl & Hn & Hev).
  fold (Invalidate ts c) in Hc', Hh, Hs, Hl, Hn, Hev. fold r in Hc', Hh, Hs, Hl, Hn, Hev.
  rewrite Hcb in Hev.
  assert (Hsurv : ∀ k el, items r.1 !! k = Some el →
            items c !! k = Some el ∧
            ∃ ent, heap c !! el = Some ent ∧ Entry.key ent = k ∧
                   ∀ t, t ∈ ts → t ∉ Entry.tags ent).
  { intros k el Hk.
    destruct (wf_items _ (cons_wf _ Hc') k el Hk) as (Hel & ent & Hent & Hkey).
    rewrite Hh in Hent. apply Hl in Hel as [Hel Hts].
    destruct (cons_items c Hc el Hel) as (ent' & Hent' & Hk').
    rewrite Hent in Hent'. injection Hent' as <-. rewrite Hkey in Hk'.
    split; [done|]. exists ent. split_and!; try done. intros t. by apply Hts. }
  split_and!.
  - unfold Len. lia.
  - assert (Hsub : (length (evictList r.1) ≤ length (evictList c))%nat).
    { apply submseteq_length, NoDup_submseteq; [apply Hc'|].
      intros x Hx. by apply Hl in Hx as [? _]. }
    lia.
  - done.
  - destruct cb; lia.
  - intros k. rewrite !Contains_true. split.
    + intros [el Hk]. destruct (Hsurv k el Hk) as (Hkc & ent & Hent & Hkey & Hts).
      split; [eauto|]. intros Hin.
      apply (consistent_FindByTags k ts c Hc) in Hin
        as (el' & ent' & Hk' & Hent' & t & Ht & Htag).
      rewrite Hkc in Hk'. injection Hk' as <-.
      rewrite Hent in Hent'. injection Hent' as <-. by apply (Hts t).
    + intros [[el Hk] Hnot].
      destruct (wf_items c (cons_wf c Hc) k el Hk) as (Hel & ent & Hent & Hkey).
      assert (Hel' : el ∈ evictList r.1).
      { apply Hl. split; [done|]. intros ent' t Hent' Ht Htag.
        apply Hnot. apply (consistent_FindByTags k ts c Hc). eauto 10. }
      destruct (cons_items _ Hc' el Hel') as (ent' & Hent' & Hk').
      rewrite Hh, Hent in Hent'. injection Hent' as <-. rewrite Hkey in Hk'. eauto.
  - intros k Hk. apply Contains_true in Hk as [el Hk].
    destruct (Hsurv k el Hk) as (Hkc & _). unfold Peek. by rewrite Hk, Hkc, Hh.
  - apply no_elem_nil. intros k Hin.
    apply (consistent_FindByTags k ts _ Hc') in Hin
      as (el & ent & Hk & Hent & t & Ht & Htag).
    destruct (Hsurv k el Hk) as (_ & ent' & Hent' & _ & Hts).
    rewrite Hh, Hent' in Hent. injection Hent as <-. by apply (Hts t).
  - apply Hc'.
Qed.

(** X17.  The tag index never holds an empty bucket, whatever calls were
    made: [untag] deletes a bucket when it removes its last element. *)
Theorem no_empty_bucket (sz : Z) (cb : bool) (os : list (call K V)) (t : string)
    (b : gset Element) :
  tags (run os (fresh sz cb)) !! t = Some b → b ≠ ∅.
Proof.
  apply run_no_empty. intros t' b'. simpl. by rewrite lookup_empty.
Qed.

(** X18.  In a state reached by calls that drop no tag, with a capacity
    of at least 1, [ContainsOrAdd] reports whether the key was contained and
    leaves it contained.  A key that was present is left alone, its value
    and recency included; an absent key is added without tags, with the
    eviction flag of that [Add]. *)
Theorem ContainsOrAdd_adds_only_absent (sz : Z) (cb : bool) (os : list (call K V)) k v :
  keeps_tags_run os (fresh sz cb) = true →
  let c := run os (fresh sz cb) in
  1 ≤ size c →
  let r := ContainsOrAdd k v (mkCache c) in
  r.2.1 = Contains k c ∧ Contains k (lru r.1) = true ∧
  (Contains k c = true → r = (mkCache c, (true, false))) ∧
  (Contains k c = false →
     lru r.1 = (Add k v [] c).1 ∧ r.2.2 = (Add k v [] c).2 ∧
     Peek k (lru r.1) = (Some v, true)).
Proof.
  intros Hos c Hsz r. pose proof (consistent_reach sz cb os Hos) as Hc. fold c in Hc.
  pose proof (Add_then_Peek k v [] c Hc Hsz) as Hp.
  unfold r, ContainsOrAdd. simpl. destruct (Contains k c) eqn:Hk; simpl.
  - by split_and!.
  - destruct (Add k v [] c) as [l ev] eqn:Hadd. simpl in *.
    split_and!; try done. by rewrite <- Peek_ok, Hp.
Qed.

(** X19.  Whatever calls were made, a key is contained exactly when [Peek]
    finds a value for it, and the key index never holds more keys than
    [Len] counts. *)
Theorem contained_key_has_value (sz : Z) (cb : bool) (os : list (call K V)) :
  let c := run os (fresh sz cb) in
  (∀ k, Contains k c = true ↔ ∃ v, Peek k c = (Some v, true)) ∧
  (∀ k, Contains k c = false → Peek k c = (None, false)) ∧
  Z.of_nat (base.size (items c)) ≤ Len c.
Proof.
  intros c. pose proof (wf_reach sz cb os) as Hwf. fold c in Hwf.
  split_and!.
  - intros k. rewrite Contains_true. unfold Peek. split.
    + intros [el Hk]. rewrite Hk.
      destruct (wf_items c Hwf k el Hk) as (_ & ent & -> & _). simpl. eauto.
    + intros [v Hv]. destruct (items c !! k) as [el|]; [eauto|done].
  - intros k Hk. apply Contains_false in Hk. unfold Peek. by rewrite Hk.
  - unfold Len. pose proof (items_le_list c Hwf). lia.
Qed.

(** X20.  With a callback configured, in a state reached by calls that
    drop no tag, the callback has fired once for every element that left
    the list and for nothing else: the pairs it received are, up to order,
    the pairs of the elements [Add] pushed that the list no longer holds.
    So the number of calls is the number of elements pushed less the number
    still in the list. *)
Theorem callbacks_fire_once (sz : Z) (os : list (call K V)) :
  keeps_tags_run os (fresh sz true) = true →
  let c := run os (fresh sz true) in
  evicted c ≡ₚ departed c ∧
  Z.of_nat (length (evicted c)) = Z.of_nat (next c) - Len c.
Proof.
  intros Hos c. split.
  - by apply (paid_run os (fresh sz true)); [apply consistent_fresh|..].
  - assert (Hn : next c = tally c).
    { by apply (tally_run os (fresh sz true)); [apply consistent_fresh|..]. }
    unfold tally in Hn. unfold Len. lia.
Qed.

(** X21.  In a state reached by calls that drop no tag, [Keys] follows the
    order of use: [Get] or [Add] of a present key moves that key to the end
    and keeps the order of the others; [Add] of an absent key appends it,
    after dropping the first key when the cache was full. *)
Theorem Keys_track_recency (sz : Z) (cb : bool) (os : list (call K V)) k v ts
    (ks : list K) :
  keeps_tags_run os (fresh sz cb) = true →
  let c := run os (fresh sz cb) in
  Keys c = Some (Some <$> ks) →
  (Contains k c = true →
     Keys (Get k c).1 = Some (Some <$> (filter (λ k', k' ≠ k) ks ++ [k])) ∧
     Keys (Add k v ts c).1 = Some (Some <$> (filter (λ k', k' ≠ k) ks ++ [k]))) ∧
  (Contains k c = false → Len c < size c →
     Keys (Add k v ts c).1 = Some (Some <$> (ks ++ [k]))) ∧
  (Contains k c = false → 1 ≤ size c ≤ Len c →
     Keys (Add k v ts c).1 = Some (Some <$> (drop 1 ks ++ [k]))).
Proof.
  intros Hos c HK. pose proof (consistent_reach sz cb os Hos) as Hc. fold c in Hc.
  pose proof (cons_wf c Hc) as Hwf.
  destruct (consistent_key_list c Hc) as (HK0 & _ & _ & _). cbv zeta in HK0.
  rewrite HK in HK0. injection HK0 as HK0. apply (inj (fmap Some)) in HK0.
  assert (Hold : ∀ x, x ∈ reverse (evictList c) → x ≠ next c).
  { intros x Hx ->. rewrite elem_of_reverse in Hx. apply (wf_list c Hwf) in Hx. lia. }
  split_and!.
  - intros Hk. apply Contains_true in Hk as [el Hk]. rewrite HK0. split.
    + apply (Keys_moved c _ el k); try done; unfold Get; by rewrite Hk.
    + rewrite (Add_hit _ _ _ _ el) by done. cbn [fst].
      apply (Keys_moved c _ el k); try done. intros x. simpl.
      destruct (decide (x = el)) as [->|Hne].
      * rewrite lookup_alter_eq. by destruct (heap c !! el).
      * by rewrite lookup_alter_ne.
  - intros Hk Hroom. apply Contains_false in Hk.
    rewrite Add_miss_fits by (done || lia). cbn [fst]. rewrite Keys_of_list; simpl.
    + rewrite reverse_cons, omap_app. cbn [omap list_omap].
      rewrite lookup_insert_eq. simpl.
      rewrite (omap_key_ext _ (heap c)), <- HK0; [done|].
      intros x Hx. by rewrite lookup_insert_ne by (symmetry; by apply Hold).
    + rewrite map_size_insert_None by done. by rewrite (consistent_sizes c Hc).
    + intros x Hx. apply elem_of_cons in Hx as [->|Hx].
      * rewrite lookup_insert_eq. eauto.
      * destruct (cons_items c Hc x Hx) as (e & He & _).
        rewrite lookup_insert_ne; [eauto|]. intros <-.
        apply (wf_list c Hwf) in Hx. lia.
  - intros Hk Hfull. apply Contains_false in Hk.
    destruct (nonempty_snoc (evictList c)) as (l & x & Hl).
    { intros Hnil. unfold Len in Hfull. rewrite Hnil in Hfull. simpl in Hfull. lia. }
    assert (Hx : x ∈ evictList c) by (rewrite Hl; apply elem_of_app; right; left).
    destruct (cons_items c Hc x Hx) as (ent & Hent & Hkey).
    assert (Hne : Entry.key ent ≠ k) by (intros Heq; rewrite Heq in Hkey; congruence).
    rewrite (Add_miss_evicts_back k v ts c l x ent) by (done || lia). cbn [fst].
    rewrite Hl, reverse_snoc in HK0, Hold. cbn [omap list_omap] in HK0.
    rewrite Hent in HK0. simpl in HK0. rewrite HK0. cbn [drop].
    rewrite Keys_of_list; simpl.
    + rewrite reverse_cons, omap_app. cbn [omap list_omap].
      rewrite lookup_insert_eq. simpl.
      rewrite (omap_key_ext _ (heap c)); [done|].
      intros y Hy. rewrite lookup_insert_ne; [done|]. intros <-.
      by apply (Hold (next c)); [right|].
    + rewrite map_size_delete_Some by (rewrite lookup_insert_ne by done; eauto).
      rewrite map_size_insert_None by done. simpl.
      rewrite (consistent_sizes c Hc), Hl, length_app. simpl. lia.
    + intros y Hy. apply elem_of_cons in Hy as [->|Hy].
      * rewrite lookup_insert_eq. eauto.
      * assert (Hy' : y ∈ evictList c) by (rewrite Hl; apply elem_of_app; by left).
        destruct (cons_items c Hc y Hy') as (e & He & _).
        rewrite lookup_insert_ne; [eauto|]. intros <-.
        apply (wf_list c Hwf) in Hy'. lia.
Qed.

End properties.

(** ** The properties on concrete runs *)

Lemma constructors_reject_nonpositive_witness :
  ∃ c : LRU string nat,
    NewLRU 2 true = Ok c ∧ NewWithEvict 2 true = Ok (mkCache c) ∧
    size c = 2 ∧ Len c = 0 ∧ Keys c = Some [].
Proof.
  destruct (constructors_reject_nonpositive (K:=string) (V:=nat) 2 true)
    as (_ & _ & _ & Hok).
  destruct (Hok ltac:(lia)) as (c & Hc & Hw & Hs & _ & Hl & Hk & _).
  exists c. split_and!; [exact Hc|exact Hw|exact Hs|exact Hl|exact Hk].
Defined.

Lemma Add_Get_roundtrip_witness :
  let c := run three_adds (fresh 5 true) in
  let c' := (Add "d" 4%nat ["u"] c).1 in
  (Get "d" c').2 = (Some 4%nat, true) ∧ Peek "d" c' = (Some 4%nat, true) ∧
  Contains "d" c' = true.
Proof.
  apply (Add_Get_roundtrip 5 true three_adds "d" 4%nat ["u"]);
    [reflexivity|by vm_compute].
Defined.

Lemma Add_present_updates_witness :
  let c := run three_adds (fresh 5 true) in
  let r := Add "a" 9%nat ["z"] c in
  r.2 = false ∧ Len r.1 = Len c ∧ size r.1 = size c ∧
  evicted r.1 = evicted c ∧ items r.1 = items c ∧
  head (evictList r.1) = items c !! "a" ∧
  Peek "a" r.1 = (Some 9%nat, true) ∧
  (∀ k', k' ≠ "a" → Peek k' r.1 = Peek k' c) ∧
  (∀ t, t ∈ ["z"] → "a" ∈ FindByTags [t] r.1).
Proof.
  apply (Add_present_updates 5 true three_adds "a" 9%nat ["z"]). reflexivity.
Defined.

Lemma Add_new_with_room_witness :
  let c := run three_adds (fresh 5 true) in
  let r := Add "d" 4%nat ["u"] c in
  r.2 = false ∧ Len r.1 = Len c + 1 ∧ size r.1 = size c ∧
  evicted r.1 = evicted c ∧
  Peek "d" r.1 = (Some 4%nat, true) ∧
  (∀ k', k' ≠ "d" → Peek k' r.1 = Peek k' c) ∧
  (∀ k', Contains k' r.1 = true ↔ k' = "d" ∨ Contains k' c = true) ∧
  (∀ t, t ∈ ["u"] → "d" ∈ FindByTags [t] r.1).
Proof.
  apply (Add_new_with_room 5 true three_adds "d" 4%nat ["u"]);
    [reflexivity|by vm_compute].
Defined.

Lemma Add_new_when_full_witness :
  let c := run three_adds (fresh 3 true) in
  let r := Add "d" 4%nat ["u"] c in
  ∃ ko vo, GetOldest c = (Some ko, Some vo, true) ∧
    r.2 = true ∧ Len r.1 = Len c ∧ size r.1 = size c ∧
    evicted r.1 = evicted c ++ [(ko, vo)] ∧
    Peek "d" r.1 = (Some 4%nat, true) ∧ Contains ko r.1 = false ∧
    (∀ k', Contains k' r.1 = true ↔ k' ≠ ko ∧ (k' = "d" ∨ Contains k' c = true)) ∧
    (∀ k', k' ≠ ko → k' ≠ "d" → Peek k' r.1 = Peek k' c).
Proof.
  apply (Add_new_when_full 3 true three_adds "d" 4%nat ["u"]);
    [reflexivity|reflexivity|by vm_compute].
Defined.

Lemma Add_Remove_roundtrip_witness :
  let c := run three_adds (fresh 5 true) in
  let r := Remove "d" (Add "d" 4%nat ["t"; "z"] c).1 in
  r.2 = true ∧ size r.1 = size c ∧ evictList r.1 = evictList c ∧
  items r.1 = items c ∧ tags r.1 = tags c ∧
  evicted r.1 = evicted c ++ [("d", 4%nat)].
Proof.
  apply (Add_Remove_roundtrip 5 true three_adds "d" 4%nat ["t"; "z"]);
    [reflexivity|by vm_compute].
Defined.

Lemma Get_refreshes_recency_witness :
  let c := run three_adds (fresh 5 true) in
  let g := Get "a" c in
  g.2 = (Some 1%nat, true) ∧ items g.1 = items c ∧
  head (evictList g.1) = Some 0%nat ∧
  list_Remove 0%nat (evictList g.1) = [2%nat; 1%nat].
Proof.
  destruct (Get_refreshes_recency 5 true three_adds "a")
    as (Hg & _ & _ & Hi & _ & _ & _ & _ & _ & Hhit).
  destruct (Hhit 0%nat ltac:(by vm_compute)) as [Hh Hrest].
  split_and!; [exact Hg|exact Hi|exact Hh|exact Hrest].
Defined.

Lemma Remove_deletes_key_witness :
  let c := run three_adds (fresh 5 true) in
  let r := Remove "b" c in
  r.2 = true ∧ Contains "b" r.1 = false ∧ Len r.1 = 2 ∧
  evicted r.1 = [("b", 2%nat)] ∧ (Remove "zz" c).1 = c.
Proof.
  destruct (Remove_deletes_key 5 true three_adds "b") as (Hr & Hno & _ & _ & _ & Hhit).
  destruct (Hhit 2%nat ltac:(by vm_compute)) as [Hlen Hev].
  destruct (Remove_deletes_key 5 true three_adds "zz") as (_ & _ & _ & _ & Hmiss & _).
  split_and!; [exact Hr|exact Hno|exact Hlen|exact Hev|exact (Hmiss ltac:(by vm_compute))].
Defined.

Lemma RemoveOldest_returns_oldest_witness :
  let c := run three_adds (fresh 5 true) in
  let r := RemoveOldest c in
  ∃ ko vo,
    GetOldest c = (Some ko, Some vo, true) ∧
    Contains ko r.1 = false ∧ Len r.1 = Len c - 1 ∧
    evicted r.1 = evicted c ++ [(ko, vo)] ∧
    (∀ k', k' ≠ ko → Contains k' r.1 = Contains k' c ∧ Peek k' r.1 = Peek k' c).
Proof.
  destruct (RemoveOldest_returns_oldest 5 true three_adds) as (_ & _ & _ & Hhit).
  exact (Hhit ltac:(by vm_compute)).
Defined.


Lemma Purge_empties_witness :
  let c := run three_adds (fresh 5 true) in
  let p := Purge c in
  Len p = 0 ∧ size p = 5 ∧ Keys p = Some [] ∧
  length (evicted p) = 3%nat ∧ ("a", 1%nat) ∈ evicted p ∧
  tag_index_ok (run [CAdd "k" 1%nat ["t"]] p).
Proof.
  destruct (Purge_empties 5 true three_adds)
    as (Hl & Hs & Hk & _ & _ & _ & Hn & Hmem & Hlater).
  destruct (Hlater [CAdd "k" 1%nat ["t"]] ltac:(by vm_compute)) as [Hok _].
  split_and!; [exact Hl|exact Hs|exact Hk|exact Hn| |exact Hok].
  exact (proj2 (Hmem "a" 1%nat eq_refl) eq_refl).
Defined.

Lemma Resize_keeps_newest_keys_witness :
  let c := run three_adds (fresh 5 true) in
  Keys (Resize 1 c).1 = Some (Some <$> drop (Z.to_nat (Len c - 1)) ["a"; "b"; "c"]).
Proof.
  apply (Resize_keeps_newest_keys 5 true three_adds 1 ["a"; "b"; "c"]);
    [reflexivity|by vm_compute|by vm_compute|reflexivity].
Defined.

Lemma FindByTags_finds_tagged_witness :
  let c := run three_adds (fresh 5 true) in
  "b" ∈ FindByTags ["t"] c ↔
  ∃ el ent, items c !! "b" = Some el ∧ heap c !! el = Some ent ∧
            ∃ t, t ∈ ["t"] ∧ t ∈ Entry.tags ent.
Proof. apply (FindByTags_finds_tagged 5 true three_adds "b" ["t"]). reflexivity. Defined.

Lemma FindByTags_repeats_key_witness :
  let c := run three_adds (fresh 5 true) in
  FindByTags ["x"; "y"] (Add "d" 4%nat ["x"; "y"] c).1 = ["d"; "d"].
Proof.
  apply (FindByTags_repeats_key 5 true three_adds "d" 4%nat "x" "y");
    [reflexivity|by vm_compute|reflexivity|reflexivity|done].
Defined.

Lemma Invalidate_removes_tagged_witness :
  let c := run three_adds (fresh 5 true) in
  let r := Invalidate ["t"] c in
  r.2 = Len c - Len r.1 ∧ 0 ≤ r.2 ∧ size r.1 = size c ∧
  Z.of_nat (length (evicted r.1)) = Z.of_nat (length (evicted c)) + r.2 ∧
  (∀ k, Contains k r.1 = true ↔ Contains k c = true ∧ k ∉ FindByTags ["t"] c) ∧
  (∀ k, Contains k r.1 = true → Peek k r.1 = Peek k c) ∧
  FindByTags ["t"] r.1 = [] ∧ tag_index_ok r.1.
Proof. apply (Invalidate_removes_tagged 5 true three_adds ["t"]). reflexivity. Defined.

Lemma no_empty_bucket_witness :
  tags (run three_adds (fresh 5 true)) !! "u" = Some ({[2%nat]} : gset Element) ∧
  ({[2%nat]} : gset Element) ≠ ∅.
Proof.
  split; [by vm_compute|].
  apply (no_empty_bucket 5 true three_adds "u"). by vm_compute.
Defined.

Lemma ContainsOrAdd_adds_only_absent_witness :
  let c := run three_adds (fresh 5 true) in
  ContainsOrAdd "a" 9%nat (mkCache c) = (mkCache c, (true, false)) ∧
  (ContainsOrAdd "d" 4%nat (mkCache c)).2 = (false, false) ∧
  Peek "d" (lru (ContainsOrAdd "d" 4%nat (mkCache c)).1) = (Some 4%nat, true).
Proof.
  destruct (ContainsOrAdd_adds_only_absent 5 true three_adds "a" 9%nat
              ltac:(by vm_compute) ltac:(by vm_compute)) as (_ & _ & Hhit & _).
  destruct (ContainsOrAdd_adds_only_absent 5 true three_adds "d" 4%nat
              ltac:(by vm_compute) ltac:(by vm_compute)) as (_ & _ & _ & Hmiss).
  destruct (Hmiss ltac:(by vm_compute)) as (_ & _ & Hp).
  split_and!; [exact (Hhit ltac:(by vm_compute))|reflexivity|exact Hp].
Defined.

Lemma contained_key_has_value_witness :
  let c := run mixed_calls (fresh 3 true) in
  (∃ v, Peek "e" c = (Some v, true)) ∧ Peek "a" c = (None, false).
Proof.
  destruct (contained_key_has_value 3 true mixed_calls) as (Hin & Hout & _).
  split; [exact (proj1 (Hin "e") eq_refl)|exact (Hout "a" eq_refl)].
Defined.

Lemma callbacks_fire_once_witness :
  let c := run mixed_calls (fresh 3 true) in
  evicted c ≡ₚ departed c ∧
  Z.of_nat (length (evicted c)) = Z.of_nat (next c) - Len c.
Proof. apply (callbacks_fire_once 3 mixed_calls). reflexivity. Defined.

(** The two sides on [mixed_calls]: the callback received "b", "c", "a" and
    "d" in the order they left; their elements are 1, 2, 0 and 3. *)
Example mixed_calls_departed :
  let c := run mixed_calls (fresh 3 true) in
  evicted c = [("b", 2%nat); ("c", 3%nat); ("a", 1%nat); ("d", 4%nat)] ∧
  departed c = [("a", 1%nat); ("b", 2%nat); ("c", 3%nat); ("d", 4%nat)] ∧
  evictList c = [4%nat].
Proof. by vm_compute. Qed.

Lemma Keys_track_recency_witness :
  let c := run three_adds (fresh 5 true) in
  Keys (Get "a" c).1 = Some [Some "b"; Some "c"; Some "a"] ∧
  Keys (Add "d" 4%nat [] c).1 = Some [Some "a"; Some "b"; Some "c"; Some "d"].
Proof.
  destruct (Keys_track_recency 5 true three_adds "a" 0%nat [] ["a"; "b"; "c"]
              ltac:(by vm_compute) ltac:(by vm_compute)) as (Hhit & _ & _).
  destruct (Keys_track_recency 5 true three_adds "d" 4%nat [] ["a"; "b"; "c"]
              ltac:(by vm_compute) ltac:(by vm_compute)) as (_ & Hroom & _).
  split; [exact (proj1 (Hhit ltac:(by vm_compute)))|].
  exact (Hroom ltac:(by vm_compute) ltac:(by vm_compute)).
Defined.
